(** * opentype.js: the GSUB substitution manager and the table builders

    A shallow embedding of [substitution.js] (class [Substitution]) and
    [table.js] (class [Table], the layout builder classes and the list
    helpers), with the helpers they import: [check.js] ([assert]) and
    [arraysEqual].  [substitution.js] imports [arraysEqual] from
    [util.js], which is not among the sources; [utils/compare.js] holds
    the one definition of that name among them, and it is the one
    embedded here.

    [layout.js] (class [Layout]: [getLookupTables], [expandCoverage],
    [binSearch]) and [types.js] ([encode.TABLE], [sizeOf.TABLE]) are not
    among the sources; their definitions below are marked as modelled
    from the specification.

    Conventions of the embedding.
    - JavaScript numbers that hold glyph ids, formats and sizes are
      integers ([Z]); array positions are [nat].  An element of an array
      of glyph ids is a number or [undefined].
    - A raw GSUB tree is plain nested data: records and lists.  The array
      [lookups] of the tree is the store of lookup tables; a reference to
      a lookup table is its position in that array, and a mutation of the
      table writes the store at that position.
    - A method of [Substitution] is a state transformer over the font
      that ends normally or by a thrown [Error]. *)

From Stdlib Require Import ZArith String Ascii Lia Bool.
From stdpp Require Import base option list strings gmap pretty.

Local Open Scope string_scope.
Local Open Scope list_scope.
Local Open Scope Z_scope.

(* ================================================================== *)
(** * Values and completions *)
(* ================================================================== *)

(** An element of an array of glyph ids (the glyph list of a coverage,
    the components of a ligature, the array of a rule): a number, or
    [undefined], which is also what reading past the end of the array
    gives. *)
Inductive item : Type :=
  | IUndef
  | INum (n : Z).

#[global] Instance item_eq_dec : EqDecision item.
Proof. solve_decision. Defined.

(** The JavaScript values a substitution rule and the parallel arrays of
    a subtable hold: [undefined] (also what a hole of an array reads as),
    a number, [NaN], or an array of glyph ids. *)
Inductive jsval : Type :=
  | VUndef
  | VNum (n : Z)
  | VNaN
  | VArr (items : list item).

(** An element of an array, as a value. *)
Definition item_value (x : item) : jsval :=
  match x with
  | INum n => VNum n
  | IUndef => VUndef
  end.

(** [x === y] and [x < y] on two elements: [undefined] is equal to
    itself only, and smaller than nothing. *)
Definition item_eqb (x y : item) : bool :=
  match x, y with
  | INum a, INum b => a =? b
  | IUndef, IUndef => true
  | _, _ => false
  end.

Definition item_ltb (x y : item) : bool :=
  match x, y with
  | INum a, INum b => a <? b
  | _, _ => false
  end.

(** How a call ends: it returns, it throws an [Error] with a message, or
    it leaves the typed model: [addSingle], [addMultiple] and
    [addAlternate] on a rule whose [sub] is not the number their
    signature [{ sub: id, by: id }] documents, a value the source would
    store among the coverage glyphs as it is. *)
Inductive completion (A : Type) : Type :=
  | Normal (a : A)
  | Throw (msg : string)
  | Untyped.
Arguments Normal {A} a.
Arguments Throw {A} msg.
Arguments Untyped {A}.

#[global] Instance completion_ret : MRet completion := λ A a, Normal a.
#[global] Instance completion_bind : MBind completion := λ A B k c,
  match c with
  | Normal a => k a
  | Throw msg => Throw msg
  | Untyped => Untyped
  end.

(** [check.js]: [assert(predicate, message)] throws [new Error(message)]
    when the predicate is falsy. *)
Definition fail {A} (message : string) : completion A := Throw message.

Definition assert (predicate : bool) (message : string) : completion unit :=
  if predicate then Normal tt else fail message.

(* ================================================================== *)
(** * The raw GSUB tree *)
(* ================================================================== *)

Record RangeRecord := mkRange {
  range_start : Z;
  range_end : Z;
  range_index : Z
}.

(** A coverage object, over the elements [G] of its glyph list. *)
Record Coverage_ (G : Type) := mkCoverage {
  format : Z;
  glyphs : list G;
  ranges : list RangeRecord
}.
Arguments mkCoverage {G}.
Arguments format {G}.
Arguments glyphs {G}.
Arguments ranges {G}.

(** The coverage of a subtable of the tree: [addLigature] stores the
    first element of the array of its rule among the glyphs, which is
    [undefined] when the array is empty. *)
Abbreviation Coverage := (Coverage_ item).

Record Ligature := mkLigature {
  ligGlyph : jsval;
  components : list item
}.

(** A subtable object.  The property that belongs to its lookup type is
    the one in use; the others are empty. *)
Record Subtable := mkSubtable {
  substFormat : Z;
  coverage : Coverage;
  deltaGlyphId : Z;
  substitute : list jsval;
  sequences : list jsval;
  alternateSets : list jsval;
  ligatureSets : list (list Ligature)
}.

(** [subtables] is [None] when the property is absent ([undefined]). *)
Record LookupTable := mkLookup {
  lookupType : Z;
  lookupFlag : Z;
  subtables : option (list Subtable)
}.

Record LangSys := mkLangSys {
  reserved : Z;
  reqFeatureIndex : Z;
  featureIndexes : list nat
}.

Record LangSysRecord := mkLangSysRecord {
  langSysTag : string;
  langSys : LangSys
}.

Record Script := mkScript {
  defaultLangSys : option LangSys;
  langSysRecords : list LangSysRecord
}.

Record ScriptRecord := mkScriptRecord {
  scriptTag : string;
  script : Script
}.

Record Feature := mkFeature {
  featureParams : Z;
  lookupListIndexes : list nat
}.

Record FeatureRecord := mkFeatureRecord {
  featureTag : string;
  feature : Feature
}.

Record Gsub := mkGsub {
  version : Z;
  scripts : list ScriptRecord;
  features : list FeatureRecord;
  lookups : list LookupTable
}.

(** The font, as far as the substitution manager sees it: the slot
    [font.tables.gsub], empty until a tree is parsed or created. *)
Record Font := mkFont {
  gsub : option Gsub
}.

(** A method of the manager: a state transformer over the font. *)
Definition M (A : Type) : Type := Font → completion A * Font.

#[global] Instance M_ret : MRet M := λ A a f, (Normal a, f).
#[global] Instance M_bind : MBind M := λ A B k m f,
  match m f with
  | (Normal a, f') => k a f'
  | (Throw msg, f') => (Throw msg, f')
  | (Untyped, f') => (Untyped, f')
  end.

Definition lift {A} (c : completion A) : M A := λ f, (c, f).

(* ================================================================== *)
(** * Array helpers *)
(* ================================================================== *)

(** [arr.splice(pos, 0, x)]: insert [x] before position [pos]; a position
    past the end inserts at the end. *)
Definition splice_insert {A} (pos : nat) (x : A) (arr : list A) : list A :=
  take pos arr ++ x :: drop pos arr.

(** [arr[pos] = v] on an array of values: in range it overwrites; past
    the end the array grows, the skipped positions being holes. *)
Definition array_set (pos : nat) (v : jsval) (arr : list jsval) : list jsval :=
  if decide (pos < length arr)%nat then <[pos := v]> arr
  else arr ++ replicate (pos - length arr) VUndef ++ [v].

(** [arr[i]] on an array of values and on an array of glyph ids. *)
Definition value_at (arr : list jsval) (i : nat) : jsval :=
  default VUndef (arr !! i).

Definition glyph_at (arr : list item) (i : nat) : jsval :=
  match arr !! i with
  | Some g => item_value g
  | None => VUndef
  end.

(** Position of the first element that satisfies [p]. *)
Fixpoint find_index {A} (p : A → bool) (l : list A) : option nat :=
  match l with
  | [] => None
  | x :: l' => if p x then Some 0%nat else S <$> find_index p l'
  end.

(** The message an engine gives to a [TypeError] or to a
    [ReferenceError] is its own; the model keeps the kind of the error. *)
Definition TypeError : string := "TypeError".

Definition ReferenceError : string := "ReferenceError".

(** [utils/compare.js], the one definition of [arraysEqual] among the
    sources, and its [equals], on elements of arrays of glyph ids:
<<
    export function equals(a, b) {
      if (Object.is(a, b)) {
        return true;
      } else if (Array.isArray(a) && Array.isArray(b)) {
        return arraysEqual(a, b);
      } else if (isObject(a) && isObject(b)) {
        return objectsEqual(a, b);
      } else {
        return false;
      }
    }
>>
    The module neither imports nor declares [isObject]: on two elements
    that are not the same value the third test reads a name that
    nothing declares, and throws a [ReferenceError]. *)
Definition equals (a b : item) : completion bool :=
  if item_eqb a b then Normal true else Throw ReferenceError.

(** The loop of [arraysEqual] over the positions, the arrays being of
    the same length:
<<
    for (let i = 0; i < a.length; i += 1) {
      if (!equals(a[i], b[i])) {
        return false;
      }
    }
    return true;
>> *)
Fixpoint arraysEqual_loop (a b : list item) : completion bool :=
  match a, b with
  | x :: a', y :: b' =>
      e ← equals x y;
      if (e : bool) then arraysEqual_loop a' b' else Normal false
  | _, _ => Normal true
  end.

(** [arraysEqual(a, b)] on two arrays: [false] when the lengths differ,
    the loop otherwise. *)
Definition arraysEqual (a b : list item) : completion bool :=
  if (length a =? length b)%nat then arraysEqual_loop a b else Normal false.

(* ================================================================== *)
(** * layout.js: the layout resolution engine *)
(* ================================================================== *)

(** Modelled from the spec: [Layout.expandCoverage] of layout.js, which is
    not among the sources.  "Format 1 returns the stored list verbatim;
    format 2 flattens each [{start, end}] range into [start..end]
    inclusive, in range order."  This is the range [start..end]. *)
Definition expandRange (r : RangeRecord) : list Z :=
  (λ k : nat, range_start r + Z.of_nat k) <$>
    seq 0 (Z.to_nat (range_end r - range_start r + 1)).

(** Modelled from the spec: [Layout.expandCoverage], on the formats 1 and
    2 the spec names; no other format expands to a glyph here. *)
Definition expandCoverage (c : Coverage) : list item :=
  if format c =? 1 then glyphs c
  else if format c =? 2 then INum <$> flat_map expandRange (ranges c)
  else [].

(** Modelled from the spec: [Layout.binSearch] of layout.js, which is not
    among the sources.  "Classic binary search; found -> index; not found
    -> [-1 - insertionPoint]."  This is its loop, which halves the interval
    [imin..imax]; [fuel] bounds the iterations.  The element in the
    middle is compared with the value by [===] and then by [<]: no
    number is equal to [undefined] or smaller than it. *)
Fixpoint binSearch_loop (fuel : nat) (arr : list item) (v : item) (imin imax : Z) : Z :=
  match fuel with
  | O => -1 - imin
  | S fuel' =>
      if imin <=? imax then
        let imid := (imin + imax) / 2 in
        match arr !! Z.to_nat imid with
        | Some x =>
            if item_eqb x v then imid
            else if item_ltb x v then binSearch_loop fuel' arr v (imid + 1) imax
            else binSearch_loop fuel' arr v imin (imid - 1)
        | None => -1 - imin
        end
      else -1 - imin
  end.

(** Modelled from the spec: [Layout.binSearch], the loop on the whole
    array, with the length of the array for fuel: the interval is never
    longer. *)
Definition binSearch (arr : list item) (v : item) : Z :=
  binSearch_loop (length arr) arr v 0 (Z.of_nat (length arr) - 1).

(** Modelled from the spec: [Layout.getLookupTables] of layout.js, which
    is not among the sources.  It resolves script (default DFLT, else
    first available), language system (default dflt), feature presence
    in that language system's feature-index list, and lookup tables of
    the requested type.  With [create = true] and no match, it
    synthesizes a fresh lookup table (given type, empty subtables, flag
    0) and wires script/language/feature entries as needed.

    The definitions below take the spec at its word: an absent [script]
    argument names DFLT when the tree has that script and the first
    script of the tree otherwise; an absent [language], or dflt, names
    the default language system; an entry that has to be created is
    appended to its list, a script with the shape [createDefaultTable]
    gives to DFLT.  This is the name of the script a call resolves. *)
Definition scriptName (script : option string) (gs : Gsub) : string :=
  match script with
  | Some name => name
  | None =>
      match find_index (λ r, String.eqb (scriptTag r) "DFLT") (scripts gs) with
      | Some _ => "DFLT"
      | None =>
          match scripts gs with
          | r :: _ => scriptTag r
          | [] => "DFLT"
          end
      end
  end.

(** Modelled from the spec: the call names the default language system
    (language system: default dflt). *)
Definition isDefaultLanguage (language : option string) : bool :=
  match language with
  | None => true
  | Some l => String.eqb l "dflt"
  end.

(** Modelled from the spec: the tag of the language system a call
    names. *)
Definition languageName (language : option string) : string :=
  default "dflt" language.

(** Modelled from the spec: the script of a tag, the first record that
    carries it. *)
Definition getScriptTable (gs : Gsub) (name : string) : option Script :=
  i ← find_index (λ r, String.eqb (scriptTag r) name) (scripts gs);
  script <$> scripts gs !! i.

(** Modelled from the spec: the language system of a script, the default
    one or the first record that carries the tag. *)
Definition getLangSysTable (s : Script) (language : option string) : option LangSys :=
  if isDefaultLanguage language then defaultLangSys s
  else
    j ← find_index (λ r, String.eqb (langSysTag r) (languageName language))
                   (langSysRecords s);
    langSys <$> langSysRecords s !! j.

(** Modelled from the spec: "feature presence in that language system's
    feature-index list".  The feature index [fi] refers to a record that
    carries the tag. *)
Definition hasFeatureTag (feats : list FeatureRecord) (tag : string) (fi : nat) : bool :=
  match feats !! fi with
  | Some fr => String.eqb (featureTag fr) tag
  | None => false
  end.

(** Modelled from the spec: the feature the language system lists under
    the tag, the first of its feature indexes whose record carries it. *)
Definition getFeatureIndex (gs : Gsub) (ls : LangSys) (tag : string) : option nat :=
  i ← find_index (hasFeatureTag (features gs) tag) (featureIndexes ls);
  featureIndexes ls !! i.

(** Modelled from the spec: the lookup index [li] refers to a lookup
    table of the requested type. *)
Definition hasLookupType (lks : list LookupTable) (ty : Z) (li : nat) : bool :=
  match lks !! li with
  | Some lt => lookupType lt =? ty
  | None => false
  end.

(** Modelled from the spec: the reading path of [getLookupTables].  The
    lookup tables of the requested type, as references into the store
    [lookups], in the order the feature lists them. *)
Definition findLookupTables (gs : Gsub) (script language : option string)
    (tag : string) (ty : Z) : list nat :=
  match getScriptTable gs (scriptName script gs) with
  | None => []
  | Some s =>
      match getLangSysTable s language with
      | None => []
      | Some ls =>
          match getFeatureIndex gs ls tag with
          | None => []
          | Some fi =>
              match features gs !! fi with
              | None => []
              | Some fr =>
                  filter (λ li, hasLookupType (lookups gs) ty li = true)
                         (lookupListIndexes (feature fr))
              end
          end
      end
  end.

(** Modelled from the spec: the entries the creating path wires, with
    the shape [createDefaultTable] gives to its script and language
    system, and the "fresh lookup table (given type, empty subtables,
    flag 0)". *)
Definition newLangSys : LangSys :=
  {| reserved := 0; reqFeatureIndex := 65535; featureIndexes := [] |}.

(** Modelled from the spec: a fresh script, see [newLangSys]. *)
Definition newScript : Script :=
  {| defaultLangSys := Some newLangSys; langSysRecords := [] |}.

(** Modelled from the spec: the fresh lookup table, see [newLangSys]. *)
Definition newLookupTable (ty : Z) : LookupTable :=
  {| lookupType := ty; lookupFlag := 0; subtables := Some [] |}.

(** Modelled from the spec: the wiring of a script.  It is stored under
    its tag, in place when the tag is there, appended otherwise. *)
Definition putScript (scs : list ScriptRecord) (name : string) (s : Script)
    : list ScriptRecord :=
  let r := {| scriptTag := name; script := s |} in
  match find_index (λ r, String.eqb (scriptTag r) name) scs with
  | Some i => <[i := r]> scs
  | None => scs ++ [r]
  end.

(** Modelled from the spec: the wiring of a language system, stored in
    its script like a script in the tree. *)
Definition putLangSys (s : Script) (language : option string) (ls : LangSys) : Script :=
  if isDefaultLanguage language then
    {| defaultLangSys := Some ls; langSysRecords := langSysRecords s |}
  else
    let r := {| langSysTag := languageName language; langSys := ls |} in
    {| defaultLangSys := defaultLangSys s;
       langSysRecords :=
         match find_index (λ r, String.eqb (langSysTag r) (languageName language))
                          (langSysRecords s) with
         | Some j => <[j := r]> (langSysRecords s)
         | None => langSysRecords s ++ [r]
         end |}.

(** Modelled from the spec: the wiring of a lookup table, its index
    pushed on the lookup indexes of the feature. *)
Definition pushLookupIndex (li : nat) (fr : FeatureRecord) : FeatureRecord :=
  {| featureTag := featureTag fr;
     feature := {| featureParams := featureParams (feature fr);
                   lookupListIndexes := lookupListIndexes (feature fr) ++ [li] |} |}.

(** Modelled from the spec: the creating path of [getLookupTables].  It
    appends a fresh lookup table of the type to the store and lists it
    under the feature, creating the script, the language system and the
    feature where the tree lacks them.  Returns the tree and the
    reference to the fresh table. *)
Definition wireLookupTable (gs : Gsub) (script language : option string)
    (tag : string) (ty : Z) : Gsub * nat :=
  let name := scriptName script gs in
  let s := default newScript (getScriptTable gs name) in
  let ls := default newLangSys (getLangSysTable s language) in
  let li := length (lookups gs) in
  let '(fi, feats, ls') :=
    match getFeatureIndex gs ls tag with
    | Some fi => (fi, features gs, ls)
    | None =>
        (length (features gs),
         features gs ++
           [{| featureTag := tag;
               feature := {| featureParams := 0; lookupListIndexes := [] |} |}],
         {| reserved := reserved ls;
            reqFeatureIndex := reqFeatureIndex ls;
            featureIndexes := featureIndexes ls ++ [length (features gs)] |})
    end in
  ({| version := version gs;
      scripts := putScript (scripts gs) name (putLangSys s language ls');
      features := alter (pushLookupIndex li) fi feats;
      lookups := lookups gs ++ [newLookupTable ty] |}, li).

(* ================================================================== *)
(** * substitution.js: class Substitution *)
(* ================================================================== *)

(** [createDefaultTable]: an empty GSUB table with just a DFLT script and
    its default language system. *)
Definition createDefaultTable : Gsub :=
  {| version := 1;
     scripts :=
       [{| scriptTag := "DFLT";
           script := {| defaultLangSys :=
                          Some {| reserved := 0;
                                  reqFeatureIndex := 65535;
                                  featureIndexes := [] |};
                        langSysRecords := [] |} |}];
     features := [];
     lookups := [] |}.

(** A reference to a lookup table together with the table it refers to. *)
Definition lookupRefs (gs : Gsub) (lis : list nat) : list (nat * LookupTable) :=
  omap (λ li, (λ lt, (li, lt)) <$> lookups gs !! li) lis.

(** Modelled from the spec: the method [getLookupTables] of layout.js
    (not among the sources) on the font.  Without a match and with
    [create] it wires a fresh lookup table, on the tree of the font or,
    when the font has none, on the tree [createDefaultTable] gives. *)
Definition getLookupTables (script language : option string) (tag : string)
    (ty : Z) (create : bool) : M (list (nat * LookupTable)) := λ f,
  let table :=
    match gsub f with
    | Some gs => Some gs
    | None => if create then Some createDefaultTable else None
    end in
  match table with
  | None => (Normal [], f)
  | Some gs =>
      match findLookupTables gs script language tag ty with
      | [] =>
          if create then
            let '(gs', li) := wireLookupTable gs script language tag ty in
            (Normal [(li, newLookupTable ty)], {| gsub := Some gs' |})
          else (Normal [], f)
      | lis => (Normal (lookupRefs gs lis), f)
      end
  end.

(** Writing through a reference: the lookup table at [li] of the store
    becomes [lt]. *)
Definition storeLookup (li : nat) (lt : LookupTable) : M unit := λ f,
  (Normal tt,
   match gsub f with
   | Some gs =>
       {| gsub := Some {| version := version gs;
                          scripts := scripts gs;
                          features := features gs;
                          lookups := <[li := lt]> (lookups gs) |} |}
   | None => f
   end).

(** The lookup table with its property [subtables] set. *)
Definition setSubtables (lt : LookupTable) (sts : list Subtable) : LookupTable :=
  {| lookupType := lookupType lt; lookupFlag := lookupFlag lt; subtables := Some sts |}.

(** An element [{ sub, by }] of the lists the [get*] methods return, and a
    rule [{ sub, by }] given to the [add*] methods. *)
Record Entry := mkEntry {
  sub : jsval;
  by_ : jsval
}.

(** ** The [get*] projections *)

(** The loops of [getSingle], [getMultiple] and [getAlternates] declare
    [sub] and [by] in the initialiser of the [for] statement, next to the
    counter:
<<
    for (let g = 0, sub = glyphs[g], by = substitute[g];
         g < glyphs.length; g++) substitutions.push({ sub, by });
>>
    They are read once, at position 0, and each of the [glyphs.length]
    iterations pushes that same pair.  In the format-1 branch [by] is
    [sub + delta], which is [NaN] when [sub] is [undefined]; on an empty
    coverage no entry is pushed and the sum is never seen. *)
Definition getSingle_subtable (subtable : Subtable) : list Entry :=
  let glyphs := expandCoverage (coverage subtable) in
  if substFormat subtable =? 1 then
    let delta := deltaGlyphId subtable in
    match glyphs with
    | [] => []
    | sub0 :: _ =>
        replicate (length glyphs)
          {| sub := item_value sub0;
             by_ := match sub0 with
                    | INum n => VNum (n + delta)
                    | IUndef => VNaN
                    end |}
    end
  else
    replicate (length glyphs)
      {| sub := glyph_at glyphs 0; by_ := value_at (substitute subtable) 0 |}.

(** [getSingle]: every subtable of every lookup table of type 1 the
    feature resolves to; a lookup table without [subtables] counts for
    an empty list. *)
Definition getSingle (feature : string) (script language : option string)
    : M (list Entry) :=
  lookupTables ← getLookupTables script language feature 1 false;
  mret (flat_map (λ '(_, lt), flat_map getSingle_subtable (default [] (subtables lt)))
                 lookupTables).

(** [getMultiple], the loop on one subtable. *)
Definition getMultiple_subtable (subtable : Subtable) : list Entry :=
  let glyphs := expandCoverage (coverage subtable) in
  replicate (length glyphs)
    {| sub := glyph_at glyphs 0; by_ := value_at (sequences subtable) 0 |}.

(** [getMultiple]: the lookup tables of type 2. *)
Definition getMultiple (feature : string) (script language : option string)
    : M (list Entry) :=
  lookupTables ← getLookupTables script language feature 2 false;
  mret (flat_map (λ '(_, lt), flat_map getMultiple_subtable (default [] (subtables lt)))
                 lookupTables).

(** [getAlternates], the loop on one subtable. *)
Definition getAlternates_subtable (subtable : Subtable) : list Entry :=
  let glyphs := expandCoverage (coverage subtable) in
  replicate (length glyphs)
    {| sub := glyph_at glyphs 0; by_ := value_at (alternateSets subtable) 0 |}.

(** [getAlternates]: the lookup tables of type 3. *)
Definition getAlternates (feature : string) (script language : option string)
    : M (list Entry) :=
  lookupTables ← getLookupTables script language feature 3 false;
  mret (flat_map (λ '(_, lt), flat_map getAlternates_subtable (default [] (subtables lt)))
                 lookupTables).

(** [getLigatures]: the ligature set is read once as well; iterating an
    [undefined] ligature set throws a [TypeError]. *)
Definition getLigatures_subtable (subtable : Subtable) : completion (list Entry) :=
  let glyphs := expandCoverage (coverage subtable) in
  match glyphs with
  | [] => Normal []
  | startGlyph :: _ =>
      match ligatureSets subtable !! 0%nat with
      | None => Throw TypeError
      | Some ligSet =>
          Normal (concat (replicate (length glyphs)
            ((λ l, {| sub := VArr (startGlyph :: components l); by_ := ligGlyph l |})
               <$> ligSet)))
      end
  end.

(** The results of a loop whose body may throw, concatenated. *)
Fixpoint collect {A B} (f : A → completion (list B)) (l : list A) : completion (list B) :=
  match l with
  | [] => Normal []
  | x :: l' => ys ← f x; zs ← collect f l'; Normal (ys ++ zs)
  end.

(** [getLigatures]: the lookup tables of type 4. *)
Definition getLigatures (feature : string) (script language : option string)
    : M (list Entry) :=
  lookupTables ← getLookupTables script language feature 4 false;
  lift (collect (λ '(_, lt), collect getLigatures_subtable (default [] (subtables lt)))
                lookupTables).

(** ** The [add*] mutations *)

(** [getSubstFormat]: the first subtable of a lookup table in a
    particular format, the default subtable being pushed when there is
    none.  Returns the lookup table as the call leaves it and the
    subtable found, with its position. *)
Definition getSubstFormat (lookupTable : LookupTable) (fmt : Z)
    (defaultSubtable : option Subtable) : LookupTable * option (nat * Subtable) :=
  let sts := default [] (subtables lookupTable) in
  match find_index (λ st, substFormat st =? fmt) sts with
  | Some i => (setSubtables lookupTable sts, (λ st, (i, st)) <$> sts !! i)
  | None =>
      match defaultSubtable with
      | Some d => (setSubtables lookupTable (sts ++ [d]), Some (length sts, d))
      | None => (setSubtables lookupTable sts, None)
      end
  end.

(** The coverage with its glyph list set. *)
Definition setGlyphs (c : Coverage) (gl : list item) : Coverage :=
  {| format := format c; glyphs := gl; ranges := ranges c |}.

(** The body the three methods [addSingle], [addMultiple] and
    [addAlternate] share, on the coverage glyphs and the parallel array:
<<
    let pos = this.binSearch(subtable.coverage.glyphs, coverageGlyph);
    if (pos < 0) {
      pos = -1 - pos;
      subtable.coverage.glyphs.splice(pos, 0, coverageGlyph);
      parallel.splice(pos, 0, 0);
    }
    parallel[pos] = substitution.by;
>> *)
Definition insertOrOverwrite (gl : list item) (parallel : list jsval)
    (coverageGlyph : Z) (by' : jsval) : list item * list jsval :=
  let pos := binSearch gl (INum coverageGlyph) in
  if pos <? 0 then
    let pos := Z.to_nat (-1 - pos) in
    (splice_insert pos (INum coverageGlyph) gl,
     array_set pos by' (splice_insert pos (VNum 0) parallel))
  else (gl, array_set (Z.to_nat pos) by' parallel).

(** The default subtable of [addSingle]:
    [{ substFormat: 2, coverage: { format: 1, glyphs: [] }, substitute: [] }]. *)
Definition defaultSingle : Subtable :=
  {| substFormat := 2;
     coverage := {| format := 1; glyphs := []; ranges := [] |};
     deltaGlyphId := 0; substitute := []; sequences := [];
     alternateSets := []; ligatureSets := [] |}.

(** The default subtable of [addMultiple] and of [addAlternate]:
    [{ substFormat: 1, coverage: { format: 1, glyphs: [] } }] with an empty
    array of sequences, or of alternate sets. *)
Definition defaultFormat1 : Subtable :=
  {| substFormat := 1;
     coverage := {| format := 1; glyphs := []; ranges := [] |};
     deltaGlyphId := 0; substitute := []; sequences := [];
     alternateSets := []; ligatureSets := [] |}.

(** The shared body on the array [substitute], on [sequences] and on
    [alternateSets]. *)
Definition writeSingle (st : Subtable) (coverageGlyph : Z) (by' : jsval) : Subtable :=
  let '(gl, arr) := insertOrOverwrite (glyphs (coverage st)) (substitute st)
                                      coverageGlyph by' in
  {| substFormat := substFormat st; coverage := setGlyphs (coverage st) gl;
     deltaGlyphId := deltaGlyphId st; substitute := arr;
     sequences := sequences st; alternateSets := alternateSets st;
     ligatureSets := ligatureSets st |}.

Definition writeMultiple (st : Subtable) (coverageGlyph : Z) (by' : jsval) : Subtable :=
  let '(gl, arr) := insertOrOverwrite (glyphs (coverage st)) (sequences st)
                                      coverageGlyph by' in
  {| substFormat := substFormat st; coverage := setGlyphs (coverage st) gl;
     deltaGlyphId := deltaGlyphId st; substitute := substitute st;
     sequences := arr; alternateSets := alternateSets st;
     ligatureSets := ligatureSets st |}.

Definition writeAlternate (st : Subtable) (coverageGlyph : Z) (by' : jsval) : Subtable :=
  let '(gl, arr) := insertOrOverwrite (glyphs (coverage st)) (alternateSets st)
                                      coverageGlyph by' in
  {| substFormat := substFormat st; coverage := setGlyphs (coverage st) gl;
     deltaGlyphId := deltaGlyphId st; substitute := substitute st;
     sequences := sequences st; alternateSets := arr;
     ligatureSets := ligatureSets st |}.

(** What follows the resolution of the lookup table in [addSingle],
    [addMultiple] and [addAlternate]: find or push the subtable of the
    format, check its coverage, write the rule. *)
Definition addToFormat (name : string) (fmt : Z) (defaultSubtable : Subtable)
    (write : Subtable → Z → jsval → Subtable) (substitution : Entry)
    (lookupTables : list (nat * LookupTable)) : M unit :=
  match lookupTables with
  | [] => lift (Throw TypeError)
  | (li, lookupTable) :: _ =>
      let '(lookupTable1, found) :=
        getSubstFormat lookupTable fmt (Some defaultSubtable) in
      _ ← storeLookup li lookupTable1;
      match found with
      | None => lift (Throw TypeError)
      | Some (si, subtable) =>
          _ ← lift (assert (format (coverage subtable) =? 1)
                 (name +:+ ": unable to modify coverage table format "
                       +:+ pretty (format (coverage subtable))));
          match sub substitution with
          | VNum coverageGlyph =>
              storeLookup li
                (setSubtables lookupTable1
                   (<[si := write subtable coverageGlyph (by_ substitution)]>
                      (default [] (subtables lookupTable1))))
          | _ => lift Untyped
          end
      end
  end.

(** [addSingle]: add or modify a single substitution (lookup type 1);
    format 2 is always used. *)
Definition addSingle (feature : string) (substitution : Entry)
    (script language : option string) : M unit :=
  lookupTables ← getLookupTables script language feature 1 true;
  addToFormat "Single" 2 defaultSingle writeSingle substitution lookupTables.

(** The double-quote character of the message of [addMultiple]. *)
Definition quote : string := String (ascii_of_nat 34) EmptyString.

(** [substitution.by instanceof Array && substitution.by.length > 1]. *)
Definition isArrayOfTwoOrMore (v : jsval) : bool :=
  match v with
  | VArr ids => bool_decide (1 < length ids)%nat
  | _ => false
  end.

(** [addMultiple]: add or modify a multiple substitution (lookup type 2). *)
Definition addMultiple (feature : string) (substitution : Entry)
    (script language : option string) : M unit :=
  _ ← lift (assert (isArrayOfTwoOrMore (by_ substitution))
         ("Multiple: " +:+ quote +:+ "by" +:+ quote
            +:+ " must be an array of two or more ids"));
  lookupTables ← getLookupTables script language feature 2 true;
  addToFormat "Multiple" 1 defaultFormat1 writeMultiple substitution lookupTables.

(** [addAlternate]: add or modify an alternate substitution (lookup type 3). *)
Definition addAlternate (feature : string) (substitution : Entry)
    (script language : option string) : M unit :=
  lookupTables ← getLookupTables script language feature 3 true;
  addToFormat "Alternate" 1 defaultFormat1 writeAlternate substitution lookupTables.

(** The subtable [addLigature] creates:
    [{ substFormat: 1, coverage: { format: 1, glyphs: [] }, ligatureSets: [] }]. *)
Definition defaultLigature : Subtable := defaultFormat1.

(** The subtable with its coverage glyphs and its ligature sets set. *)
Definition setLigatures (st : Subtable) (gl : list item) (sets : list (list Ligature))
    : Subtable :=
  {| substFormat := substFormat st; coverage := setGlyphs (coverage st) gl;
     deltaGlyphId := deltaGlyphId st; substitute := substitute st;
     sequences := sequences st; alternateSets := alternateSets st;
     ligatureSets := sets |}.

(** The loop of [addLigature] over a ligature set that exists:
<<
    for (const { components } of ligatureSet) {
      // If ligature already exists, return.
      if (arraysEqual(components, ligComponents)) return;
    }
>>
    Whether a ligature of the set has the components; a comparison that
    throws ends the loop and the call. *)
Fixpoint ligatureExists (ligatureSet : list Ligature) (ligComponents : list item)
    : completion bool :=
  match ligatureSet with
  | [] => Normal false
  | l :: rest =>
      e ← arraysEqual (components l) ligComponents;
      if (e : bool) then Normal true else ligatureExists rest ligComponents
  end.

(** The body of [addLigature] from the binary search on: [None] is the
    early [return] on a ligature that already exists, and leaves the
    subtable as it is. *)
Definition writeLigature (st : Subtable) (coverageGlyph : item)
    (ligComponents : list item) (by' : jsval) : completion (option Subtable) :=
  let ligatureTable := {| ligGlyph := by'; components := ligComponents |} in
  let pos := binSearch (glyphs (coverage st)) coverageGlyph in
  if 0 <=? pos then
    match ligatureSets st !! Z.to_nat pos with
    | None => Throw TypeError
    | Some ligatureSet =>
        exists' ← ligatureExists ligatureSet ligComponents;
        if (exists' : bool) then Normal None
        else Normal (Some (setLigatures st (glyphs (coverage st))
               (<[Z.to_nat pos := ligatureSet ++ [ligatureTable]]> (ligatureSets st))))
    end
  else
    let pos := Z.to_nat (-1 - pos) in
    Normal (Some (setLigatures st
      (splice_insert pos coverageGlyph (glyphs (coverage st)))
      (splice_insert pos [ligatureTable] (ligatureSets st)))).

(** [ligature.sub[0]] and [ligature.sub.slice(1)] on the array of the
    rule: the first element is [undefined] when the array is empty. *)
Definition firstItem (items : list item) : item := default IUndef (head items).

(** [addLigature]: add a ligature (lookup type 4).  It works on the
    first subtable of the lookup table, which it creates when the table
    has none.  A rule whose [sub] is no array makes [ligature.sub[0]] or
    [ligature.sub.slice] throw a [TypeError]. *)
Definition addLigature (feature : string) (ligature : Entry)
    (script language : option string) : M unit :=
  lookupTables ← getLookupTables script language feature 4 true;
  match lookupTables with
  | [] => lift (Throw TypeError)
  | (li, lookupTable) :: _ =>
      match subtables lookupTable with
      | None => lift (Throw TypeError)
      | Some sts =>
          let '(sts1, subtable) :=
            match sts with
            | st :: _ => (sts, st)
            | [] => ([defaultLigature], defaultLigature)
            end in
          _ ← storeLookup li (setSubtables lookupTable sts1);
          _ ← lift (assert (format (coverage subtable) =? 1)
                 ("Ligature: unable to modify coverage table format "
                    +:+ pretty (format (coverage subtable))));
          match sub ligature with
          | VArr items =>
              written ← lift (writeLigature subtable (firstItem items) (tail items)
                                            (by_ ligature));
              match written with
              | None => mret tt
              | Some subtable' =>
                  storeLookup li (setSubtables lookupTable (<[0%nat := subtable']> sts1))
              end
          | _ => lift (Throw TypeError)
          end
      end
  end.

(** ** The dispatch on the feature tag *)

(** The class [\d] of the pattern: an ASCII digit. *)
Definition isDigit (c : ascii) : bool :=
  ((48 <=? nat_of_ascii c) && (nat_of_ascii c <=? 57))%nat.

(** [/ss\d\d/.test(feature)]: the pattern is not anchored, it matches
    when some position of the tag starts with "ss" and two digits. *)
Fixpoint test_ss_d_d (s : string) : bool :=
  match s with
  | EmptyString => false
  | String c rest =>
      match c, rest with
      | "s"%char, String "s"%char (String d1 (String d2 _)) =>
          (isDigit d1 && isDigit d2) || test_ss_d_d rest
      | _, _ => test_ss_d_d rest
      end
  end.

(** [getFeature]: [None] is the [undefined] the method returns for a
    tag it does not know. *)
Definition getFeature (feature : string) (script language : option string)
    : M (option (list Entry)) :=
  if test_ss_d_d feature then
    r ← getSingle feature script language; mret (Some r)
  else if String.eqb feature "aalt" || String.eqb feature "salt" then
    singles ← getSingle feature script language;
    alternates ← getAlternates feature script language;
    mret (Some (singles ++ alternates))
  else if String.eqb feature "dlig" || String.eqb feature "liga"
          || String.eqb feature "rlig" then
    r ← getLigatures feature script language; mret (Some r)
  else if String.eqb feature "ccmp" then
    multiples ← getMultiple feature script language;
    ligatures ← getLigatures feature script language;
    mret (Some (multiples ++ ligatures))
  else if String.eqb feature "stch" then
    r ← getMultiple feature script language; mret (Some r)
  else mret None.

(** [typeof v === "number"] and [v instanceof Array]. *)
Definition isNumber (v : jsval) : bool :=
  match v with VNum _ | VNaN => true | _ => false end.

Definition isArray (v : jsval) : bool :=
  match v with VArr _ => true | _ => false end.

(** [add]: every branch returns [undefined], the value of the [add*]
    method it calls or the final [return undefined]. *)
Definition add (feature : string) (rule : Entry) (script language : option string)
    : M unit :=
  if test_ss_d_d feature then
    addSingle feature rule script language
  else if String.eqb feature "aalt" || String.eqb feature "salt" then
    if isNumber (by_ rule) then addSingle feature rule script language
    else addAlternate feature rule script language
  else if String.eqb feature "dlig" || String.eqb feature "liga"
          || String.eqb feature "rlig" then
    addLigature feature rule script language
  else if String.eqb feature "ccmp" then
    if isArray (by_ rule) then addMultiple feature rule script language
    else addLigature feature rule script language
  else mret tt.

(* ================================================================== *)
(** * table.js: class Table *)
(* ================================================================== *)

(** A field [{ name, type, value }] and a [Table] instance.  The
    instance always owns [tableName] and [fields] once constructed; its
    other own properties are the map [props]. *)
Record Field_ (V : Type) := mkField {
  name : string;
  type : string;
  value : V
}.
Arguments mkField {V}.
Arguments name {V}.
Arguments type {V}.
Arguments value {V}.

Record Table_ (V : Type) := mkTable {
  tableName : V;
  fields : V;
  props : gmap string V
}.
Arguments mkTable {V}.
Arguments tableName {V}.
Arguments fields {V}.
Arguments props {V}.

(** The values a field or a property of a table holds: [undefined], a
    number, a string, a method inherited from a prototype, an array of
    fields, a nested table. *)
#[local] Set Warnings "-register-all".

Inductive tvalue : Type :=
  | TUndef
  | TNum (n : Z)
  | TStr (s : string)
  | TFun (method : string)
  | TFields (fs : list (Field_ tvalue))
  | TTable (t : Table_ tvalue).

Abbreviation Field := (Field_ tvalue).
Abbreviation Table := (Table_ tvalue).

Definition is_undefined (v : tvalue) : bool :=
  match v with TUndef => true | _ => false end.

(** What an instance inherits: the members of [Table.prototype] (the
    class body: [constructor], [encode], [sizeOf]) and the methods of
    [Object.prototype].  The accessor [__proto__] is not modelled:
    property names are taken to differ from it. *)
Definition Table_prototype : list string := ["constructor"; "encode"; "sizeOf"].

Definition Object_prototype : list string :=
  ["hasOwnProperty"; "isPrototypeOf"; "propertyIsEnumerable"; "toLocaleString";
   "toString"; "valueOf"; "__defineGetter__"; "__defineSetter__";
   "__lookupGetter__"; "__lookupSetter__"].

Definition inherited (k : string) : tvalue :=
  if existsb (String.eqb k) (Table_prototype ++ Object_prototype) then TFun k
  else TUndef.

(** The own property [k] of an instance, if it has one. *)
Definition own (this : Table) (k : string) : option tvalue :=
  if String.eqb k "tableName" then Some (tableName this)
  else if String.eqb k "fields" then Some (fields this)
  else props this !! k.

(** [this[k]]: the own property, else what the prototypes give. *)
Definition get (this : Table) (k : string) : tvalue :=
  match own this k with
  | Some v => v
  | None => inherited k
  end.

(** [this[k] = v]. *)
Definition set (this : Table) (k : string) (v : tvalue) : Table :=
  if String.eqb k "tableName" then
    {| tableName := v; fields := fields this; props := props this |}
  else if String.eqb k "fields" then
    {| tableName := tableName this; fields := v; props := props this |}
  else
    {| tableName := tableName this; fields := fields this;
       props := <[k := v]> (props this) |}.

(** The loop over the fields: [this[field.name] = field.value]. *)
Definition seed (fs : list Field) (this : Table) : Table :=
  foldl (λ this field, set this (name field) (value field)) this fs.

(** The loop over [Object.keys(options)]: [if (this[k] !== undefined)
    this[k] = v]. *)
Definition overlay (options : list (string * tvalue)) (this : Table) : Table :=
  foldl (λ this '(k, v), if is_undefined (get this k) then this else set this k v)
        this options.

(** The instance before the constructor body runs: no own property. *)
Definition blank : Table :=
  {| tableName := TUndef; fields := TUndef; props := ∅ |}.

(** The instance when the constructor reaches [if (options)]. *)
Definition seeded (tableName' : string) (fs : list Field) : Table :=
  let this := seed fs blank in
  {| tableName := TStr tableName'; fields := TFields fs; props := props this |}.

(** [new Table(tableName, fields, options)].  An object has each key
    once, and [options] lists its keys in the order of [Object.keys]. *)
Definition new_Table (tableName' : string) (fs : list Field)
    (options : option (list (string * tvalue))) : Table :=
  let this := seeded tableName' fs in
  match options with
  | Some o => overlay o this
  | None => this
  end.

(** ** The list helpers *)

Definition ushortField (name' : string) (v : Z) : Field :=
  {| name := name'; type := "USHORT"; value := TNum v |}.

(** [ushortList(itemName, list, count)]. *)
Definition ushortList (itemName : string) (list' : list Z) (count : option Z)
    : list Field :=
  let count := default (Z.of_nat (length list')) count in
  ushortField (itemName +:+ "Count") count ::
  imap (λ i x, ushortField (itemName +:+ pretty i) x) list'.

(** [recordList(itemName, records, itemCallback)]: the count field,
    then the fields each callback returns, concatenated.  A callback may
    throw, which ends the construction. *)
Fixpoint recordList_from {A} (itemCallback : A → nat → completion (list Field))
    (i : nat) (records : list A) : completion (list Field) :=
  match records with
  | [] => Normal []
  | r :: records' =>
      fs ← itemCallback r i;
      rest ← recordList_from itemCallback (S i) records';
      Normal (fs ++ rest)
  end.

Definition recordList {A} (itemName : string) (records : list A)
    (itemCallback : A → nat → completion (list Field)) : completion (list Field) :=
  rest ← recordList_from itemCallback 0 records;
  Normal (ushortField (itemName +:+ "Count") (Z.of_nat (length records)) :: rest).

(** [tableList(itemName, records, itemCallback)]: the count field, then
    one TABLE field for each record. *)
Fixpoint tableList_from {A} (itemName : string)
    (itemCallback : A → nat → completion Table)
    (i : nat) (records : list A) : completion (list Field) :=
  match records with
  | [] => Normal []
  | r :: records' =>
      t ← itemCallback r i;
      rest ← tableList_from itemName itemCallback (S i) records';
      Normal ({| name := itemName +:+ pretty i; type := "TABLE"; value := TTable t |}
                :: rest)
  end.

Definition tableList {A} (itemName : string) (records : list A)
    (itemCallback : A → nat → completion Table) : completion (list Field) :=
  rest ← tableList_from itemName itemCallback 0 records;
  Normal (ushortField (itemName +:+ "Count") (Z.of_nat (length records)) :: rest).

(** ** The layout builder classes *)

Definition langSysFields (ls : LangSys) : list Field :=
  [ushortField "lookupOrder" 0; ushortField "reqFeatureIndex" (reqFeatureIndex ls)]
    ++ ushortList "featureIndex" (Z.of_nat <$> featureIndexes ls) None.

(** [new ScriptList(scriptListTable)]. *)
Definition ScriptList (scriptListTable : list ScriptRecord) : completion Table :=
  fs ← recordList "scriptRecord" scriptListTable (λ scriptRecord i,
    match defaultLangSys (script scriptRecord) with
    | None =>
        fail ("Unable to write GSUB: script " +:+ scriptTag scriptRecord
                +:+ " has no default language system.")
    | Some defaultLangSys' =>
        langSysFields' ← recordList "langSys" (langSysRecords (script scriptRecord))
          (λ langSysRecord i,
             Normal
               [{| name := "langSysTag" +:+ pretty i; type := "TAG";
                   value := TStr (langSysTag langSysRecord) |};
                {| name := "langSys" +:+ pretty i; type := "TABLE";
                   value := TTable (new_Table "langSys"
                              (langSysFields (langSys langSysRecord)) None) |}]);
        Normal
          [{| name := "scriptTag" +:+ pretty i; type := "TAG";
              value := TStr (scriptTag scriptRecord) |};
           {| name := "script" +:+ pretty i; type := "TABLE";
              value := TTable (new_Table "scriptTable"
                ({| name := "defaultLangSys"; type := "TABLE";
                    value := TTable (new_Table "defaultLangSys"
                               (langSysFields defaultLangSys') None) |}
                   :: langSysFields') None) |}]
    end);
  Normal (new_Table "scriptListTable" fs None).

(* ================================================================== *)
(** * types.js: the type codec and the Table engine *)
(* ================================================================== *)

(** Modelled from the spec: the fault of an unknown type tag, by the name
    the spec gives it. *)
Definition UnsupportedType : string := "UnsupportedType".

(** Modelled from the spec: the fault of a value outside the range of its
    type ("fail fast rather than silently truncate"). *)
Definition OutOfRange : string := "OutOfRange".

(** Modelled from the spec: "all multi-byte integers big-endian".  The
    [n] low-order bytes of [v], most significant first; a negative [v]
    gives its two's complement. *)
Definition be_bytes (n : nat) (v : Z) : list Z :=
  (λ i : nat, (v / 256 ^ Z.of_nat (n - 1 - i)) `mod` 256) <$> seq 0 n.

(** Modelled from the spec: the bytes of a string of ASCII characters. *)
Fixpoint char_codes (s : string) : list Z :=
  match s with
  | EmptyString => []
  | String c s' => Z.of_nat (nat_of_ascii c) :: char_codes s'
  end.

(** Modelled from the spec: an integer type of [n] bytes with values in
    [lo, hi); a value outside the range fails fast. *)
Definition encode_int (n : nat) (lo hi : Z) (v : tvalue) : completion (list Z) :=
  match v with
  | TNum x => if (lo <=? x) && (x <? hi) then Normal (be_bytes n x) else Throw OutOfRange
  | _ => Throw OutOfRange
  end.

(** Modelled from the spec: a type of characters, of a fixed number of
    them or of any number. *)
Definition encode_chars (n : option nat) (v : tvalue) : completion (list Z) :=
  match v with
  | TStr s =>
      match n with
      | Some n => if (String.length s =? n)%nat then Normal (char_codes s)
                  else Throw OutOfRange
      | None => Normal (char_codes s)
      end
  | _ => Throw OutOfRange
  end.

(** Modelled from the spec: the primitive types of types.js, which is not
    among the sources.  "Encode/decode/size for: BYTE(1), CHAR(1),
    USHORT/SHORT(2), UINT24(3), ULONG/LONG(4), FIXED(4, 16.16),
    FWORD/UFWORD(2), LONGDATETIME(8, seconds since 1904-01-01), TAG(4 ASCII
    bytes), CHARARRAY(variable raw bytes).  All multi-byte integers
    big-endian.  Unknown type tag -> UnsupportedType fault; numeric value
    outside a type's range -> fail fast rather than silently truncate."
    A FIXED value is a whole number here, stored in the upper 16 bits. *)
Definition encode_scalar (ty : string) (v : tvalue) : completion (list Z) :=
  if String.eqb ty "BYTE" then encode_int 1 0 256 v
  else if String.eqb ty "CHAR" then encode_chars (Some 1%nat) v
  else if String.eqb ty "USHORT" then encode_int 2 0 65536 v
  else if String.eqb ty "SHORT" then encode_int 2 (-32768) 32768 v
  else if String.eqb ty "UINT24" then encode_int 3 0 16777216 v
  else if String.eqb ty "ULONG" then encode_int 4 0 4294967296 v
  else if String.eqb ty "LONG" then encode_int 4 (-2147483648) 2147483648 v
  else if String.eqb ty "FIXED" then
    match v with
    | TNum x => encode_int 4 (-2147483648) 2147483648 (TNum (x * 65536))
    | _ => Throw OutOfRange
    end
  else if String.eqb ty "FWORD" then encode_int 2 (-32768) 32768 v
  else if String.eqb ty "UFWORD" then encode_int 2 0 65536 v
  else if String.eqb ty "LONGDATETIME" then
    encode_int 8 (-9223372036854775808) 9223372036854775808 v
  else if String.eqb ty "TAG" then encode_chars (Some 4%nat) v
  else if String.eqb ty "CHARARRAY" then encode_chars None v
  else Throw UnsupportedType.

(** Modelled from the spec: [sizeOf] of the primitive types.  The size of
    a fixed-width type does not look at the value. *)
Definition sizeOf_scalar (ty : string) (v : tvalue) : completion nat :=
  if String.eqb ty "BYTE" then Normal 1%nat
  else if String.eqb ty "CHAR" then Normal 1%nat
  else if String.eqb ty "USHORT" then Normal 2%nat
  else if String.eqb ty "SHORT" then Normal 2%nat
  else if String.eqb ty "UINT24" then Normal 3%nat
  else if String.eqb ty "ULONG" then Normal 4%nat
  else if String.eqb ty "LONG" then Normal 4%nat
  else if String.eqb ty "FIXED" then Normal 4%nat
  else if String.eqb ty "FWORD" then Normal 2%nat
  else if String.eqb ty "UFWORD" then Normal 2%nat
  else if String.eqb ty "LONGDATETIME" then Normal 8%nat
  else if String.eqb ty "TAG" then Normal 4%nat
  else if String.eqb ty "CHARARRAY" then
    match v with
    | TStr s => Normal (String.length s)
    | _ => Throw OutOfRange
    end
  else Throw UnsupportedType.

(** Modelled from the spec: an encoded field of a table.  The bytes of a
    scalar field stay in the head, the bytes of a nested table follow
    the head and leave a 2-byte offset in it. *)
Inductive part : Type :=
  | Inline (bytes : list Z)
  | Nested (bytes : list Z).

(** Modelled from the spec: pass 1 of [encode.TABLE], the length of the
    head. *)
Definition headLength (parts : list part) : nat :=
  sum_list ((λ p, match p with Inline b => length b | Nested _ => 2%nat end) <$> parts).

(** Modelled from the spec: pass 2 of [encode.TABLE], the head, every
    offset being the position of its nested table from the start of this
    table, as a USHORT. *)
Fixpoint emitHead (parts : list part) (offset : nat) : completion (list Z) :=
  match parts with
  | [] => Normal []
  | Inline b :: parts' => rest ← emitHead parts' offset; Normal (b ++ rest)
  | Nested b :: parts' =>
      o ← encode_int 2 0 65536 (TNum (Z.of_nat offset));
      rest ← emitHead parts' (offset + length b);
      Normal (o ++ rest)
  end.

(** Modelled from the spec: pass 2 of [encode.TABLE], the bytes of the
    nested tables, in field order. *)
Definition nestedBytes (parts : list part) : list Z :=
  concat ((λ p, match p with Inline _ => [] | Nested b => b end) <$> parts).

(** Modelled from the spec: pass 2 of [encode.TABLE], the head followed
    by the nested tables. *)
Definition assemble (parts : list part) : completion (list Z) :=
  head ← emitHead parts (headLength parts);
  Normal (head ++ nestedBytes parts).

(** Modelled from the spec: [encode.TABLE] of types.js, which is not among
    the sources.  "Two-pass.  Pass 1 computes the head length: every
    scalar field's size plus a fixed 2-byte offset placeholder for every
    nested Table field, in declaration order.  Pass 2 emits the head
    (offsets filled with real relative positions) followed by the
    fully-encoded bytes of each nested Table, in field order; nested
    Tables recurse, each computing offsets relative to its own start."
    The field list of the instance gives the order, the codec and the
    value of each field; an instance without a field list has no bytes. *)
Fixpoint encodeTABLE (t : tvalue) : completion (list Z) :=
  match t with
  | TTable table =>
      match fields table with
      | TFields fs =>
          parts ← (fix encodeFields (fs : list Field) : completion (list part) :=
                     match fs with
                     | [] => Normal []
                     | field :: fs' =>
                         p ← (if String.eqb (type field) "TABLE"
                              then bytes ← encodeTABLE (value field); Normal (Nested bytes)
                              else bytes ← encode_scalar (type field) (value field);
                                   Normal (Inline bytes));
                         ps ← encodeFields fs';
                         Normal (p :: ps)
                     end) fs;
          assemble parts
      | _ => Normal []
      end
  | _ => Throw OutOfRange
  end.

(** Modelled from the spec: [sizeOf.TABLE] of types.js, which is not among
    the sources.  It "performs the same computation without materializing
    bytes": the sizes of the scalar fields, and two bytes more than its
    own size for every nested table. *)
Fixpoint sizeOfTABLE (t : tvalue) : completion nat :=
  match t with
  | TTable table =>
      match fields table with
      | TFields fs =>
          (fix sizeOfFields (fs : list Field) : completion nat :=
             match fs with
             | [] => Normal 0%nat
             | field :: fs' =>
                 n ← (if String.eqb (type field) "TABLE"
                      then m ← sizeOfTABLE (value field); Normal (2 + m)%nat
                      else sizeOf_scalar (type field) (value field));
                 rest ← sizeOfFields fs';
                 Normal (n + rest)%nat
             end) fs
      | _ => Normal 0%nat
      end
  | _ => Throw OutOfRange
  end.

(** [Table.prototype.encode]: [return encode.TABLE(this)]. *)
Definition encode (this : Table) : completion (list Z) := encodeTABLE (TTable this).

(** [Table.prototype.sizeOf]: [return sizeOf.TABLE(this)]. *)
Definition sizeOf (this : Table) : completion nat := sizeOfTABLE (TTable this).

(* ================================================================== *)
(** * table.js: the other layout builder classes *)
(* ================================================================== *)

(** The coverage table given to [new Coverage]: its glyphs are glyph
    ids. *)
Abbreviation CoverageTable := (Coverage_ Z).

(** [new Coverage(coverageTable)].  The class calls [super] in the
    branches of the formats 1 and 2; on any other format [check.assert]
    throws, before the constructor could return without having called
    [super]. *)
Definition new_Coverage (coverageTable : CoverageTable) : completion Table :=
  if format coverageTable =? 1 then
    Normal (new_Table "coverageTable"
      (ushortField "coverageFormat" 1
         :: ushortList "glyph" (glyphs coverageTable) None) None)
  else if format coverageTable =? 2 then
    fs ← recordList "rangeRecord" (ranges coverageTable) (λ RangeRecord i,
      Normal
        [ushortField ("startGlyphID" +:+ pretty i) (range_start RangeRecord);
         ushortField ("endGlyphID" +:+ pretty i) (range_end RangeRecord);
         ushortField ("startCoverageIndex" +:+ pretty i) (range_index RangeRecord)]);
    Normal (new_Table "coverageTable" (ushortField "coverageFormat" 2 :: fs) None)
  else
    _ ← assert false "Coverage format must be 1 or 2.";
    Throw ReferenceError.

(** A class definition table [{ format, startGlyph, classes }] (format 1)
    or [{ format, ranges }] (format 2), with the range records
    [{ start, end, classId }]. *)
Record ClassRangeRecord := mkClassRange {
  class_start : Z;
  class_end : Z;
  classId : Z
}.

Record ClassDefTable := mkClassDef {
  classFormat : Z;
  startGlyph : Z;
  classes : list Z;
  classRanges : list ClassRangeRecord
}.

(** [new ClassDef(classDefTable)]. *)
Definition new_ClassDef (classDefTable : ClassDefTable) : completion Table :=
  if classFormat classDefTable =? 1 then
    Normal (new_Table "classDefTable"
      ([ushortField "classFormat" 1;
        ushortField "startGlyphID" (startGlyph classDefTable)]
         ++ ushortList "glyph" (classes classDefTable) None) None)
  else if classFormat classDefTable =? 2 then
    fs ← recordList "rangeRecord" (classRanges classDefTable) (λ RangeRecord i,
      Normal
        [ushortField ("startGlyphID" +:+ pretty i) (class_start RangeRecord);
         ushortField ("endGlyphID" +:+ pretty i) (class_end RangeRecord);
         ushortField ("class" +:+ pretty i) (classId RangeRecord)]);
    Normal (new_Table "classDefTable" (ushortField "classFormat" 2 :: fs) None)
  else
    _ ← assert false "Class format must be 1 or 2.";
    Throw ReferenceError.

(** The fields of a feature table. *)
Definition featureFields (ft : Feature) : list Field :=
  ushortField "featureParams" (featureParams ft)
    :: ushortList "lookupListIndex" (Z.of_nat <$> lookupListIndexes ft) None.

(** [new FeatureList(featureListTable)]. *)
Definition FeatureList (featureListTable : list FeatureRecord) : completion Table :=
  fs ← recordList "featureRecord" featureListTable (λ featureRecord i,
    let feature' := feature featureRecord in
    Normal
      [{| name := "featureTag" +:+ pretty i; type := "TAG";
          value := TStr (featureTag featureRecord) |};
       {| name := "feature" +:+ pretty i; type := "TABLE";
          value := TTable (new_Table "featureTable" (featureFields feature') None) |}]);
  Normal (new_Table "featureListTable" fs None).

(** [new LookupList(lookupListTable, subtableMakers)].  The object
    [subtableMakers] maps a lookup type to the callback that builds the
    table of a subtable; [tableList] calls it with the subtable and its
    position.  A lookup table without [subtables] ends the construction
    by the [TypeError] of [records.length]. *)
Definition LookupList (lookupListTable : list LookupTable)
    (subtableMakers : gmap Z (Subtable → nat → completion Table)) : completion Table :=
  fs ← tableList "lookup" lookupListTable (λ lookupTable _,
    match subtableMakers !! lookupType lookupTable with
    | None =>
        fail ("Unable to write GSUB lookup type " +:+ pretty (lookupType lookupTable)
                +:+ " tables.")
    | Some subtableCallback =>
        match subtables lookupTable with
        | None => Throw TypeError
        | Some sts =>
            fs' ← tableList "subtable" sts subtableCallback;
            Normal (new_Table "lookupTable"
              ([ushortField "lookupType" (lookupType lookupTable);
                ushortField "lookupFlag" (lookupFlag lookupTable)] ++ fs') None)
        end
    end);
  Normal (new_Table "lookupListTable" fs None).

(* ================================================================== *)
(** * tables/meta.js: the writer of the `meta` table *)
(* ================================================================== *)

(** The three fields [make] pushes for a tag: the tag, the offset of its
    text in the file and the length of its text. *)
Definition meta_entry (stringPoolOffset : Z) (pos : nat) (tag text : string)
    : list Field :=
  [{| name := "tag " +:+ tag; type := "TAG"; value := TStr tag |};
   {| name := "offset " +:+ tag; type := "ULONG";
      value := TNum (stringPoolOffset + Z.of_nat pos) |};
   {| name := "length " +:+ tag; type := "ULONG";
      value := TNum (Z.of_nat (String.length text)) |}].

(** The loop [for (let tag in tags)] of [make], on the string pool and on
    the array [result.fields]: [pos] is the length of the pool so far,
    the text is appended to the pool, the three fields are pushed.  The
    object [tags] is the list of its entries in the order of the
    enumeration. *)
Fixpoint meta_loop (stringPoolOffset : Z) (tags : list (string * string))
    (stringPool : string) (fields' : list Field) : string * list Field :=
  match tags with
  | [] => (stringPool, fields')
  | (tag, text) :: tags' =>
      let pos := String.length stringPool in
      meta_loop stringPoolOffset tags' (stringPool +:+ text)
                (fields' ++ meta_entry stringPoolOffset pos tag text)
  end.

(** [make(tags)].  The constructor seeds the properties of the four
    header fields; the fields pushed afterwards go to the array the
    instance holds under [fields], which is the array the constructor
    was given, and seed no property. *)
Definition meta_make (tags : list (string * string)) : Table :=
  let numTags := Z.of_nat (length tags) in
  let stringPoolOffset := 16 + numTags * 12 in
  let header :=
    [{| name := "version"; type := "ULONG"; value := TNum 1 |};
     {| name := "flags"; type := "ULONG"; value := TNum 0 |};
     {| name := "offset"; type := "ULONG"; value := TNum stringPoolOffset |};
     {| name := "numTags"; type := "ULONG"; value := TNum numTags |}] in
  let result := new_Table "meta" header None in
  let '(stringPool, fields') := meta_loop stringPoolOffset tags "" header in
  set result "fields"
    (TFields (fields' ++ [{| name := "stringPool"; type := "CHARARRAY";
                             value := TStr stringPool |}])).

(* ================================================================== *)
(** * utils/guards.js: the argument check and the type guards *)
(* ================================================================== *)

(** [checkArgument(expression, message)] throws a [TypeError] that
    carries the message when the expression is falsy.  A completion
    keeps the message of what is thrown, not its class. *)
Definition checkArgument (expression : bool) (message : string) : completion unit :=
  if expression then Normal tt else Throw message.

(** The JavaScript values the guards tell apart.  An object and a
    function are known by their identity. *)
Inductive jsvalue : Type :=
  | v_undefined
  | v_null
  | v_boolean (b : bool)
  | v_number (n : Z)
  | v_string (s : string)
  | v_array (items : list jsvalue)
  | v_object (id : nat)
  | v_function (id : nat).

(** [typeof it]. *)
Definition typeof (it : jsvalue) : string :=
  match it with
  | v_undefined => "undefined"
  | v_null => "object"
  | v_boolean _ => "boolean"
  | v_number _ => "number"
  | v_string _ => "string"
  | v_array _ => "object"
  | v_object _ => "object"
  | v_function _ => "function"
  end.

Definition is_null (it : jsvalue) : bool :=
  match it with v_null => true | _ => false end.

(** [isObject(it)]:
<<
    return typeof it === "object" && it !== null && !Array.isArray(thing);
>>
    The third operand names [thing], which nothing declares: when the
    first two operands hold, its evaluation throws a [ReferenceError]. *)
Definition isObject (it : jsvalue) : completion bool :=
  if String.eqb (typeof it) "object" then
    if negb (is_null it) then Throw ReferenceError
    else Normal false
  else Normal false.

(** [isFunction(it)]:
    [typeof it === "function" || (isObject(it) && it instanceof Function)].
    A value whose [typeof] is not "function" is no instance of
    [Function]. *)
Definition isFunction (it : jsvalue) : completion bool :=
  if String.eqb (typeof it) "function" then Normal true
  else
    o ← isObject it;
    Normal (andb o false).

(** [safeCall(it, thisArg, ...args)]: [isFunction(it) ? it.apply(thisArg,
    args) : it].  What a function does when it is applied is given by
    [apply']. *)
Definition safeCall (apply' : nat → jsvalue → list jsvalue → completion jsvalue)
    (it thisArg : jsvalue) (args : list jsvalue) : completion jsvalue :=
  f ← isFunction it;
  if (f : bool) then
    match it with
    | v_function id => apply' id thisArg args
    | _ => Throw TypeError
    end
  else Normal it.

(* ================================================================== *)
(** * font.js: the names of a font *)
(* ================================================================== *)

Module font_js.

(** The options of the constructor, as far as the names and the checks
    go.  An option that is absent is [None]; a string is a sequence of
    code units below 256. *)
Record FontOptions := mkFontOptions {
  empty : bool;
  familyName : option string;
  styleName : option string;
  fullName : option string;
  postScriptName : option string;
  designer : option string;
  designerURL : option string;
  manufacturer : option string;
  manufacturerURL : option string;
  license : option string;
  licenseURL : option string;
  version : option string;
  description : option string;
  copyright : option string;
  trademark : option string;
  unitsPerEm : option Z;
  ascender : option Z;
  descender : option Z
}.

(** [option || fallback] on an optional string: the empty string is
    falsy as [undefined] is. *)
Definition or_else (o : option string) (fallback : string) : string :=
  match o with
  | Some s => if String.eqb s "" then fallback else s
  | None => fallback
  end.

(** An optional string in a concatenation: [undefined] reads
    "undefined". *)
Definition to_string (o : option string) : string := default "undefined" o.

(** The class [\s] of a pattern, on code units below 256: the tabulation,
    the line feed, the vertical tabulation, the form feed, the carriage
    return, the space and the no-break space. *)
Definition isWhitespace (c : ascii) : bool :=
  let n := nat_of_ascii c in
  ((9 <=? n) && (n <=? 13) || (n =? 32) || (n =? 160))%nat.

(** [s.replace(/\s/g, "")]. *)
Fixpoint removeWhitespace (s : string) : string :=
  match s with
  | EmptyString => EmptyString
  | String c rest =>
      if isWhitespace c then removeWhitespace rest
      else String c (removeWhitespace rest)
  end.

(** [createDefaultNamesInfo(options)]: each name with its English
    entry. *)
Definition createDefaultNamesInfo (options : FontOptions)
    : gmap string (gmap string string) :=
  list_to_map
    [("fontFamily", {[ "en" := or_else (familyName options) " " ]});
     ("fontSubfamily", {[ "en" := or_else (styleName options) " " ]});
     ("fullName",
      {[ "en" := or_else (fullName options)
                   (to_string (familyName options) +:+ " "
                      +:+ to_string (styleName options)) ]});
     ("postScriptName",
      {[ "en" := or_else (postScriptName options)
                   (removeWhitespace (to_string (familyName options)
                                        +:+ to_string (styleName options))) ]});
     ("designer", {[ "en" := or_else (designer options) " " ]});
     ("designerURL", {[ "en" := or_else (designerURL options) " " ]});
     ("manufacturer", {[ "en" := or_else (manufacturer options) " " ]});
     ("manufacturerURL", {[ "en" := or_else (manufacturerURL options) " " ]});
     ("license", {[ "en" := or_else (license options) " " ]});
     ("licenseURL", {[ "en" := or_else (licenseURL options) " " ]});
     ("version", {[ "en" := or_else (version options) "Version 0.1" ]});
     ("description", {[ "en" := or_else (description options) " " ]});
     ("copyright", {[ "en" := or_else (copyright options) " " ]});
     ("trademark", {[ "en" := or_else (trademark options) " " ]})].

(** The property [names] of a font: a table of names for each of the
    platforms it has. *)
Record Names := mkNames {
  unicode : option (gmap string (gmap string string));
  macintosh : option (gmap string (gmap string string));
  windows : option (gmap string (gmap string string))
}.

(** The truth of an optional string and of an optional number. *)
Definition truthy_string (o : option string) : bool :=
  match o with Some s => negb (String.eqb s "") | None => false end.

Definition truthy_number (o : option Z) : bool :=
  match o with Some n => negb (n =? 0) | None => false end.

(** [options.descender <= 0]: a comparison with [undefined] is false. *)
Definition not_positive (o : option Z) : bool :=
  match o with Some n => n <=? 0 | None => false end.

(** The constructor of [Font], from its start to the names: unless the
    font is to be empty it checks that the minimum set of options is
    there and sets [this.names] for the three platforms.  Returns the
    property [names] as the block leaves it, [None] being [undefined];
    the constructor goes on with the glyph set, the encoding and the
    layout objects, of other modules. *)
Definition Font_names (options : FontOptions) : completion (option Names) :=
  if negb (empty options) then
    _ ← checkArgument (truthy_string (familyName options))
          "When creating a new Font object, familyName is required.";
    _ ← checkArgument (truthy_string (styleName options))
          "When creating a new Font object, styleName is required.";
    _ ← checkArgument (truthy_number (unitsPerEm options))
          "When creating a new Font object, unitsPerEm is required.";
    _ ← checkArgument (truthy_number (ascender options))
          "When creating a new Font object, ascender is required.";
    _ ← checkArgument (not_positive (descender options))
          "When creating a new Font object, negative descender value is required.";
    Normal (Some {| unicode := Some (createDefaultNamesInfo options);
                    macintosh := Some (createDefaultNamesInfo options);
                    windows := Some (createDefaultNamesInfo options) |})
  else Normal None.

(** [getEnglishName(name)]:
<<
    const translations =
      (this.names.unicode || this.names.macintosh || this.names.windows)[name];
    if (translations) return translations.en;
>>
    The first platform the font has is the one that is read; a font
    without names, or with none of the three platforms, makes the
    property access throw a [TypeError].  [None] is [undefined]. *)
Definition getEnglishName (names : option Names) (name' : string)
    : completion (option string) :=
  match names with
  | None => Throw TypeError
  | Some names =>
      let platform :=
        match unicode names with
        | Some p => Some p
        | None =>
            match macintosh names with
            | Some p => Some p
            | None => windows names
            end
        end in
      match platform with
      | None => Throw TypeError
      | Some p =>
          match p !! name' with
          | Some translations => Normal (translations !! "en")
          | None => Normal None
          end
      end
  end.

End font_js.

(* ================================================================== *)
(** * encoding: the character encodings and the glyph names *)
(* ================================================================== *)

Module encoding_js.

(** [s.codePointAt(0)] on a string given by its UTF-16 code units: the
    first code unit, or the code point of the surrogate pair the string
    starts with; [None] is the [undefined] of the empty string. *)
Definition codePointAt0 (s : list Z) : option Z :=
  match s with
  | [] => None
  | first :: rest =>
      if (55296 <=? first) && (first <=? 56319) then
        match rest with
        | second :: _ =>
            if (56320 <=? second) && (second <=? 57343)
            then Some ((first - 55296) * 1024 + (second - 56320) + 65536)
            else Some first
        | [] => Some first
        end
      else Some first
  end.

(** An encoding is an object with the method [charToGlyphIndex]; the
    result is a number or [null], which is [None]. *)
Class Encoding (E : Type) := charToGlyphIndex : E → list Z → option Z.

(** [Font.prototype.charToGlyphIndex] and [Font.prototype.hasChar], on
    the encoding of the font:
    [return this.encoding.charToGlyphIndex(c) !== null]. *)
Definition Font_charToGlyphIndex {E} `{Encoding E} (encoding : E) (s : list Z)
    : option Z :=
  charToGlyphIndex encoding s.

Definition hasChar {E} `{Encoding E} (encoding : E) (c : list Z) : bool :=
  match charToGlyphIndex encoding c with
  | Some _ => true
  | None => false
  end.

(** A glyph, as far as the default encoding reads it, and the default
    encoding, on the glyphs of its font ([None]: the font has no glyph
    set). *)
Record Glyph := mkGlyph {
  unicodes : list Z
}.

Record DefaultEncoding := mkDefaultEncoding {
  font_glyphs : option (list Glyph)
}.

(** The inner loop of [DefaultEncoding.charToGlyphIndex]:
    [glyph.unicodes[j] === code] for some [j]; no number is [undefined]. *)
Fixpoint listsCode (unicodes' : list Z) (code : option Z) : bool :=
  match unicodes' with
  | [] => false
  | u :: rest =>
      if match code with Some c => u =? c | None => false end then true
      else listsCode rest code
  end.

(** The outer loop, from the glyph at [i] on. *)
Fixpoint scanGlyphs (glyphs' : list Glyph) (i : nat) (code : option Z) : option Z :=
  match glyphs' with
  | [] => None
  | glyph :: rest =>
      if listsCode (unicodes glyph) code then Some (Z.of_nat i)
      else scanGlyphs rest (S i) code
  end.

#[global] Instance DefaultEncoding_encoding : Encoding DefaultEncoding := λ this c,
  let code := codePointAt0 c in
  match font_glyphs this with
  | Some glyphs' => scanGlyphs glyphs' 0 code
  | None => None
  end.

(** [CmapEncoding]: [return this.cmap.glyphIndexMap[c.codePointAt(0)] || 0]. *)
Record CmapEncoding := mkCmapEncoding {
  glyphIndexMap : gmap Z Z
}.

#[global] Instance CmapEncoding_encoding : Encoding CmapEncoding := λ this c,
  let found := code ← codePointAt0 c; glyphIndexMap this !! code in
  match found with
  | Some glyphIndex => if glyphIndex =? 0 then Some 0 else Some glyphIndex
  | None => Some 0
  end.

(** [CffEncoding]: the name the encoding gives to the code, looked up in
    the character set by [indexOf]. *)
Record CffEncoding := mkCffEncoding {
  encoding : gmap Z string;
  charset : list string
}.

(** [arr.indexOf(x)] on an array of strings: the first position that
    holds [x], or -1; [undefined] is at no position. *)
Definition indexOf (arr : list string) (x : option string) : Z :=
  match x with
  | Some s =>
      match find_index (String.eqb s) arr with
      | Some i => Z.of_nat i
      | None => -1
      end
  | None => -1
  end.

#[global] Instance CffEncoding_encoding : Encoding CffEncoding := λ this s,
  let charName := code ← codePointAt0 s; encoding this !! code in
  Some (indexOf (charset this) charName).

(** ** glyph_names.js *)

(** The `post` table, as far as the glyph names read it.  The version is
    one of the numbers 1, 2, 2.5 and 3 the constructor knows, or any
    other. *)
Inductive PostVersion : Type :=
  | post_1
  | post_2
  | post_2_5
  | post_3
  | post_other.

Record Post := mkPost {
  post_version : PostVersion;
  numberOfGlyphs : nat;
  glyphNameIndex : list Z;
  post_names : list string
}.

(** [arr[i]] for a number [i]: no element at a negative position. *)
Definition at_index {A} (arr : list A) (i : Z) : option A :=
  if i <? 0 then None else arr !! Z.to_nat i.

(** [new GlyphNames(post)]: the array [names], an element being a name
    or [undefined].  [standardNames] is the list of the standard
    Macintosh glyph names, of another module. *)
Definition GlyphNames (standardNames : list string) (post : Post)
    : list (option string) :=
  match post_version post with
  | post_1 => Some <$> standardNames
  | post_2 =>
      (λ i : nat,
         match glyphNameIndex post !! i with
         | Some index =>
             if index <? Z.of_nat (length standardNames)
             then at_index standardNames index
             else at_index (post_names post) (index - Z.of_nat (length standardNames))
         | None => None
         end) <$> seq 0 (numberOfGlyphs post)
  | post_2_5 =>
      (λ i : nat,
         match glyphNameIndex post !! i with
         | Some offset => at_index standardNames (Z.of_nat i + offset)
         | None => None
         end) <$> seq 0 (numberOfGlyphs post)
  | post_3 => []
  | post_other => []
  end.

(** [nameToGlyphIndex(name)]: [this.names.indexOf(name)]. *)
Definition nameToGlyphIndex (names : list (option string)) (name' : string) : Z :=
  match find_index (λ n, match n with
                         | Some s => String.eqb s name'
                         | None => false
                         end) names with
  | Some i => Z.of_nat i
  | None => -1
  end.

(** [glyphIndexToName(gid)]: [this.names[gid]]. *)
Definition glyphIndexToName (names : list (option string)) (gid : Z) : option string :=
  mjoin (at_index names gid).

(** [addGlyphNamesToUnicodeMap(font)]: the loop over the character codes
    of the map of the `cmap` table, on the object [_IndexToUnicodeMap].
    The codes come in the order of [Object.keys], with the glyph index
    each maps to; a glyph index met for the first time gets the list of
    that code, a glyph index met before gets the code pushed. *)
Fixpoint addToUnicodeMap (charCodes : list (Z * Z)) (map : gmap Z (list Z))
    : gmap Z (list Z) :=
  match charCodes with
  | [] => map
  | (c, glyphIndex) :: rest =>
      addToUnicodeMap rest
        match map !! glyphIndex with
        | None => <[glyphIndex := [c]]> map
        | Some unicodes' => <[glyphIndex := unicodes' ++ [c]]> map
        end
  end.

Definition addGlyphNamesToUnicodeMap (glyphIndexMap' : list (Z * Z))
    : gmap Z (list Z) :=
  addToUnicodeMap glyphIndexMap' ∅.

End encoding_js.

(* ================================================================== *)
(** * path.js: class Path *)
(* ================================================================== *)

Module path_js.
Section path.

(** The numbers of the coordinates, with what the methods ask of
    them: the number of an integer literal, [v >= 0], and the notation
    [floatToString] gives to a number for a count of decimal places (the
    notation of [Math.round(v)] when that is [v], [v.toFixed] of the
    decimal places otherwise). *)
Context {number : Type}.
Variable of_Z : Z → number.
Variable nonNegative : number → bool.
Variable floatToString : nat → number → string.

(** A command of a path; a command of a type the class does not know
    keeps its type. *)
Inductive Command : Type :=
  | cmd_M (x y : number)
  | cmd_L (x y : number)
  | cmd_C (x1 y1 x2 y2 x y : number)
  | cmd_Q (x1 y1 x y : number)
  | cmd_Z
  | cmd_other (type' : string).

Record Path := mkPath {
  commands : list Command;
  fill : option string;
  stroke : option string;
  strokeWidth : number
}.

Record BoundingBox := mkBoundingBox {
  x1 : number;
  y1 : number;
  x2 : number;
  y2 : number
}.

(** [new Path()]. *)
Definition new_Path : Path :=
  {| commands := []; fill := Some "black"; stroke := None; strokeWidth := of_Z 1 |}.

(** [this.commands.push(cmd); return this]. *)
Definition push (this : Path) (cmd : Command) : Path :=
  {| commands := commands this ++ [cmd]; fill := fill this; stroke := stroke this;
     strokeWidth := strokeWidth this |}.

Definition moveTo (this : Path) (x y : number) : Path := push this (cmd_M x y).
Definition lineTo (this : Path) (x y : number) : Path := push this (cmd_L x y).
Definition curveTo (this : Path) (x1' y1' x2' y2' x y : number) : Path :=
  push this (cmd_C x1' y1' x2' y2' x y).
Definition quadTo (this : Path) (x1' y1' x y : number) : Path :=
  push this (cmd_Q x1' y1' x y).
Definition closePath (this : Path) : Path := push this cmd_Z.
Definition bezierCurveTo (this : Path) (x1' y1' x2' y2' x y : number) : Path :=
  curveTo this x1' y1' x2' y2' x y.
Definition quadraticCurveTo (this : Path) (x1' y1' x y : number) : Path :=
  quadTo this x1' y1' x y.
Definition close (this : Path) : Path := closePath this.

(** What [extend] is given: another path, a bounding box, or an array of
    commands. *)
Inductive PathOrCommands : Type :=
  | a_path (p : Path)
  | a_box (box : BoundingBox)
  | an_array (cmds : list Command).

(** [extend(pathOrCommands)]: the path as the call leaves it, and what
    the call returns, [this] or, after a bounding box, [undefined]
    ([None]). *)
Definition extend (this : Path) (pathOrCommands : PathOrCommands)
    : Path * option Path :=
  match pathOrCommands with
  | a_path p =>
      let this' := {| commands := commands this ++ commands p; fill := fill this;
                      stroke := stroke this; strokeWidth := strokeWidth this |} in
      (this', Some this')
  | a_box box =>
      (close (lineTo (lineTo (lineTo (moveTo this (x1 box) (y1 box))
                                     (x2 box) (y1 box))
                             (x2 box) (y2 box))
                     (x1 box) (y2 box)),
       None)
  | an_array cmds =>
      let this' := {| commands := commands this ++ cmds; fill := fill this;
                      stroke := stroke this; strokeWidth := strokeWidth this |} in
      (this', Some this')
  end.

(** [packValues(...)] of [toPathData]: a space before a value that is
    not negative, but for the first. *)
Fixpoint packValues_loop (decimalPlaces : nat) (i : nat) (arguments : list number)
    (s : string) : string :=
  match arguments with
  | [] => s
  | v :: rest =>
      let s := if nonNegative v && (0 <? i)%nat then s +:+ " " else s in
      packValues_loop decimalPlaces (S i) rest (s +:+ floatToString decimalPlaces v)
  end.

Definition packValues (decimalPlaces : nat) (arguments : list number) : string :=
  packValues_loop decimalPlaces 0 arguments "".

(** The loop of [toPathData] over the commands, on the string [d]. *)
Fixpoint toPathData_loop (decimalPlaces : nat) (cmds : list Command) (d : string)
    : string :=
  match cmds with
  | [] => d
  | cmd :: rest =>
      toPathData_loop decimalPlaces rest
        match cmd with
        | cmd_M x y => d +:+ ("M" +:+ packValues decimalPlaces [x; y])
        | cmd_L x y => d +:+ ("L" +:+ packValues decimalPlaces [x; y])
        | cmd_C x1' y1' x2' y2' x y =>
            d +:+ ("C" +:+ packValues decimalPlaces [x1'; y1'; x2'; y2'; x; y])
        | cmd_Q x1' y1' x y =>
            d +:+ ("Q" +:+ packValues decimalPlaces [x1'; y1'; x; y])
        | cmd_Z => d +:+ "Z"
        | cmd_other _ => d
        end
  end.

(** [toPathData(decimalPlaces)], two decimal places being the
    default. *)
Definition toPathData (this : Path) (decimalPlaces : option nat) : string :=
  toPathData_loop (default 2%nat decimalPlaces) (commands this) "".

End path.
End path_js.

(* ================================================================== *)
(** * utils/deprecated.js: the deprecation warnings *)
(* ================================================================== *)

Module deprecated_js.

(** The state of the module and of the loggers: the map [HISTORY], from
    a function (known by its identity) to the set of the messages it has
    been warned with, and the warnings given so far, each with the
    logger that was given it and the function it is about. *)
Record State := mkState {
  HISTORY : gmap nat (gset string);
  warned : list (nat * nat * string)
}.

(** What [deprecated(func, message, logger)] returns: the wrapper of the
    function, with the message and the logger it closes over. *)
Record Wrapper := mkWrapper {
  func : nat;
  message : string;
  logger : nat
}.

(** A call of the wrapper:
<<
    if (!HISTORY.has(func)) HISTORY.set(func, new Set());
    const warnings = HISTORY.get(func);
    if (!warnings.has(message)) {
      warnings.add(message);
      logger.warn(message);
    }
    return safeCall(func, this, arguments);
>>
    The function is given one argument, the object [arguments], here the
    array of the arguments of the call.  What it does is [apply']; it
    calls no wrapper. *)
Definition call (apply' : nat → jsvalue → list jsvalue → completion jsvalue)
    (w : Wrapper) (this : jsvalue) (arguments : list jsvalue) (st : State)
    : completion jsvalue * State :=
  let history :=
    match HISTORY st !! func w with
    | Some _ => HISTORY st
    | None => <[func w := ∅]> (HISTORY st)
    end in
  let warnings := default ∅ (history !! func w) in
  let st' :=
    if decide (message w ∈ warnings) then
      {| HISTORY := history; warned := warned st |}
    else
      {| HISTORY := <[func w := {[message w]} ∪ warnings]> history;
         warned := warned st ++ [(logger w, func w, message w)] |} in
  (safeCall apply' (v_function (func w)) this [v_array arguments], st').

(** The module when it is loaded. *)
Definition initial : State := {| HISTORY := ∅; warned := [] |}.

End deprecated_js.

(* ================================================================== *)
(** * The vocabulary of the properties *)
(* ================================================================== *)

(** A glyph list is in order when it holds glyph ids only and is
    strictly ascending: no glyph twice, no glyph before a smaller one. *)
Definition ascending (l : list item) : Prop :=
  (∀ (i : nat) (x : item), l !! i = Some x → ∃ n, x = INum n)
  ∧ ∀ (i j : nat) (x y : Z),
      l !! i = Some (INum x) → l !! j = Some (INum y) → (i < j)%nat → x < y.

(** The convention of the binary search, for a glyph id [v] and a
    result [r]. *)
Definition found_at (arr : list item) (v r : Z) : Prop :=
  0 <= r ∧ arr !! Z.to_nat r = Some (INum v).

Definition insertion_point (arr : list item) (v : Z) (p : nat) : Prop :=
  (p ≤ length arr)%nat
  ∧ (∀ (i : nat) x, (i < p)%nat → arr !! i = Some (INum x) → x < v)
  ∧ (∀ (i : nat) x, (p ≤ i)%nat → arr !! i = Some (INum x) → v < x).

Definition missing_at (arr : list item) (v r : Z) : Prop :=
  ∃ p : nat, r = -1 - Z.of_nat p ∧ insertion_point arr v p.

(** The tree a call works on: the tree of the font, or the default tree
    when the font has none and the call creates. *)
Definition tableOf (f : Font) (create : bool) : option Gsub :=
  match gsub f with
  | Some gs => Some gs
  | None => if create then Some createDefaultTable else None
  end.

(** The subtable at position [si] of the lookup table at [li], with the
    type of that lookup table. *)
Definition subtableIn (gs : Gsub) (li si : nat) : option (Z * Subtable) :=
  lt ← lookups gs !! li;
  sts ← subtables lt;
  st ← sts !! si;
  Some (lookupType lt, st).

Definition subtableAt (f : Font) (li si : nat) : option (Z * Subtable) :=
  gs ← gsub f; subtableIn gs li si.

(** The array that runs parallel to the coverage glyphs in a subtable of
    a lookup table of type [ty]: [substitute] in a format-2 single
    substitution, [sequences] and [alternateSets] in a format-1 multiple
    and alternate substitution, [ligatureSets] in a ligature
    substitution.  A delta single substitution has none. *)
Definition parallelLength (ty : Z) (st : Subtable) : option nat :=
  if ty =? 1 then
    if substFormat st =? 2 then Some (length (substitute st)) else None
  else if ty =? 2 then
    if substFormat st =? 1 then Some (length (sequences st)) else None
  else if ty =? 3 then
    if substFormat st =? 1 then Some (length (alternateSets st)) else None
  else if ty =? 4 then Some (length (ligatureSets st))
  else None.

(** The invariant of a format-1 coverage: the glyph list strictly
    ascending. *)
Definition coverage_ascending (ty : Z) (st : Subtable) : Prop :=
  format (coverage st) = 1 → ascending (glyphs (coverage st)).

(** The invariant of a subtable with a format-1 coverage: the glyph list
    strictly ascending, the parallel array as long as the glyph list. *)
Definition in_order (ty : Z) (st : Subtable) : Prop :=
  format (coverage st) = 1 →
  ascending (glyphs (coverage st))
  ∧ ∀ n, parallelLength ty st = Some n → n = length (glyphs (coverage st)).

(** A method keeps a property [Q] of the subtables position by position:
    whatever way it ends, a subtable of the font it leaves has [Q] when
    the subtable that was at its position before the call, if there was
    one, had it. *)
Definition keeps (Q : Z → Subtable → Prop) (method : M unit) : Prop :=
  ∀ f c f', method f = (c, f') →
  ∀ li si ty st', subtableAt f' li si = Some (ty, st') →
    (∀ st, subtableAt f li si = Some (ty, st) → Q ty st) →
    Q ty st'.

(** The tree with another store of lookup tables. *)
Definition setLookups (gs : Gsub) (lks : list LookupTable) : Gsub :=
  {| version := version gs; scripts := scripts gs; features := features gs;
     lookups := lks |}.

(** What [addSingle], [addMultiple] and [addAlternate] write: the
    subtable [st'] is the subtable [st], of a format-1 coverage, with the
    rule written into it. *)
Definition written (write : Subtable → Z → jsval → Subtable) (rule : Entry)
    (st st' : Subtable) : Prop :=
  format (coverage st) = 1 ∧ ∃ g, sub rule = VNum g ∧ st' = write st g (by_ rule).

(** What [addLigature] writes. *)
Definition writtenLigature (rule : Entry) (st st' : Subtable) : Prop :=
  format (coverage st) = 1 ∧
  ∃ items, sub rule = VArr items ∧
           writeLigature st (firstItem items) (tail items) (by_ rule)
             = Normal (Some st').

(** A call moved the font from [f] to [f'] by a write to one position at
    most: every other position holds what it held; the position itself
    holds what it held, or it holds the subtable that was there (or, when
    there was none, the default subtable [d], pushed there), as it was or
    written by a call that returned. *)
Definition one_write (ty : Z) (d : Subtable) (target : Subtable → Prop)
    (wr : Subtable → Subtable → Prop) (c : completion unit) (f f' : Font) : Prop :=
  ∃ li si,
    (∀ li' si', li' ≠ li ∨ si' ≠ si → subtableAt f' li' si' = subtableAt f li' si') ∧
    (subtableAt f' li si = subtableAt f li si
     ∨ ∃ st0 st',
         (subtableAt f li si = Some (ty, st0) ∧ target st0
          ∨ subtableAt f li si = None ∧ st0 = d) ∧
         subtableAt f' li si = Some (ty, st') ∧
         (st' = st0 ∨ wr st0 st' ∧ c = Normal tt)).

(** A delta single substitution of the font: a subtable of format 1 in a
    lookup table of type 1, at position [si] of the table at [li]. *)
Definition deltaSingle (f : Font) (li si : nat) (st : Subtable) : Prop :=
  subtableAt f li si = Some (1, st) ∧ substFormat st = 1.

(** A method leaves the delta single substitutions alone: the font it
    leaves has exactly those it found, each at its position and with its
    contents. *)
Definition keeps_deltaSingles (method : M unit) : Prop :=
  ∀ f c f', method f = (c, f') →
  ∀ li si st, deltaSingle f' li si st ↔ deltaSingle f li si st.

(** The format-2 subtable [addSingle] pushes and writes the rule
    [g -> b] into. *)
Definition freshSingle (g : Z) (b : jsval) : Subtable :=
  {| substFormat := 2;
     coverage := {| format := 1; glyphs := [INum g]; ranges := [] |};
     deltaGlyphId := 0; substitute := [b]; sequences := [];
     alternateSets := []; ligatureSets := [] |}.

(** The font without a GSUB tree. *)
Definition emptyFont : Font := {| gsub := None |}.

(** The tags the dispatch of [getFeature] knows besides the stylistic
    sets. *)
Definition dispatchedTags : list string :=
  ["aalt"; "salt"; "dlig"; "liga"; "rlig"; "ccmp"; "stch"].

(** A font with one delta single substitution under "ss01": the glyphs 1
    and 2, each moved by 10. *)
Definition deltaSubtable : Subtable :=
  {| substFormat := 1;
     coverage := {| format := 1; glyphs := [INum 1; INum 2]; ranges := [] |};
     deltaGlyphId := 10; substitute := []; sequences := [];
     alternateSets := []; ligatureSets := [] |}.

Definition deltaLookup : LookupTable :=
  {| lookupType := 1; lookupFlag := 0; subtables := Some [deltaSubtable] |}.

Definition deltaGsub : Gsub :=
  {| version := 1;
     scripts :=
       [{| scriptTag := "DFLT";
           script := {| defaultLangSys :=
                          Some {| reserved := 0; reqFeatureIndex := 65535;
                                  featureIndexes := [0%nat] |};
                        langSysRecords := [] |} |}];
     features :=
       [{| featureTag := "ss01";
           feature := {| featureParams := 0; lookupListIndexes := [0%nat] |} |}];
     lookups := [deltaLookup] |}.

Definition deltaFont : Font := {| gsub := Some deltaGsub |}.

(** The ligature subtable of one starting glyph 10 with the ligature
    10 11 -> 50, and the font that holds it under "liga": the font
    [addLigature] makes of a font without a tree. *)
Definition ligatureSubtable : Subtable :=
  {| substFormat := 1;
     coverage := {| format := 1; glyphs := [INum 10]; ranges := [] |};
     deltaGlyphId := 0; substitute := []; sequences := [];
     alternateSets := [];
     ligatureSets := [[{| ligGlyph := VNum 50; components := [INum 11] |}]] |}.

Definition ligatureLookup : LookupTable :=
  {| lookupType := 4; lookupFlag := 0; subtables := Some [ligatureSubtable] |}.

Definition ligatureGsub : Gsub :=
  {| version := 1;
     scripts :=
       [{| scriptTag := "DFLT";
           script := {| defaultLangSys :=
                          Some {| reserved := 0; reqFeatureIndex := 65535;
                                  featureIndexes := [0%nat] |};
                        langSysRecords := [] |} |}];
     features :=
       [{| featureTag := "liga";
           feature := {| featureParams := 0; lookupListIndexes := [0%nat] |} |}];
     lookups := [ligatureLookup] |}.

Definition ligatureFont : Font := {| gsub := Some ligatureGsub |}.

(** The ligature set of a starting glyph in a subtable: the set at the
    position of the glyph in the coverage. *)
Definition ligatureSetOf (st : Subtable) (g : Z) : option (list Ligature) :=
  p ← find_index (item_eqb (INum g)) (glyphs (coverage st));
  ligatureSets st !! p.

(** The font [addSingle] of 5 -> 9 under "ss01" makes of a font without
    a tree. *)
Definition singleFont : Font :=
  (addSingle "ss01" {| sub := VNum 5; by_ := VNum 9 |} None None emptyFont).2.

(** A script record carries a default language system. *)
Definition hasDefaultLangSys (r : ScriptRecord) : Prop :=
  is_Some (defaultLangSys (script r)).

(** The message of the fault of [ScriptList] for a script tag. *)
Definition missingDefaultLangSys (tag : string) : string :=
  "Unable to write GSUB: script " +:+ tag +:+ " has no default language system.".

(** A script list with a script that lacks its default language system. *)
Definition brokenScriptList : list ScriptRecord :=
  [{| scriptTag := "DFLT"; script := newScript |};
   {| scriptTag := "latn";
      script := {| defaultLangSys := None; langSysRecords := [] |} |}].

(** The value the fields seed a property with: the value of the last
    field of that name. *)
Definition seededValue (k : string) (fs : list Field) : option tvalue :=
  value <$> last (filter (λ field, name field = k) fs).

(** The value [options] gives to a key. *)
Fixpoint optionOf (k : string) (options : list (string * tvalue)) : option tvalue :=
  match options with
  | [] => None
  | (k', v) :: options' => if String.eqb k' k then Some v else optionOf k options'
  end.

(** The two loops of the Table engine, on a field and on a field list. *)
Definition encodeField (field : Field) : completion part :=
  if String.eqb (type field) "TABLE"
  then bytes ← encodeTABLE (value field); Normal (Nested bytes)
  else bytes ← encode_scalar (type field) (value field); Normal (Inline bytes).

Fixpoint encodeFields (fs : list Field) : completion (list part) :=
  match fs with
  | [] => Normal []
  | field :: fs' => p ← encodeField field; ps ← encodeFields fs'; Normal (p :: ps)
  end.

Definition sizeOfField (field : Field) : completion nat :=
  if String.eqb (type field) "TABLE"
  then m ← sizeOfTABLE (value field); Normal (2 + m)%nat
  else sizeOf_scalar (type field) (value field).

Fixpoint sizeOfFields (fs : list Field) : completion nat :=
  match fs with
  | [] => Normal 0%nat
  | field :: fs' => n ← sizeOfField field; rest ← sizeOfFields fs'; Normal (n + rest)%nat
  end.

(** The bytes a part takes in the encoding of its table. *)
Definition partSize (p : part) : nat :=
  match p with
  | Inline b => length b
  | Nested b => (2 + length b)%nat
  end.

(** The table [new ScriptList] builds of the scripts of the default GSUB
    tree. *)
Definition defaultScriptList : Table :=
  match ScriptList (scripts createDefaultTable) with
  | Normal t => t
  | _ => blank
  end.

(** A tree is well formed, as far as the resolution goes, when every
    lookup index of a feature refers to a lookup table of the tree. *)
Definition wf_lookupIndexes (gs : Gsub) : Prop :=
  Forall (λ fr, Forall (λ li, (li < length (lookups gs))%nat)
                       (lookupListIndexes (feature fr)))
         (features gs).

(** A font has no single substitution under a feature yet when the
    feature resolves to no lookup table of type 1, for the script and the
    language: the font has no tree, or its tree is well formed and the
    resolution finds no table. *)
Definition noSingleYet (f : Font) (script language : option string) (tag : string)
    : Prop :=
  ∀ gs, gsub f = Some gs →
    wf_lookupIndexes gs ∧ findLookupTables gs script language tag 1 = [].

(** The name of the script depends on the tags of the scripts only. *)
Definition scriptNameOf (script : option string) (tags : list string) : string :=
  match script with
  | Some name' => name'
  | None =>
      match find_index (λ t, String.eqb t "DFLT") tags with
      | Some _ => "DFLT"
      | None => match tags with t :: _ => t | [] => "DFLT" end
      end
  end.

(** The projection as the spec words it, to compare [getSingle] with: the
    glyph at each position of the expanded coverage paired with the
    entry at that position of the parallel array. *)
Definition pairedByPosition (glyphs' : list item) (parallel : list jsval) : list Entry :=
  zip_with (λ g v, {| sub := item_value g; by_ := v |}) glyphs' parallel.

(* ================================================================== *)
(** * More vocabulary: the subtables as finite maps *)
(* ================================================================== *)

(** A coverage and its parallel array pair the glyph [g] with the entry
    [x]: some position holds [g] in the glyph list and [x] in the
    array. *)
Definition pairs {A} (gl : list item) (parallel : list A) (g : Z) (x : A) : Prop :=
  ∃ i : nat, gl !! i = Some (INum g) ∧ parallel !! i = Some x.

(** A font has nothing of a lookup type under a feature yet: it has no
    tree, or its tree is well formed and the resolution finds no lookup
    table of the type. *)
Definition noLookupYet (ty : Z) (f : Font) (script language : option string)
    (tag : string) : Prop :=
  ∀ gs, gsub f = Some gs →
    wf_lookupIndexes gs ∧ findLookupTables gs script language tag ty = [].

(** A font whose single substitution under "ss01" has a coverage of
    format 2, the range of the glyphs 1 to 3. *)
Definition rangeSubtable : Subtable :=
  {| substFormat := 2;
     coverage := {| format := 2; glyphs := [];
                    ranges := [{| range_start := 1; range_end := 3;
                                  range_index := 0 |}] |};
     deltaGlyphId := 0; substitute := [VNum 11; VNum 12; VNum 13];
     sequences := []; alternateSets := []; ligatureSets := [] |}.

Definition rangeLookup : LookupTable :=
  {| lookupType := 1; lookupFlag := 0; subtables := Some [rangeSubtable] |}.

Definition rangeGsub : Gsub :=
  {| version := 1;
     scripts :=
       [{| scriptTag := "DFLT";
           script := {| defaultLangSys :=
                          Some {| reserved := 0; reqFeatureIndex := 65535;
                                  featureIndexes := [0%nat] |};
                        langSysRecords := [] |} |}];
     features :=
       [{| featureTag := "ss01";
           feature := {| featureParams := 0; lookupListIndexes := [0%nat] |} |}];
     lookups := [rangeLookup] |}.

Definition rangeFont : Font := {| gsub := Some rangeGsub |}.

(** The message of the fault of an [add*] method on a coverage it cannot
    modify. *)
Definition unableToModify (name' : string) (fmt : Z) : string :=
  name' +:+ ": unable to modify coverage table format " +:+ pretty fmt.

(* ================================================================== *)
(** * More vocabulary: the tables the builder classes make *)
(* ================================================================== *)

(** Every field of a table reads back under its own name: the property
    of the instance that carries the name of a field holds the value of
    that field (no field is shadowed by a later field of the same name,
    by [tableName] or by [fields]). *)
Definition readsBack (t : Table) : Prop :=
  ∃ fs, fields t = TFields fs ∧ ∀ fld, fld ∈ fs → get t (name fld) = value fld.

(** The field lists of the builder classes are tabular: some head
    fields, then for each record of a list one field per column, named
    by the prefix of the column and the position of the record. *)
Definition column (A : Type) : Type := string * string * (A → tvalue).

Definition cell {A} (c : column A) (r : A) (i : nat) : Field :=
  {| name := c.1.1 +:+ pretty i; type := c.1.2; value := c.2 r |}.

Definition rows_from {A} (cols : list (column A)) (i0 : nat) (recs : list A)
    : list Field :=
  concat (imap (λ i r, (λ c, cell c r (i0 + i)) <$> cols) recs).

Definition rows {A} (cols : list (column A)) (recs : list A) : list Field :=
  rows_from cols 0 recs.

(** The columns of the tables. *)
Definition ushortColumn (itemName : string) : column Z := (itemName, "USHORT", TNum).

Definition coverageRangeColumns : list (column RangeRecord) :=
  [("startGlyphID", "USHORT", λ r, TNum (range_start r));
   ("endGlyphID", "USHORT", λ r, TNum (range_end r));
   ("startCoverageIndex", "USHORT", λ r, TNum (range_index r))].

Definition classRangeColumns : list (column ClassRangeRecord) :=
  [("startGlyphID", "USHORT", λ r, TNum (class_start r));
   ("endGlyphID", "USHORT", λ r, TNum (class_end r));
   ("class", "USHORT", λ r, TNum (classId r))].

Definition featureColumns : list (column FeatureRecord) :=
  [("featureTag", "TAG", λ r, TStr (featureTag r));
   ("feature", "TABLE",
    λ r, TTable (new_Table "featureTable" (featureFields (feature r)) None))].

(** The message of the fault of [LookupList] for a lookup type. *)
Definition unableToWrite (ty : Z) : string :=
  "Unable to write GSUB lookup type " +:+ pretty ty +:+ " tables.".

(** A lookup table [LookupList] can write: its type has a maker, it has
    its list of subtables, and the maker returns a table for each. *)
Definition writable (subtableMakers : gmap Z (Subtable → nat → completion Table))
    (lt : LookupTable) : Prop :=
  ∃ maker sts, subtableMakers !! lookupType lt = Some maker
    ∧ subtables lt = Some sts
    ∧ ∀ st i, st ∈ sts → ∃ t, maker st i = Normal t.

(** A maker of subtable tables, for the witnesses: the table of the
    format of the subtable. *)
Definition formatMaker : Subtable → nat → completion Table :=
  λ st _, Normal (new_Table "subtable" [ushortField "substFormat" (substFormat st)] None).

(** A coverage of the format 2 and a class definition of the format 2,
    for the witnesses. *)
Definition rangeCoverage : CoverageTable :=
  {| format := 2; glyphs := [];
     ranges := [{| range_start := 1; range_end := 3; range_index := 0 |};
                {| range_start := 7; range_end := 8; range_index := 3 |}] |}.

Definition rangeClassDef : ClassDefTable :=
  {| classFormat := 2; startGlyph := 0; classes := [];
     classRanges := [{| class_start := 1; class_end := 3; classId := 1 |};
                     {| class_start := 7; class_end := 8; classId := 2 |}] |}.

(** The columns of the tables of [ScriptList]: the language systems of a
    script, and the scripts. *)
Definition langSysColumns : list (column LangSysRecord) :=
  [("langSysTag", "TAG", λ r, TStr (langSysTag r));
   ("langSys", "TABLE",
    λ r, TTable (new_Table "langSys" (langSysFields (langSys r)) None))].

Definition scriptTableOf (s : Script) (d : LangSys) : Table :=
  new_Table "scriptTable"
    ([{| name := "defaultLangSys"; type := "TABLE";
         value := TTable (new_Table "defaultLangSys" (langSysFields d) None) |};
      ushortField "langSysCount" (Z.of_nat (length (langSysRecords s)))]
       ++ rows langSysColumns (langSysRecords s)) None.

Definition scriptColumns : list (column ScriptRecord) :=
  [("scriptTag", "TAG", λ r, TStr (scriptTag r));
   ("script", "TABLE",
    λ r, match defaultLangSys (script r) with
         | Some d => TTable (scriptTableOf (script r) d)
         | None => TUndef
         end)].

(* ================================================================== *)
(** * More vocabulary: the string pool of the `meta` table *)
(* ================================================================== *)

(** The texts of the tags, one after the other. *)
Definition poolOf (tags : list (string * string)) : string :=
  foldr (λ entry pool, entry.2 +:+ pool) "" tags.

(* ================================================================== *)
(** * More vocabulary: the names of a font *)
(* ================================================================== *)

(** The default names with their English entries, as a list. *)
Definition defaultNames (options : font_js.FontOptions) : list (string * string) :=
  [("fontFamily", font_js.or_else (font_js.familyName options) " ");
   ("fontSubfamily", font_js.or_else (font_js.styleName options) " ");
   ("fullName",
    font_js.or_else (font_js.fullName options)
      (font_js.to_string (font_js.familyName options) +:+ " "
         +:+ font_js.to_string (font_js.styleName options)));
   ("postScriptName",
    font_js.or_else (font_js.postScriptName options)
      (font_js.removeWhitespace
         (font_js.to_string (font_js.familyName options)
            +:+ font_js.to_string (font_js.styleName options))));
   ("designer", font_js.or_else (font_js.designer options) " ");
   ("designerURL", font_js.or_else (font_js.designerURL options) " ");
   ("manufacturer", font_js.or_else (font_js.manufacturer options) " ");
   ("manufacturerURL", font_js.or_else (font_js.manufacturerURL options) " ");
   ("license", font_js.or_else (font_js.license options) " ");
   ("licenseURL", font_js.or_else (font_js.licenseURL options) " ");
   ("version", font_js.or_else (font_js.version options) "Version 0.1");
   ("description", font_js.or_else (font_js.description options) " ");
   ("copyright", font_js.or_else (font_js.copyright options) " ");
   ("trademark", font_js.or_else (font_js.trademark options) " ")].

(** The keys of the default names. *)
Definition defaultNameKeys : list string :=
  ["fontFamily"; "fontSubfamily"; "fullName"; "postScriptName"; "designer";
   "designerURL"; "manufacturer"; "manufacturerURL"; "license"; "licenseURL";
   "version"; "description"; "copyright"; "trademark"].

(** Options with the minimum set the constructor asks for, the names
    being the given family and style. *)
Definition minimalOptions (family style : string) : font_js.FontOptions :=
  {| font_js.empty := false;
     font_js.familyName := Some family; font_js.styleName := Some style;
     font_js.fullName := None; font_js.postScriptName := None;
     font_js.designer := None; font_js.designerURL := None;
     font_js.manufacturer := None; font_js.manufacturerURL := None;
     font_js.license := None; font_js.licenseURL := None;
     font_js.version := None; font_js.description := None;
     font_js.copyright := None; font_js.trademark := None;
     font_js.unitsPerEm := Some 1000; font_js.ascender := Some 800;
     font_js.descender := Some (-200) |}.

(** A string holds no whitespace. *)
Fixpoint noWhitespace (s : string) : Prop :=
  match s with
  | EmptyString => True
  | String c rest => font_js.isWhitespace c = false ∧ noWhitespace rest
  end.

(** ** Vocabulary for the deprecation warnings *)

(** A run of calls of wrappers, one after the other, each with its
    [this] and its arguments: the state it leaves. *)
Fixpoint calls (apply' : nat → jsvalue → list jsvalue → completion jsvalue)
    (cs : list (deprecated_js.Wrapper * (jsvalue * list jsvalue)))
    (st : deprecated_js.State) : deprecated_js.State :=
  match cs with
  | [] => st
  | (w, (this, arguments)) :: rest =>
      calls apply' rest (deprecated_js.call apply' w this arguments st).2
  end.

(** What a warning is about: the function and the message. *)
Definition subject (warning : nat * nat * string) : nat * string :=
  (warning.1.2, warning.2).

Definition subjectOf (w : deprecated_js.Wrapper) : nat * string :=
  (deprecated_js.func w, deprecated_js.message w).

(** ** Vocabulary for the map from glyph indexes to code points *)

(** The codes a list of pairs of a code and a glyph index maps to the
    glyph index, in the order of the list. *)
Definition codesOf (glyphIndexMap' : list (Z * Z)) (glyphIndex : Z) : list Z :=
  (filter (λ p : Z * Z, p.2 = glyphIndex) glyphIndexMap').*1.

(** The history holds the subjects of the warnings given. *)
Definition historyOfWarnings (st : deprecated_js.State) : Prop :=
  ∀ f m, (f, m) ∈ subject <$> deprecated_js.warned st
         ↔ ∃ S, deprecated_js.HISTORY st !! f = Some S ∧ m ∈ S.

(* ================================================================== *)
(** * Properties of the array helpers and of the binary search *)
(* ================================================================== *)


Lemma ascending_nil : ascending [].
Proof. split; [intros i x Hi|intros i j x y Hi]; by rewrite lookup_nil in Hi. Qed.

Lemma ascending_singleton (x : Z) : ascending [INum x].
Proof.
  split.
  - intros [|i] y Hi; simpl in Hi; [|by rewrite lookup_nil in Hi].
    injection Hi as <-. by exists x.
  - intros i j a b Hi Hj Hij.
    apply lookup_lt_Some in Hi, Hj. simpl in *. lia.
Qed.

Lemma ascending_le (l : list item) (i j : nat) (x y : Z) :
  ascending l → l !! i = Some (INum x) → l !! j = Some (INum y) → (i ≤ j)%nat → x <= y.
Proof.
  intros [_ Hl] Hi Hj Hij.
  destruct (decide (i = j)) as [->|Hne].
  - rewrite Hi in Hj. injection Hj as ->. lia.
  - assert (x < y) by (eapply Hl; eauto; lia). lia.
Qed.

Lemma binSearch_loop_spec (fuel : nat) (arr : list item) (v imin imax : Z) :
  ascending arr →
  0 <= imin → imax < Z.of_nat (length arr) → imin <= imax + 1 →
  imax - imin + 1 <= Z.of_nat fuel →
  (∀ (i : nat) x, Z.of_nat i < imin → arr !! i = Some (INum x) → x < v) →
  (∀ (i : nat) x, imax < Z.of_nat i → arr !! i = Some (INum x) → v < x) →
  found_at arr v (binSearch_loop fuel arr (INum v) imin imax)
  ∨ missing_at arr v (binSearch_loop fuel arr (INum v) imin imax).
Proof.
  intros Hasc. revert imin imax.
  assert (Hstop : ∀ imin imax : Z,
    0 <= imin → imax < Z.of_nat (length arr) → imin = imax + 1 →
    (∀ (i : nat) x, Z.of_nat i < imin → arr !! i = Some (INum x) → x < v) →
    (∀ (i : nat) x, imax < Z.of_nat i → arr !! i = Some (INum x) → v < x) →
    missing_at arr v (-1 - imin)).
  { intros imin imax H0 Hmax Hlt Hlo Hhi.
    exists (Z.to_nat imin). split; [lia|].
    split; [lia|]. split.
    - intros i x Hi. apply Hlo. lia.
    - intros i x Hi. apply Hhi. lia. }
  induction fuel as [|fuel IH]; intros imin imax H0 Hmax Hinv Hfuel Hlo Hhi; simpl.
  - right. apply (Hstop imin imax); auto. lia.
  - destruct (Z.leb_spec imin imax) as [Hle|Hgt];
      [|right; apply (Hstop imin imax); auto; lia].
    set (imid := (imin + imax) / 2).
    assert (Hmid : imin <= imid <= imax).
    { unfold imid. split.
      - apply Z.div_le_lower_bound; lia.
      - apply Z.div_le_upper_bound; lia. }
    destruct (arr !! Z.to_nat imid) as [x|] eqn:Hx.
    2:{ apply lookup_ge_None in Hx. lia. }
    destruct (proj1 Hasc _ _ Hx) as [n ->]. simpl.
    destruct (Z.eqb_spec n v) as [->|Hne].
    { left. split; [lia|done]. }
    destruct (Z.ltb_spec n v) as [Hxv|Hxv].
    + apply IH; try lia.
      * intros i y Hi Hy.
        assert (y <= n); [|lia].
        eapply (ascending_le arr i (Z.to_nat imid)); eauto. lia.
      * done.
    + apply IH; try lia.
      * done.
      * intros i y Hi Hy.
        assert (n <= y); [|lia].
        eapply (ascending_le arr (Z.to_nat imid) i); eauto. lia.
Qed.

(** The binary search meets its convention on an ascending array. *)
Lemma binSearch_spec (arr : list item) (v : Z) :
  ascending arr →
  found_at arr v (binSearch arr (INum v)) ∨ missing_at arr v (binSearch arr (INum v)).
Proof.
  intros Hasc. unfold binSearch. apply binSearch_loop_spec.
  - done.
  - lia.
  - lia.
  - lia.
  - lia.
  - intros i x Hi. lia.
  - intros i x Hi Hx. apply lookup_lt_Some in Hx. lia.
Qed.

Lemma found_at_nonneg arr v r : found_at arr v r → (r <? 0) = false.
Proof. intros [H _]. apply Z.ltb_ge. lia. Qed.

Lemma missing_at_neg arr v r : missing_at arr v r → (r <? 0) = true.
Proof. intros (p & -> & _). apply Z.ltb_lt. lia. Qed.

Lemma length_splice_insert {A} (pos : nat) (x : A) (arr : list A) :
  length (splice_insert pos x arr) = S (length arr).
Proof.
  unfold splice_insert. rewrite length_app, length_take. simpl.
  rewrite length_drop. lia.
Qed.

Lemma lookup_splice_insert {A} (pos : nat) (x : A) (arr : list A) (i : nat) :
  (pos ≤ length arr)%nat →
  splice_insert pos x arr !! i =
    if decide (i < pos)%nat then arr !! i
    else if decide (i = pos) then Some x else arr !! (i - 1)%nat.
Proof.
  intros Hpos. unfold splice_insert.
  destruct (decide (i < pos)%nat) as [Hlt|Hge].
  - rewrite lookup_app_l by (rewrite length_take; lia).
    by rewrite lookup_take_lt.
  - rewrite lookup_app_r by (rewrite length_take; lia).
    rewrite length_take, Nat.min_l by lia.
    destruct (decide (i = pos)) as [->|Hne].
    + by rewrite Nat.sub_diag.
    + destruct (i - pos)%nat as [|k] eqn:Hk; [lia|]. simpl.
      rewrite lookup_drop. f_equal. lia.
Qed.

(** Inserting a glyph at its insertion point keeps the list ascending. *)
Lemma ascending_splice_insert (arr : list item) (v : Z) (p : nat) :
  ascending arr → insertion_point arr v p → ascending (splice_insert p (INum v) arr).
Proof.
  intros [Hids Hasc] (Hp & Hlo & Hhi). split.
  - intros i x Hi. rewrite lookup_splice_insert in Hi by done.
    repeat case_decide; simplify_eq; eauto.
  - intros i j x y Hi Hj Hij.
    rewrite lookup_splice_insert in Hi, Hj by done.
    repeat case_decide; simplify_eq; try lia.
    + eapply Hasc; eauto.
    + eapply Hlo; eauto.
    + assert (x < v) by (eapply Hlo; eauto).
      assert (v < y) by (eapply Hhi; [|eauto]; lia). lia.
    + eapply Hhi; [|eauto]. lia.
    + eapply Hasc; eauto. lia.
Qed.

Lemma length_array_set (pos : nat) (v : jsval) (arr : list jsval) :
  (pos < length arr)%nat → length (array_set pos v arr) = length arr.
Proof.
  intros H. unfold array_set. rewrite decide_True by done. apply length_insert.
Qed.

Lemma find_index_Some {A} (p : A → bool) (l : list A) (i : nat) :
  find_index p l = Some i →
  ∃ x, l !! i = Some x ∧ p x = true ∧ ∀ j y, (j < i)%nat → l !! j = Some y → p y = false.
Proof.
  revert i. induction l as [|a l IH]; intros i; simpl; [done|].
  destruct (p a) eqn:Hpa.
  - intros [= <-]. exists a. split_and!; [done|done|]. intros j y Hj. lia.
  - destruct (find_index p l) as [k|] eqn:Hk; [|done].
    intros [= <-]. destruct (IH k eq_refl) as (x & Hx & Hpx & Hbefore).
    exists x. split_and!; [done|done|].
    intros [|j] y Hj Hy; simpl in Hy; [by simplify_eq|].
    eapply Hbefore; [|done]. lia.
Qed.

Lemma find_index_None {A} (p : A → bool) (l : list A) :
  find_index p l = None ↔ ∀ x, x ∈ l → p x = false.
Proof.
  induction l as [|a l IH]; simpl.
  - split; [|done]. intros _ x Hx. by apply elem_of_nil in Hx.
  - destruct (p a) eqn:Hpa.
    + split; [done|]. intros H. rewrite H in Hpa; [done|]. by left.
    + destruct (find_index p l) as [k|] eqn:Hk; simpl.
      * split; [done|]. intros H. assert (Some k = None) as Habs; [|done].
        apply IH. intros x Hx. apply H. by right.
      * split; [|done]. intros _ x [->|Hx]%elem_of_cons; [done|].
        destruct IH as [IH _]. by apply IH.
Qed.

(* ================================================================== *)
(** * Properties of the resolution of lookup tables *)
(* ================================================================== *)

Lemma M_bind_Normal {A B} (m : M A) (k : A → M B) (f f' : Font) (a : A) :
  m f = (Normal a, f') → (m ≫= k) f = k a f'.
Proof. intros H. unfold mbind, M_bind. by rewrite H. Qed.

Lemma M_bind_Throw {A B} (m : M A) (k : A → M B) (f f' : Font) (msg : string) :
  m f = (Throw msg, f') → (m ≫= k) f = (Throw msg, f').
Proof. intros H. unfold mbind, M_bind. by rewrite H. Qed.


Lemma hasLookupType_Some lks ty li :
  hasLookupType lks ty li = true ↔ ∃ lt, lks !! li = Some lt ∧ lookupType lt = ty.
Proof.
  unfold hasLookupType. destruct (lks !! li) as [lt|].
  - rewrite Z.eqb_eq. split.
    + intros H. by exists lt.
    + by intros (lt' & [= <-] & H).
  - split; [done|]. by intros (lt' & H & _).
Qed.

Lemma lookupRefs_cons gs li lis lt :
  lookups gs !! li = Some lt → lookupRefs gs (li :: lis) = (li, lt) :: lookupRefs gs lis.
Proof. intros H. unfold lookupRefs. simpl. by rewrite H. Qed.

Lemma lookupRefs_elem gs lis li lt :
  (li, lt) ∈ lookupRefs gs lis → li ∈ lis ∧ lookups gs !! li = Some lt.
Proof.
  unfold lookupRefs. rewrite list_elem_of_omap. intros (x & Hx & Hlt).
  destruct (lookups gs !! x) as [lt'|] eqn:E; simplify_eq/=. done.
Qed.

Lemma findLookupTables_elem gs script language tag ty li :
  li ∈ findLookupTables gs script language tag ty →
  ∃ lt, lookups gs !! li = Some lt ∧ lookupType lt = ty.
Proof.
  unfold findLookupTables. intros H.
  repeat case_match; try by apply elem_of_nil in H.
  apply list_elem_of_filter in H as [H _]. by apply hasLookupType_Some.
Qed.

(** The resolution never throws; without [create] it leaves the font as
    it is. *)
Lemma getLookupTables_read script language tag ty f :
  ∃ refs, getLookupTables script language tag ty false f = (Normal refs, f)
          ∧ ∀ li lt, (li, lt) ∈ refs →
              ∃ gs, gsub f = Some gs ∧ lookups gs !! li = Some lt ∧ lookupType lt = ty.
Proof.
  unfold getLookupTables. destruct (gsub f) as [gs|] eqn:Hgs.
  - destruct (findLookupTables gs script language tag ty) as [|li lis] eqn:Hfind.
    + exists []. split; [done|]. intros li lt H. by apply elem_of_nil in H.
    + eexists. split; [done|]. intros li' lt' H.
      apply lookupRefs_elem in H as [Hin Hlt]. exists gs. split_and!; [done|done|].
      rewrite <- Hfind in Hin. apply findLookupTables_elem in Hin as (lt2 & H2 & Hty).
      by simplify_eq.
  - exists []. split; [done|]. intros li lt H. by apply elem_of_nil in H.
Qed.

(** With a match the font is left as it is, with or without [create]. *)
Lemma getLookupTables_existing script language tag ty create f gs li lis lt :
  gsub f = Some gs →
  findLookupTables gs script language tag ty = li :: lis →
  lookups gs !! li = Some lt →
  getLookupTables script language tag ty create f
    = (Normal ((li, lt) :: lookupRefs gs lis), f).
Proof.
  intros Hgs Hfind Hlt. unfold getLookupTables. rewrite Hgs, Hfind.
  by rewrite (lookupRefs_cons _ _ _ _ Hlt).
Qed.

(** With [create] the call returns at least one lookup table of the
    type, a reference into the store of the font it leaves; the store is
    the one it found or that one with a fresh table at its end. *)
Lemma getLookupTables_create script language tag ty f :
  ∃ gs0 gs1 li lt rest,
    tableOf f true = Some gs0 ∧
    getLookupTables script language tag ty true f
      = (Normal ((li, lt) :: rest), {| gsub := Some gs1 |}) ∧
    lookups gs1 !! li = Some lt ∧ lookupType lt = ty ∧
    ((gsub f = Some gs0 ∧ gs1 = gs0 ∧
      findLookupTables gs0 script language tag ty = li :: (fst <$> rest))
     ∨ (findLookupTables gs0 script language tag ty = [] ∧
        (gs1, li) = wireLookupTable gs0 script language tag ty ∧
        lookups gs1 = lookups gs0 ++ [newLookupTable ty] ∧
        li = length (lookups gs0) ∧ lt = newLookupTable ty ∧ rest = [])).
Proof.
  unfold getLookupTables, tableOf.
  set (gs0 := match gsub f with Some gs => gs | None => createDefaultTable end).
  assert (Ht : match gsub f with
               | Some gs => Some gs
               | None => Some createDefaultTable
               end = Some gs0) by (unfold gs0; by destruct (gsub f)).
  rewrite Ht.
  destruct (findLookupTables gs0 script language tag ty) as [|li lis] eqn:Hfind.
  - destruct (wireLookupTable gs0 script language tag ty) as [gs1 li] eqn:Hw.
    exists gs0, gs1, li, (newLookupTable ty), []. split; [done|]. split; [done|].
    assert (Hl : lookups gs1 = lookups gs0 ++ [newLookupTable ty]
                 ∧ li = length (lookups gs0)).
    { unfold wireLookupTable in Hw. repeat case_match; by simplify_eq/=. }
    destruct Hl as [Hl ->]. split_and!.
    + rewrite Hl. by apply list_lookup_middle.
    + done.
    + right. by split_and!.
  - assert (Hin : li ∈ findLookupTables gs0 script language tag ty)
      by (rewrite Hfind; by left).
    apply findLookupTables_elem in Hin as (lt & Hlt & Hty).
    assert (Hf : gsub f = Some gs0).
    { unfold gs0 in *. destruct (gsub f) as [gs|] eqn:E; [done|].
      by vm_compute in Hfind. }
    clearbody gs0.
    exists gs0, gs0, li, lt, (lookupRefs gs0 lis).
    split; [done|]. rewrite (lookupRefs_cons _ _ _ _ Hlt).
    split; [by destruct f; simplify_eq/=|]. split_and!; [done|done|].
    left. split_and!; [done|done|].
    assert (Hall : ∀ x, x ∈ lis → is_Some (lookups gs0 !! x)).
    { intros x Hx. assert (x ∈ findLookupTables gs0 script language tag ty) as Hx'
        by (rewrite Hfind; by right).
      apply findLookupTables_elem in Hx' as (? & ? & ?). eauto. }
    rewrite Hfind. f_equal.
    clear Hfind. unfold lookupRefs. induction lis as [|x lis IH]; [done|]. simpl.
    destruct (Hall x) as [ltx Hx]; [by left|]. rewrite Hx. simpl. f_equal.
    apply IH. intros y Hy. apply Hall. by right.
Qed.

(* ================================================================== *)
(** * The writes keep the coverage in order *)
(* ================================================================== *)

Lemma insertOrOverwrite_in_order (gl : list item) (arr : list jsval) (g : Z) (by' : jsval) :
  ascending gl → length arr = length gl →
  ascending (insertOrOverwrite gl arr g by').1
  ∧ length (insertOrOverwrite gl arr g by').2 = length (insertOrOverwrite gl arr g by').1.
Proof.
  intros Hasc Hlen. unfold insertOrOverwrite.
  destruct (binSearch_spec gl g Hasc) as [Hf|Hm].
  - rewrite (found_at_nonneg _ _ _ Hf). simpl. split; [done|].
    destruct Hf as [Hr Hg]. apply lookup_lt_Some in Hg.
    rewrite length_array_set; [done|lia].
  - rewrite (missing_at_neg _ _ _ Hm). simpl.
    destruct Hm as (p & -> & Hp).
    replace (Z.to_nat (-1 - (-1 - Z.of_nat p))) with p by lia.
    split; [by apply ascending_splice_insert|].
    destruct Hp as (Hp & _).
    rewrite length_array_set; rewrite !length_splice_insert; lia.
Qed.

Lemma insertOrOverwrite_ascending (gl : list item) (arr : list jsval) (g : Z) (by' : jsval) :
  ascending gl → ascending (insertOrOverwrite gl arr g by').1.
Proof.
  intros Hasc. unfold insertOrOverwrite.
  destruct (binSearch_spec gl g Hasc) as [Hf|Hm].
  - by rewrite (found_at_nonneg _ _ _ Hf).
  - rewrite (missing_at_neg _ _ _ Hm). simpl.
    destruct Hm as (p & -> & Hp).
    replace (Z.to_nat (-1 - (-1 - Z.of_nat p))) with p by lia.
    by apply ascending_splice_insert.
Qed.

Lemma written_ascending write (arr : Subtable → list jsval) ty rule st st' :
  (∀ st g b, format (coverage (write st g b)) = format (coverage st)
             ∧ glyphs (coverage (write st g b))
               = (insertOrOverwrite (glyphs (coverage st)) (arr st) g b).1) →
  coverage_ascending ty st → written write rule st st' → coverage_ascending ty st'.
Proof.
  intros Hwrite Hst (Hfmt & g & _ & ->) _.
  destruct (Hwrite st g (by_ rule)) as [_ ->].
  apply insertOrOverwrite_ascending. by apply Hst.
Qed.

Lemma writeLigature_ascending ty rule g comps st st' :
  sub rule = VArr (INum g :: comps) →
  coverage_ascending ty st → writtenLigature rule st st' → coverage_ascending ty st'.
Proof.
  intros Hsub Hst (Hfmt & items & Hitems & Hw) _. specialize (Hst Hfmt).
  rewrite Hsub in Hitems. injection Hitems as <-.
  unfold firstItem in Hw. simpl in Hw. unfold writeLigature in Hw.
  destruct (0 <=? binSearch (glyphs (coverage st)) (INum g)) eqn:Hpos.
  - destruct (ligatureSets st !! _) as [set|]; [|done].
    destruct (ligatureExists set comps) as [[|]| |]; by simplify_eq/=.
  - simplify_eq/=.
    destruct (binSearch_spec _ g Hst) as [[Hf _]|(p & Hr & Hp)]; [lia|].
    rewrite Hr. replace (Z.to_nat (-1 - (-1 - Z.of_nat p))) with p by lia.
    by apply ascending_splice_insert.
Qed.

Lemma coverage_ascending_default ty :
  coverage_ascending ty defaultSingle ∧ coverage_ascending ty defaultFormat1.
Proof. split; intros _; apply ascending_nil. Qed.

Lemma in_order_default ty : in_order ty defaultSingle ∧ in_order ty defaultFormat1.
Proof.
  split; intros _; (split; [apply ascending_nil|]);
    intros n; unfold parallelLength; simpl;
    repeat case_match; by intros [= <-].
Qed.

(** The three writes of [insertOrOverwrite] keep their subtable in order:
    the proof is the same but for the parallel array [arr]. *)
Ltac write_in_order Hfmt Hst arr g b :=
  unfold in_order, parallelLength in *;
  destruct (insertOrOverwrite _ arr _ _) as [gl arr'] eqn:E;
  simpl; rewrite Hfmt in *; simpl in *; intros Hc;
  destruct (Hst Hc) as [Hasc Hlen];
  pose proof (insertOrOverwrite_in_order _ arr g b Hasc (Hlen _ eq_refl)) as [H1 H2];
  rewrite E in H1, H2; simpl in *; split; [done|]; by intros n [= <-].

Lemma writeSingle_in_order st g by' :
  substFormat st = 2 → in_order 1 st → in_order 1 (writeSingle st g by').
Proof. intros Hfmt Hst. unfold writeSingle. write_in_order Hfmt Hst (substitute st) g by'. Qed.

Lemma writeMultiple_in_order st g by' :
  substFormat st = 1 → in_order 2 st → in_order 2 (writeMultiple st g by').
Proof. intros Hfmt Hst. unfold writeMultiple. write_in_order Hfmt Hst (sequences st) g by'. Qed.

Lemma writeAlternate_in_order st g by' :
  substFormat st = 1 → in_order 3 st → in_order 3 (writeAlternate st g by').
Proof. intros Hfmt Hst. unfold writeAlternate. write_in_order Hfmt Hst (alternateSets st) g by'. Qed.

Lemma writeLigature_in_order st g comps by' st' :
  writeLigature st (INum g) comps by' = Normal (Some st') →
  in_order 4 st → in_order 4 st'.
Proof.
  intros Hw Hst. unfold in_order, writeLigature, parallelLength in *. simpl in *.
  destruct (0 <=? binSearch (glyphs (coverage st)) (INum g)) eqn:Hpos.
  - destruct (ligatureSets st !! _) as [set|] eqn:Hset; [|done].
    destruct (ligatureExists set comps) as [[|]| |]; [done| |done|done].
    simplify_eq/=. intros Hc.
    destruct (Hst Hc) as [Hasc Hlen]. split; [done|].
    intros n [= <-]. rewrite length_insert. by apply Hlen.
  - simplify_eq/=. intros Hc. destruct (Hst Hc) as [Hasc Hlen].
    destruct (binSearch_spec _ g Hasc) as [[Hf _]|(p & Hr & Hp)]; [lia|].
    rewrite Hr. replace (Z.to_nat (-1 - (-1 - Z.of_nat p))) with p by lia.
    split; [by apply ascending_splice_insert|].
    intros n [= <-]. rewrite !length_splice_insert. f_equal. by apply Hlen.
Qed.

(* ================================================================== *)
(** * What a mutation does, position by position *)
(* ================================================================== *)

Lemma storeLookup_Some li lt gs :
  storeLookup li lt {| gsub := Some gs |}
    = (Normal tt, {| gsub := Some (setLookups gs (<[li := lt]> (lookups gs))) |}).
Proof. done. Qed.

Lemma setLookups_setLookups gs l1 l2 : setLookups (setLookups gs l1) l2 = setLookups gs l2.
Proof. done. Qed.

Lemma subtableIn_store gs li lt sts' li' si :
  lookups gs !! li = Some lt →
  subtableIn (setLookups gs (<[li := setSubtables lt sts']> (lookups gs))) li' si =
    if decide (li' = li) then st ← sts' !! si; Some (lookupType lt, st)
    else subtableIn gs li' si.
Proof.
  intros Hlt. unfold subtableIn. simpl. case_decide as Hli.
  - subst. rewrite list_lookup_insert_eq by (by eapply lookup_lt_Some). done.
  - by rewrite list_lookup_insert_ne.
Qed.

Lemma subtableIn_default gs li lt si :
  lookups gs !! li = Some lt →
  subtableIn gs li si = (st ← default [] (subtables lt) !! si; Some (lookupType lt, st)).
Proof.
  intros Hlt. unfold subtableIn. rewrite Hlt. simpl.
  destruct (subtables lt) as [sts|]; [done|]. by destruct si.
Qed.

(** The creating resolution adds no subtable and changes none. *)
Lemma getLookupTables_create_frame script language tag ty f :
  ∃ gs1 li lt rest,
    getLookupTables script language tag ty true f
      = (Normal ((li, lt) :: rest), {| gsub := Some gs1 |}) ∧
    lookups gs1 !! li = Some lt ∧ lookupType lt = ty ∧
    ∀ li' si', subtableIn gs1 li' si' = subtableAt f li' si'.
Proof.
  destruct (getLookupTables_create script language tag ty f)
    as (gs0 & gs1 & li & lt & rest & Ht & Hget & Hlt & Hty & Hcase).
  exists gs1, li, lt, rest. split_and!; [done|done|done|].
  intros li' si'. unfold subtableAt.
  destruct Hcase as [(Hf & -> & _)|(_ & _ & Hl & -> & -> & _)].
  - by rewrite Hf.
  - assert (Hnew : subtableIn gs1 li' si' = subtableIn gs0 li' si').
    { unfold subtableIn. rewrite Hl.
      destruct (decide (li' < length (lookups gs0))%nat) as [Hlt'|Hge].
      - by rewrite lookup_app_l.
      - rewrite (lookup_ge_None_2 (lookups gs0)) by lia.
        destruct (decide (li' = length (lookups gs0))) as [->|Hne].
        + rewrite list_lookup_middle by done. by destruct si'.
        + rewrite lookup_ge_None_2; [done|]. rewrite length_app. simpl. lia. }
    rewrite Hnew. unfold tableOf in Ht.
    destruct (gsub f) as [gs|]; simplify_eq/=; [done|].
    unfold subtableIn. by destruct li'.
Qed.

(** [addSingle], [addMultiple] and [addAlternate] after the resolution:
    one position [(li, si)] takes the write, every other position is
    left as it is.  The subtable at the position was of the format, or
    there was none and the default subtable has been pushed there; the
    call leaves it as it was when it throws, and written otherwise. *)
Lemma addToFormat_positions name' fmt d write rule li lt rest gs c f' :
  lookups gs !! li = Some lt →
  addToFormat name' fmt d write rule ((li, lt) :: rest) {| gsub := Some gs |} = (c, f') →
  ∃ si st0,
    (∀ li' si', li' ≠ li ∨ si' ≠ si → subtableAt f' li' si' = subtableIn gs li' si') ∧
    (subtableIn gs li si = Some (lookupType lt, st0) ∧ substFormat st0 = fmt
     ∨ subtableIn gs li si = None ∧ st0 = d) ∧
    (subtableAt f' li si = Some (lookupType lt, st0) ∧ c ≠ Normal tt
     ∨ format (coverage st0) = 1 ∧ ∃ g, sub rule = VNum g ∧ c = Normal tt ∧
         subtableAt f' li si = Some (lookupType lt, write st0 g (by_ rule))).
Proof.
  intros Hlt. unfold addToFormat, getSubstFormat.
  set (sts0 := default [] (subtables lt)).
  assert (Hpre : ∀ si', subtableIn gs li si'
                   = (st ← sts0 !! si'; Some (lookupType lt, st)))
    by (intros; by apply subtableIn_default).
  (* the subtable the write goes to, and the list it is in *)
  assert (∃ si st0 sts1,
    (match find_index (λ st, substFormat st =? fmt) sts0 with
     | Some i => (setSubtables lt sts0, (λ st, (i, st)) <$> sts0 !! i)
     | None => (setSubtables lt (sts0 ++ [d]), Some (length sts0, d))
     end) = (setSubtables lt sts1, Some (si, st0)) ∧
    sts1 !! si = Some st0 ∧
    (∀ si', si' ≠ si → sts1 !! si' = sts0 !! si') ∧
    (sts0 !! si = Some st0 ∧ substFormat st0 = fmt ∨ sts0 !! si = None ∧ st0 = d))
    as (si & st0 & sts1 & -> & Hsi & Hother & Htarget).
  { destruct (find_index _ sts0) as [i|] eqn:Hfind.
    - apply find_index_Some in Hfind as (st0 & Hst0 & Hfmt & _).
      exists i, st0, sts0. rewrite Hst0. split_and!; [done|done|done|].
      left. split; [done|]. by apply Z.eqb_eq.
    - exists (length sts0), d, (sts0 ++ [d]). split_and!; [done| | |].
      + by apply list_lookup_middle.
      + intros si' Hne. destruct (decide (si' < length sts0)%nat).
        * by rewrite lookup_app_l.
        * rewrite !lookup_ge_None_2; [done|lia|]. rewrite length_app. simpl. lia.
      + right. split; [|done]. apply lookup_ge_None_2. lia. }
  assert (Hlen : (si < length sts1)%nat) by (by eapply lookup_lt_Some).
  unfold mbind, M_bind. rewrite storeLookup_Some. unfold lift, assert, fail.
  intros Hrun. exists si, st0. rewrite !Hpre.
  assert (Hkeep : ∀ sts', (∀ si', si' ≠ si → sts' !! si' = sts0 !! si') →
    ∀ li' si', li' ≠ li ∨ si' ≠ si →
      subtableAt {| gsub := Some (setLookups gs (<[li := setSubtables lt sts']>
                                                   (lookups gs))) |} li' si'
      = subtableIn gs li' si').
  { intros sts' Hsts' li' si' Hpos. unfold subtableAt. simpl.
    rewrite subtableIn_store by done. case_decide as Hli; [|done].
    subst li'. destruct Hpos as [?|Hsi']; [done|].
    by rewrite Hpre, Hsts'. }
  assert (Hat : ∀ sts' st, sts' !! si = Some st →
      subtableAt {| gsub := Some (setLookups gs (<[li := setSubtables lt sts']>
                                                   (lookups gs))) |} li si
      = Some (lookupType lt, st)).
  { intros sts' st Hst. unfold subtableAt. simpl.
    rewrite subtableIn_store by done. rewrite decide_True by done. by rewrite Hst. }
  assert (Htarget' :
    (st ← sts0 !! si; Some (lookupType lt, st)) = Some (lookupType lt, st0)
      ∧ substFormat st0 = fmt
    ∨ (st ← sts0 !! si; Some (lookupType lt, st)) = None ∧ st0 = d).
  { destruct Htarget as [[H1 H2]|[H1 H2]]; [left|right]; by rewrite H1. }
  destruct (format (coverage st0) =? 1) eqn:Hfmt; simpl in Hrun.
  - apply Z.eqb_eq in Hfmt.
    destruct (sub rule) as [|g| |ids] eqn:Hsub; simpl in Hrun.
    + injection Hrun as <- <-. split_and!; [by apply Hkeep|done|].
      left. split; [by apply Hat|done].
    + rewrite storeLookup_Some in Hrun. simpl in Hrun.
      rewrite list_insert_insert_eq in Hrun. injection Hrun as <- <-.
      split_and!.
      * apply Hkeep. intros si' Hne. rewrite list_lookup_insert_ne by done.
        by apply Hother.
      * done.
      * right. split; [done|]. exists g. split_and!; [done|done|].
        apply Hat. by apply list_lookup_insert_eq.
    + injection Hrun as <- <-. split_and!; [by apply Hkeep|done|].
      left. split; [by apply Hat|done].
    + injection Hrun as <- <-. split_and!; [by apply Hkeep|done|].
      left. split; [by apply Hat|done].
  - injection Hrun as <- <-. split_and!; [by apply Hkeep|done|].
    left. split; [by apply Hat|done].
Qed.

Lemma other_position (li li' si si' : nat) :
  ¬ (li' = li ∧ si' = si) → li' ≠ li ∨ si' ≠ si.
Proof.
  intros H. destruct (decide (li' = li)) as [->|Hne]; [right|by left].
  intros ->. by apply H.
Qed.

Lemma one_write_refl ty d target wr c f : one_write ty d target wr c f f.
Proof. exists 0%nat, 0%nat. split; [done|]. by left. Qed.

Lemma resolve_addToFormat_one_write name' fmt d write ty rule feature script language
    f c f' :
  (lookupTables ← getLookupTables script language feature ty true;
   addToFormat name' fmt d write rule lookupTables) f = (c, f') →
  one_write ty d (λ st, substFormat st = fmt) (written write rule) c f f'.
Proof.
  destruct (getLookupTables_create_frame script language feature ty f)
    as (gs1 & li & lt & rest & Hget & Hlt & Hty & Hframe).
  rewrite (M_bind_Normal _ _ _ _ _ Hget). intros Hrun.
  destruct (addToFormat_positions _ _ _ _ _ _ _ _ _ _ _ Hlt Hrun)
    as (si & st0 & Hother & Htarget & Hres).
  exists li, si. rewrite Hty in *. split.
  - intros li' si' Hpos. rewrite Hother by done. apply Hframe.
  - right. rewrite Hframe in Htarget.
    destruct Hres as [[Hres _]|(Hfmt & g & Hsub & -> & Hres)].
    + exists st0, st0. split_and!; [done|done|by left].
    + exists st0, (write st0 g (by_ rule)). split_and!; [done|done|].
      right. split; [|done]. split; [done|]. by exists g.
Qed.

Lemma addSingle_one_write feature rule script language f c f' :
  addSingle feature rule script language f = (c, f') →
  one_write 1 defaultSingle (λ st, substFormat st = 2) (written writeSingle rule) c f f'.
Proof. apply resolve_addToFormat_one_write. Qed.

Lemma addMultiple_one_write feature rule script language f c f' :
  addMultiple feature rule script language f = (c, f') →
  one_write 2 defaultFormat1 (λ st, substFormat st = 1) (written writeMultiple rule) c f f'.
Proof.
  unfold addMultiple. unfold mbind at 1. unfold M_bind, lift, assert, fail.
  destruct (isArrayOfTwoOrMore (by_ rule)).
  - apply resolve_addToFormat_one_write.
  - intros [= <- <-]. apply one_write_refl.
Qed.

Lemma addAlternate_one_write feature rule script language f c f' :
  addAlternate feature rule script language f = (c, f') →
  one_write 3 defaultFormat1 (λ st, substFormat st = 1) (written writeAlternate rule) c f f'.
Proof. apply resolve_addToFormat_one_write. Qed.

Lemma addLigature_one_write feature rule script language f c f' :
  addLigature feature rule script language f = (c, f') →
  one_write 4 defaultLigature (λ _, True) (writtenLigature rule) c f f'.
Proof.
  unfold addLigature.
  destruct (getLookupTables_create_frame script language feature 4 f)
    as (gs1 & li & lt & rest & Hget & Hlt & Hty & Hframe).
  rewrite (M_bind_Normal _ _ _ _ _ Hget).
  assert (Hpre : ∀ si, subtableIn gs1 li si
                   = (st ← default [] (subtables lt) !! si; Some (lookupType lt, st)))
    by (intros; by apply subtableIn_default).
  assert (Hsame : ∀ c0, one_write 4 defaultLigature (λ _, True) (writtenLigature rule)
                          c0 f {| gsub := Some gs1 |}).
  { intros c0. exists li, 0%nat. split; [intros; apply Hframe|]. left. apply Hframe. }
  destruct (subtables lt) as [sts|] eqn:Hsts.
  2:{ unfold lift. intros [= <- <-]. apply Hsame. }
  simpl in Hpre.
  (* the first subtable, and the list it is in *)
  assert (∃ st0 sts1,
    (match sts with st :: _ => (sts, st) | [] => ([defaultLigature], defaultLigature) end)
      = (sts1, st0) ∧
    sts1 !! 0%nat = Some st0 ∧
    (∀ si', si' ≠ 0%nat → sts1 !! si' = sts !! si') ∧
    (sts !! 0%nat = Some st0 ∨ sts !! 0%nat = None ∧ st0 = defaultLigature))
    as (st0 & sts1 & -> & H0 & Hother & Htarget).
  { destruct sts as [|st sts'].
    - exists defaultLigature, [defaultLigature]. split_and!; [done|done| |by right].
      intros [|si'] Hne; [done|]. simpl. by rewrite lookup_nil.
    - exists st, (st :: sts'). split_and!; [done|done|done|by left]. }
  unfold mbind at 1. unfold M_bind. rewrite storeLookup_Some.
  assert (Hkeep : ∀ sts', (∀ si', si' ≠ 0%nat → sts' !! si' = sts !! si') →
    ∀ li' si', li' ≠ li ∨ si' ≠ 0%nat →
      subtableAt {| gsub := Some (setLookups gs1 (<[li := setSubtables lt sts']>
                                                    (lookups gs1))) |} li' si'
      = subtableAt f li' si').
  { intros sts' Hsts' li' si' Hpos. unfold subtableAt at 1. simpl.
    rewrite subtableIn_store by done. rewrite <- Hframe. case_decide as Hli; [|done].
    subst li'. destruct Hpos as [?|Hsi']; [done|].
    by rewrite Hpre, Hsts'. }
  assert (Hat : ∀ sts' st, sts' !! 0%nat = Some st →
      subtableAt {| gsub := Some (setLookups gs1 (<[li := setSubtables lt sts']>
                                                    (lookups gs1))) |} li 0
      = Some (lookupType lt, st)).
  { intros sts' st Hst. unfold subtableAt. simpl.
    rewrite subtableIn_store by done. rewrite decide_True by done. by rewrite Hst. }
  assert (Htarget' :
    subtableAt f li 0 = Some (4, st0) ∧ True
    ∨ subtableAt f li 0 = None ∧ st0 = defaultLigature).
  { rewrite <- Hframe, Hpre, Hty.
    destruct Htarget as [H1|[H1 H2]]; [left|right]; by rewrite H1. }
  assert (Hidle : ∀ c0, one_write 4 defaultLigature (λ _, True) (writtenLigature rule) c0 f
      {| gsub := Some (setLookups gs1 (<[li := setSubtables lt sts1]> (lookups gs1))) |}).
  { intros c0. exists li, 0%nat. split; [by apply Hkeep|]. right.
    exists st0, st0. split_and!; [done| |by left].
    rewrite <- Hty. by apply Hat. }
  unfold mbind at 1. unfold M_bind, lift, assert, fail.
  destruct (format (coverage st0) =? 1) eqn:Hfmt.
  2:{ intros [= <- <-]. apply Hidle. }
  apply Z.eqb_eq in Hfmt.
  destruct (sub rule) as [|n| |items] eqn:Hsub;
    try (intros [= <- <-]; apply Hidle).
  unfold mbind at 1. unfold M_bind, lift.
  destruct (writeLigature st0 (firstItem items) (tail items) (by_ rule))
    as [[st'|]| |] eqn:Hw;
    try (intros [= <- <-]; apply Hidle).
  rewrite storeLookup_Some. simpl. rewrite list_insert_insert_eq.
  intros [= <- <-]. exists li, 0%nat. split.
  - apply Hkeep. intros si' Hne. rewrite list_lookup_insert_ne by done.
    by apply Hother.
  - right. exists st0, st'. split_and!; [done| |].
    + rewrite <- Hty. apply Hat. apply list_lookup_insert_eq.
      by eapply lookup_lt_Some.
    + right. split; [|done]. split; [done|]. by exists items.
Qed.

(* ================================================================== *)
(** * The mutations keep the coverage in order *)
(* ================================================================== *)

Lemma one_write_keeps (Q : Z → Subtable → Prop) ty d (target : Subtable → Prop) wr
    (method : M unit) :
  (∀ f c f', method f = (c, f') → one_write ty d target wr c f f') →
  Q ty d → target d →
  (∀ st st', target st → Q ty st → wr st st' → Q ty st') →
  keeps Q method.
Proof.
  intros Hone Hd Htd Hwr f c f' Hrun li' si' ty' st' Hpost Hpre.
  destruct (Hone f c f' Hrun) as (li & si & Hother & Htarget).
  destruct (decide (li' = li ∧ si' = si)) as [[-> ->]|Hne].
  - destruct Htarget as [Hsame|(st0 & st1 & Hst0 & Hst1 & Hres)].
    + apply Hpre. by rewrite <- Hsame.
    + rewrite Hst1 in Hpost. injection Hpost as <- <-.
      assert (Q ty st0 ∧ target st0) as [Hin0 Ht0].
      { destruct Hst0 as [[H0 Ht]|[_ ->]]; [|done]. split; [|done]. by apply Hpre. }
      destruct Hres as [->|[Hw _]]; [done|]. by eapply Hwr.
  - apply Hpre. rewrite <- Hother; [done|].
    by apply other_position.
Qed.

(** With a number under [sub] the three methods of the shared body end
    by a return or by a throw. *)
Lemma addToFormat_typed name' fmt d write rule g lookupTables f :
  sub rule = VNum g →
  (addToFormat name' fmt d write rule lookupTables f).1 ≠ Untyped.
Proof.
  intros Hsub. unfold addToFormat. destruct lookupTables as [|[li lt] rest]; [done|].
  destruct (getSubstFormat lt fmt (Some d)) as [lt1 [[si st]|]]; [|done].
  unfold mbind, M_bind, storeLookup, lift, assert, fail. simpl.
  destruct (format (coverage st) =? 1); [|done]. by rewrite Hsub.
Qed.

Lemma resolve_typed name' fmt d write ty rule g feature script language f :
  sub rule = VNum g →
  ((lookupTables ← getLookupTables script language feature ty true;
    addToFormat name' fmt d write rule lookupTables) f).1 ≠ Untyped.
Proof.
  intros Hsub. unfold mbind at 1. unfold M_bind.
  destruct (getLookupTables script language feature ty true f) as [[lts| |] f1] eqn:E;
    [by apply (addToFormat_typed _ _ _ _ _ g)|done|].
  unfold getLookupTables in E. repeat case_match; simplify_eq.
Qed.

Lemma addLigature_typed feature rule script language f :
  (addLigature feature rule script language f).1 ≠ Untyped.
Proof.
  unfold addLigature. unfold mbind at 1. unfold M_bind.
  destruct (getLookupTables script language feature 4 true f) as [[lts| |] f1] eqn:E.
  - destruct lts as [|[li lt] rest]; [done|].
    destruct (subtables lt) as [sts|]; [|done].
    destruct (match sts with
              | st :: _ => (sts, st)
              | [] => ([defaultLigature], defaultLigature)
              end) as [sts1 st].
    unfold mbind, M_bind, storeLookup, lift, assert, fail. simpl.
    destruct (format (coverage st) =? 1); [|done].
    destruct (sub rule) as [|n| |items]; try done.
    unfold writeLigature.
    destruct (0 <=? _); [|done].
    destruct (ligatureSets st !! _) as [set'|]; [|done].
    assert (ligatureExists set' (tail items) ≠ Untyped) as Hex.
    { induction set' as [|l set' IH]; [done|]. simpl.
      unfold arraysEqual. destruct (_ =? _)%nat; [|done].
      assert (∀ a b, arraysEqual_loop a b ≠ Untyped) as Hloop.
      { intros a. induction a as [|x a IHa]; intros [|y b]; try done. simpl.
        unfold equals. destruct (item_eqb x y); [apply IHa|done]. }
      destruct (arraysEqual_loop _ _) as [[|]| |] eqn:El; try done.
      by destruct (Hloop _ _ El). }
    by destruct (ligatureExists set' (tail items)) as [[|]| |].
  - done.
  - unfold getLookupTables in E. repeat case_match; simplify_eq.
Qed.

(** C6.  Given a rule that carries a glyph id under [sub], [addSingle],
    [addMultiple] and [addAlternate] end by a return or by a throw, and
    given a rule that carries under [sub] an array that starts with a
    glyph id so does [addLigature]; each keeps every format-1 coverage of
    the font strictly ascending, and keeps it in order (a strictly
    ascending list of glyph ids, with the parallel array as long as the
    glyph list), position by position and whatever way the call ends:
    where the subtable at a position had the property before the call,
    or the position is new, the subtable the call leaves there has it.
    The binary search is the one of the model, which meets its
    convention on an ascending list ([binSearch_spec]). *)
Theorem add_keeps_coverage_in_order (feature : string) (rule : Entry)
    (script language : option string) (g : Z) (comps : list item) :
  (sub rule = VNum g →
     ((∀ f, (addSingle feature rule script language f).1 ≠ Untyped)
      ∧ keeps coverage_ascending (addSingle feature rule script language)
      ∧ keeps in_order (addSingle feature rule script language))
     ∧ ((∀ f, (addMultiple feature rule script language f).1 ≠ Untyped)
        ∧ keeps coverage_ascending (addMultiple feature rule script language)
        ∧ keeps in_order (addMultiple feature rule script language))
     ∧ ((∀ f, (addAlternate feature rule script language f).1 ≠ Untyped)
        ∧ keeps coverage_ascending (addAlternate feature rule script language)
        ∧ keeps in_order (addAlternate feature rule script language)))
  ∧ (sub rule = VArr (INum g :: comps) →
     (∀ f, (addLigature feature rule script language f).1 ≠ Untyped)
     ∧ keeps coverage_ascending (addLigature feature rule script language)
     ∧ keeps in_order (addLigature feature rule script language)).
Proof.
  split; [intros Hsub; split_and!|intros Hsub; split_and!].
  - intros f. by apply (resolve_typed _ _ _ _ _ _ g).
  - eapply one_write_keeps.
    + intros f c f'. apply addSingle_one_write.
    + apply coverage_ascending_default.
    + done.
    + intros st st' _. apply (written_ascending writeSingle substitute).
      intros st0 g0 b. unfold writeSingle. by case_match.
  - eapply one_write_keeps.
    + intros f c f'. apply addSingle_one_write.
    + apply in_order_default.
    + done.
    + intros st st' Hfmt Hin (_ & g0 & _ & ->). by apply writeSingle_in_order.
  - intros f. unfold addMultiple. unfold mbind at 1. unfold M_bind, lift, assert, fail.
    destruct (isArrayOfTwoOrMore (by_ rule)); [|done].
    by apply (resolve_typed _ _ _ _ _ _ g).
  - eapply one_write_keeps.
    + intros f c f'. apply addMultiple_one_write.
    + apply coverage_ascending_default.
    + done.
    + intros st st' _. apply (written_ascending writeMultiple sequences).
      intros st0 g0 b. unfold writeMultiple. by case_match.
  - eapply one_write_keeps.
    + intros f c f'. apply addMultiple_one_write.
    + apply in_order_default.
    + done.
    + intros st st' Hfmt Hin (_ & g0 & _ & ->). by apply writeMultiple_in_order.
  - intros f. by apply (resolve_typed _ _ _ _ _ _ g).
  - eapply one_write_keeps.
    + intros f c f'. apply addAlternate_one_write.
    + apply coverage_ascending_default.
    + done.
    + intros st st' _. apply (written_ascending writeAlternate alternateSets).
      intros st0 g0 b. unfold writeAlternate. by case_match.
  - eapply one_write_keeps.
    + intros f c f'. apply addAlternate_one_write.
    + apply in_order_default.
    + done.
    + intros st st' Hfmt Hin (_ & g0 & _ & ->). by apply writeAlternate_in_order.
  - apply addLigature_typed.
  - eapply one_write_keeps.
    + intros f c f'. apply addLigature_one_write.
    + apply coverage_ascending_default.
    + done.
    + intros st st' _. by apply (writeLigature_ascending _ _ g comps).
  - eapply one_write_keeps.
    + intros f c f'. apply addLigature_one_write.
    + apply in_order_default.
    + done.
    + intros st st' _ Hin (_ & items & Hitems & Hw).
      rewrite Hsub in Hitems. injection Hitems as <-.
      by apply (writeLigature_in_order st g comps (by_ rule)).
Qed.

Lemma add_keeps_coverage_in_order_witness :
  sub {| sub := VNum 3; by_ := VNum 4 |} = VNum 3
  ∧ addSingle "ss01" {| sub := VNum 3; by_ := VNum 4 |} None None singleFont
    = (Normal tt,
       (addSingle "ss01" {| sub := VNum 3; by_ := VNum 4 |} None None singleFont).2)
  ∧ subtableAt singleFont 0 0 = Some (1, freshSingle 5 (VNum 9))
  ∧ in_order 1 (freshSingle 5 (VNum 9))
  ∧ in_order 1 (writeSingle (freshSingle 5 (VNum 9)) 3 (VNum 4)).
Proof.
  assert (Hpre : in_order 1 (freshSingle 5 (VNum 9))).
  { intros _. split; [apply ascending_singleton|]. by intros n [= <-]. }
  split_and!; [reflexivity|reflexivity|reflexivity|exact Hpre|].
  destruct (add_keeps_coverage_in_order "ss01" {| sub := VNum 3; by_ := VNum 4 |}
              None None 3 []) as [Hnumber _].
  destruct (Hnumber eq_refl) as [(_ & _ & Hsingle) _].
  apply (Hsingle singleFont (Normal tt)
           (addSingle "ss01" {| sub := VNum 3; by_ := VNum 4 |} None None singleFont).2
           eq_refl 0%nat 0%nat 1 _ eq_refl).
  intros st Hst. vm_compute in Hst. injection Hst as <-. exact Hpre.
Defined.

(** C6, the rule the claim does not hold for.  [addLigature] of a rule
    with an empty array under [sub] returns: the first element of the
    array is [undefined], no glyph of the coverage is equal to it, and it
    is stored among the glyphs with a ligature set of its own.  On the
    font with the ligature 10 11 -> 50, whose subtable is in order, the
    glyph list is then [[undefined; 10]], which is no list of glyph ids;
    the parallel array is as long as it. *)
Lemma addLigature_of_an_empty_array_breaks_the_order :
  ∃ f' st',
    addLigature "liga" {| sub := VArr []; by_ := VNum 50 |} None None ligatureFont
      = (Normal tt, f')
    ∧ subtableAt ligatureFont 0 0 = Some (4, ligatureSubtable)
    ∧ in_order 4 ligatureSubtable
    ∧ subtableAt f' 0 0 = Some (4, st')
    ∧ format (coverage st') = 1
    ∧ glyphs (coverage st') = [IUndef; INum 10]
    ∧ length (ligatureSets st') = length (glyphs (coverage st'))
    ∧ ¬ ascending (glyphs (coverage st'))
    ∧ ¬ keeps coverage_ascending
          (addLigature "liga" {| sub := VArr []; by_ := VNum 50 |} None None)
    ∧ ¬ keeps in_order
          (addLigature "liga" {| sub := VArr []; by_ := VNum 50 |} None None).
Proof.
  assert (Hpre : in_order 4 ligatureSubtable).
  { intros _. split; [apply ascending_singleton|]. by intros n [= <-]. }
  assert (Hbroken : ¬ ascending [IUndef; INum 10]).
  { intros [Hids _]. by destruct (Hids 0%nat IUndef eq_refl). }
  eexists _, _. split_and!; [reflexivity|reflexivity|exact Hpre|reflexivity|reflexivity
                            |reflexivity|reflexivity|exact Hbroken| |].
  - intros Hkeeps. apply Hbroken.
    refine (Hkeeps ligatureFont (Normal tt) _ eq_refl 0%nat 0%nat 4 _ eq_refl _ eq_refl).
    intros st Hst. vm_compute in Hst. injection Hst as <-. intros _.
    apply ascending_singleton.
  - intros Hkeeps. apply Hbroken.
    refine (proj1 (Hkeeps ligatureFont (Normal tt) _ eq_refl 0%nat 0%nat 4 _ eq_refl _
                     eq_refl)).
    intros st Hst. vm_compute in Hst. injection Hst as <-. exact Hpre.
Qed.

(* ================================================================== *)
(** * The mutations leave the delta single substitutions alone *)
(* ================================================================== *)

Lemma one_write_keeps_deltaSingles ty d (target : Subtable → Prop) wr (method : M unit) :
  (∀ f c f', method f = (c, f') → one_write ty d target wr c f f') →
  (ty = 1 → substFormat d ≠ 1
            ∧ (∀ st, target st → substFormat st ≠ 1)
            ∧ (∀ st st', wr st st' → substFormat st' = substFormat st)) →
  keeps_deltaSingles method.
Proof.
  intros Hone Hty f c f' Hrun li' si' st.
  destruct (Hone f c f' Hrun) as (li & si & Hother & Htarget).
  unfold deltaSingle.
  destruct (decide (li' = li ∧ si' = si)) as [[-> ->]|Hne].
  - destruct Htarget as [->|(st0 & st1 & Hst0 & Hst1 & Hres)]; [done|].
    rewrite Hst1. split.
    + intros [[= -> <-] Hfmt]. destruct (Hty eq_refl) as (Hd & Ht & Hw).
      assert (substFormat st0 ≠ 1).
      { destruct Hst0 as [[_ H]|[_ ->]]; [by apply Ht|done]. }
      destruct Hres as [->|[Hwr _]]; [done|]. apply Hw in Hwr. congruence.
    + intros [Hpre Hfmt]. destruct Hst0 as [[H0 Ht0]|[H0 _]].
      * rewrite H0 in Hpre. injection Hpre as -> ->.
        destruct (Hty eq_refl) as (_ & Ht & _). by apply Ht in Ht0.
      * by rewrite H0 in Hpre.
  - rewrite Hother; [done|].
    by apply other_position.
Qed.

Lemma addSingle_keeps_deltaSingles feature rule script language :
  keeps_deltaSingles (addSingle feature rule script language).
Proof.
  eapply one_write_keeps_deltaSingles.
  - intros f c f'. apply addSingle_one_write.
  - intros _. split_and!; [done|by intros st ->|].
    intros st st' (_ & g & _ & ->). unfold writeSingle. by case_match.
Qed.

Lemma addMultiple_keeps_deltaSingles feature rule script language :
  keeps_deltaSingles (addMultiple feature rule script language).
Proof.
  eapply one_write_keeps_deltaSingles.
  - intros f c f'. apply addMultiple_one_write.
  - done.
Qed.

Lemma addAlternate_keeps_deltaSingles feature rule script language :
  keeps_deltaSingles (addAlternate feature rule script language).
Proof.
  eapply one_write_keeps_deltaSingles.
  - intros f c f'. apply addAlternate_one_write.
  - done.
Qed.

Lemma addLigature_keeps_deltaSingles feature rule script language :
  keeps_deltaSingles (addLigature feature rule script language).
Proof.
  eapply one_write_keeps_deltaSingles.
  - intros f c f'. apply addLigature_one_write.
  - done.
Qed.

Create HintDb deltaSingles.

#[local] Hint Resolve addSingle_keeps_deltaSingles addMultiple_keeps_deltaSingles
  addAlternate_keeps_deltaSingles addLigature_keeps_deltaSingles : deltaSingles.

Lemma add_keeps_deltaSingles feature rule script language :
  keeps_deltaSingles (add feature rule script language).
Proof.
  unfold add. repeat case_match; auto with deltaSingles.
  intros f c f' [= <- <-]. done.
Qed.

#[local] Hint Resolve add_keeps_deltaSingles : deltaSingles.

(* ================================================================== *)
(** * The dispatch on the feature tag *)
(* ================================================================== *)

(** C10.  For a feature tag that does not match [/ss\d\d/] and is none of
    "aalt", "salt", "dlig", "liga", "rlig", "ccmp", "stch", [getFeature]
    returns [undefined] and [add] returns [undefined], both leaving the
    font, hence its GSUB tree, exactly as it was. *)
Theorem unknown_feature_is_ignored (feature : string) (rule : Entry)
    (script language : option string) (f : Font) :
  test_ss_d_d feature = false →
  feature ∉ dispatchedTags →
  getFeature feature script language f = (Normal None, f)
  ∧ add feature rule script language f = (Normal tt, f).
Proof.
  intros Hss Htag. unfold getFeature, add. rewrite Hss.
  assert (Hne : ∀ t, t ∈ dispatchedTags → String.eqb feature t = false).
  { intros t Ht. apply String.eqb_neq. by intros ->. }
  rewrite !Hne; [done|unfold dispatchedTags; set_solver..].
Qed.

Lemma unknown_feature_is_ignored_witness :
  getFeature "kern" None None emptyFont = (Normal None, emptyFont)
  ∧ add "kern" {| sub := VNum 1; by_ := VNum 2 |} None None emptyFont
    = (Normal tt, emptyFont).
Proof.
  apply unknown_feature_is_ignored.
  - reflexivity.
  - unfold dispatchedTags. intros H. by repeat (apply elem_of_cons in H as [H|H]; [done|]);
      apply elem_of_nil in H.
Defined.

(** C4.  [getFeature "stch"] is [getMultiple]; [add "stch"] has no branch
    of the dispatch and returns [undefined] with the font untouched,
    where [addMultiple] on the same rule creates the substitution. *)
Theorem add_stch_is_not_dispatched (rule : Entry) (script language : option string)
    (f : Font) :
  getFeature "stch" script language f
    = (r ← getMultiple "stch" script language; mret (Some r)) f
  ∧ add "stch" rule script language f = (Normal tt, f)
  ∧ add "stch" {| sub := VNum 1; by_ := VArr [INum 2; INum 3] |} None None emptyFont
      = (Normal tt, emptyFont)
  ∧ addMultiple "stch" {| sub := VNum 1; by_ := VArr [INum 2; INum 3] |} None None emptyFont
      ≠ (Normal tt, emptyFont).
Proof.
  split_and!; [done|done|done|]. by vm_compute.
Qed.

(* ================================================================== *)
(** * The projections *)
(* ================================================================== *)

(** C1.  [getSingle] returns one entry for each glyph of the expanded
    coverage, but every entry is the pair of position 0: after
    [addSingle] of 5 -> 9 and of 3 -> 4 on a font without a tree the
    subtable holds the glyphs [3; 5] with the substitutes [4; 9], whose
    pairs by position are 3 -> 4 and 5 -> 9, and [getSingle] lists 3 -> 4
    twice.  On a delta subtable that covers 1 and 2 with the delta 10 it
    lists 1 -> 11 twice. *)
Theorem getSingle_repeats_the_first_pair :
  ∃ f2 st,
    (_ ← addSingle "ss01" {| sub := VNum 5; by_ := VNum 9 |} None None;
     addSingle "ss01" {| sub := VNum 3; by_ := VNum 4 |} None None) emptyFont
      = (Normal tt, f2)
    ∧ subtableAt f2 0 0 = Some (1, st)
    ∧ expandCoverage (coverage st) = [INum 3; INum 5]
    ∧ substitute st = [VNum 4; VNum 9]
    ∧ pairedByPosition (expandCoverage (coverage st)) (substitute st)
        = [{| sub := VNum 3; by_ := VNum 4 |}; {| sub := VNum 5; by_ := VNum 9 |}]
    ∧ getSingle "ss01" None None f2
        = (Normal [{| sub := VNum 3; by_ := VNum 4 |};
                   {| sub := VNum 3; by_ := VNum 4 |}], f2)
    ∧ getSingle "ss01" None None deltaFont
        = (Normal [{| sub := VNum 1; by_ := VNum 11 |};
                   {| sub := VNum 1; by_ := VNum 11 |}], deltaFont).
Proof.
  eexists _, _. split_and!; [by vm_compute|by vm_compute|..]; by vm_compute.
Qed.

(* ================================================================== *)
(** * addSingle beside a delta subtable *)
(* ================================================================== *)

Lemma font_eta f gs : gsub f = Some gs → f = {| gsub := Some gs |}.
Proof. destruct f as [g]. simpl. by intros ->. Qed.

Lemma writeSingle_default g b : writeSingle defaultSingle g b = freshSingle g b.
Proof. reflexivity. Qed.

Lemma addSingle_beside_delta feature g b script language f gs li lis lt sts :
  gsub f = Some gs →
  findLookupTables gs script language feature 1 = li :: lis →
  lookups gs !! li = Some lt →
  subtables lt = Some sts →
  Forall (λ st, substFormat st = 1) sts →
  addSingle feature {| sub := VNum g; by_ := b |} script language f
    = (Normal tt,
       {| gsub := Some (setLookups gs
            (<[li := setSubtables lt (sts ++ [freshSingle g b])]> (lookups gs))) |}).
Proof.
  intros Hgs Hfind Hlt Hsts Hall. unfold addSingle.
  rewrite (M_bind_Normal _ _ _ _ _
             (getLookupTables_existing _ _ _ _ true _ _ _ _ _ Hgs Hfind Hlt)).
  rewrite (font_eta _ _ Hgs).
  unfold addToFormat, getSubstFormat. rewrite Hsts. simpl.
  assert (Hnone : find_index (λ st, substFormat st =? 2) sts = None).
  { apply find_index_None. intros st Hst.
    rewrite Forall_forall in Hall. rewrite (Hall st Hst). done. }
  rewrite Hnone. unfold mbind, M_bind. rewrite storeLookup_Some. simpl.
  rewrite storeLookup_Some. simpl. rewrite list_insert_insert_eq.
  do 5 f_equal. rewrite insert_app_r_alt by done.
  rewrite Nat.sub_diag. simpl. by rewrite writeSingle_default.
Qed.

(** C7.  When [addSingle] resolves to a lookup table whose subtables are
    all of format 1 (delta), the call returns and leaves each of them at
    its position with its contents, a format-2 subtable with a fresh
    format-1 coverage holding the rule appended behind them.  And no
    [add*] method, nor [add], changes, removes or produces a delta single
    substitution, whatever way the call ends. *)
Theorem add_never_touches_delta_single (feature : string) (g : Z) (b : jsval)
    (script language : option string) (f : Font) (gs : Gsub) (li : nat)
    (lis : list nat) (lt : LookupTable) (sts : list Subtable) :
  gsub f = Some gs →
  findLookupTables gs script language feature 1 = li :: lis →
  lookups gs !! li = Some lt →
  subtables lt = Some sts →
  Forall (λ st, substFormat st = 1) sts →
  addSingle feature {| sub := VNum g; by_ := b |} script language f
    = (Normal tt,
       {| gsub := Some (setLookups gs
            (<[li := setSubtables lt (sts ++ [freshSingle g b])]> (lookups gs))) |})
  ∧ ∀ feature' rule script' language',
      keeps_deltaSingles (addSingle feature' rule script' language')
      ∧ keeps_deltaSingles (addMultiple feature' rule script' language')
      ∧ keeps_deltaSingles (addAlternate feature' rule script' language')
      ∧ keeps_deltaSingles (addLigature feature' rule script' language')
      ∧ keeps_deltaSingles (add feature' rule script' language').
Proof.
  intros Hgs Hfind Hlt Hsts Hall. split.
  - by eapply addSingle_beside_delta.
  - intros feature' rule script' language'.
    split_and!; auto with deltaSingles.
Qed.

Lemma add_never_touches_delta_single_witness :
  gsub deltaFont = Some deltaGsub
  ∧ findLookupTables deltaGsub None None "ss01" 1 = [0%nat]
  ∧ lookups deltaGsub !! 0%nat = Some deltaLookup
  ∧ subtables deltaLookup = Some [deltaSubtable]
  ∧ Forall (λ st, substFormat st = 1) [deltaSubtable]
  ∧ addSingle "ss01" {| sub := VNum 7; by_ := VNum 8 |} None None deltaFont
      = (Normal tt,
         {| gsub := Some (setLookups deltaGsub
              [setSubtables deltaLookup [deltaSubtable; freshSingle 7 (VNum 8)]]) |}).
Proof.
  split_and!; [reflexivity|reflexivity|reflexivity|reflexivity| |].
  - repeat constructor.
  - apply (add_never_touches_delta_single "ss01" 7 (VNum 8) None None deltaFont
             deltaGsub 0 [] deltaLookup [deltaSubtable]);
      [reflexivity|reflexivity|reflexivity|reflexivity|repeat constructor].
Defined.

(* ================================================================== *)
(** * addLigature on a starting glyph that is covered *)
(* ================================================================== *)

Lemma item_eqb_eq (x y : item) : item_eqb x y = true ↔ x = y.
Proof.
  destruct x as [|a], y as [|b]; simpl; try done.
  rewrite Z.eqb_eq. split; [by intros ->|by intros [= ->]].
Qed.

Lemma item_eqb_refl (x : item) : item_eqb x x = true.
Proof. by apply item_eqb_eq. Qed.

(** On two arrays of the same length the loop of [arraysEqual] returns
    [true] when they are equal, and throws at the first position where
    they differ. *)
Lemma arraysEqual_loop_spec (a b : list item) :
  length a = length b →
  arraysEqual_loop a b = if decide (a = b) then Normal true else Throw ReferenceError.
Proof.
  revert b. induction a as [|x a IH]; intros [|y b] Hlen; simpl in *; try done.
  unfold equals. destruct (item_eqb x y) eqn:E; simpl.
  - apply item_eqb_eq in E as ->. rewrite IH by lia.
    destruct (decide (a = b)) as [->|Hne]; [by rewrite decide_True|].
    rewrite decide_False; [done|]. by intros [= ->].
  - rewrite decide_False; [done|]. intros [= -> ->].
    by rewrite item_eqb_refl in E.
Qed.

(** [arraysEqual] never returns [false] on two arrays of the same
    length. *)
Lemma arraysEqual_spec (a b : list item) :
  arraysEqual a b
    = if decide (length a = length b)
      then if decide (a = b) then Normal true else Throw ReferenceError
      else Normal false.
Proof.
  unfold arraysEqual. destruct (Nat.eqb_spec (length a) (length b)) as [Hlen|Hlen].
  - rewrite decide_True by done. by apply arraysEqual_loop_spec.
  - by rewrite decide_False.
Qed.

(** What the loop over a ligature set answers: [true] with a ligature of
    the components in the set, [false] when no ligature of the set has
    as many components. *)
Lemma ligatureExists_Normal (set' : list Ligature) (comps : list item) (e : bool) :
  ligatureExists set' comps = Normal e →
  if e then ∃ l, l ∈ set' ∧ components l = comps
  else ∀ l, l ∈ set' → length (components l) ≠ length comps.
Proof.
  induction set' as [|l set' IH]; simpl.
  - intros [= <-]. by intros l ?%elem_of_nil.
  - rewrite arraysEqual_spec.
    destruct (decide (length (components l) = length comps)) as [Hlen|Hlen].
    + destruct (decide (components l = comps)) as [Heq|Hne]; [|done]. simpl.
      intros [= <-]. exists l. split; [by left|done].
    + simpl. intros He. specialize (IH He). destruct e.
      * destruct IH as (l' & Hl' & Heq). exists l'. split; [by right|done].
      * intros l' [->|Hl']%elem_of_cons; [done|by apply IH].
Qed.

(** The loop answers [true] on the components of a ligature of the set,
    the ligatures before it having another number of components, and
    [false] when every ligature of the set has another number of
    components. *)
Lemma ligatureExists_found (before after : list Ligature) (l : Ligature)
    (comps : list item) :
  Forall (λ l', length (components l') ≠ length comps) before →
  components l = comps →
  ligatureExists (before ++ l :: after) comps = Normal true.
Proof.
  intros Hbefore Heq. induction before as [|l' before IH]; simpl.
  - by rewrite arraysEqual_spec, !decide_True by (by rewrite ?Heq).
  - apply Forall_cons in Hbefore as [Hl' Hbefore].
    rewrite arraysEqual_spec, decide_False by done. simpl. by apply IH.
Qed.

Lemma ligatureExists_none (set' : list Ligature) (comps : list item) :
  Forall (λ l, length (components l) ≠ length comps) set' →
  ligatureExists set' comps = Normal false.
Proof.
  induction set' as [|l set' IH]; intros Hall; simpl; [done|].
  apply Forall_cons in Hall as [Hl Hall].
  rewrite arraysEqual_spec, decide_False by done. simpl. by apply IH.
Qed.

(** The loop throws on components that differ from those of a ligature
    of the set of the same length, the ligatures before it having
    another number of components. *)
Lemma ligatureExists_throws (before after : list Ligature) (l : Ligature)
    (comps : list item) :
  Forall (λ l', length (components l') ≠ length comps) before →
  length (components l) = length comps → components l ≠ comps →
  ligatureExists (before ++ l :: after) comps = Throw ReferenceError.
Proof.
  intros Hbefore Hlen Hne. induction before as [|l' before IH]; simpl.
  - rewrite arraysEqual_spec, decide_True, decide_False by done. done.
  - apply Forall_cons in Hbefore as [Hl' Hbefore].
    rewrite arraysEqual_spec, decide_False by done. simpl. by apply IH.
Qed.

(** On an ascending list the binary search finds a glyph at the one
    position that holds it. *)
Lemma binSearch_found (arr : list item) (g : Z) (p : nat) :
  ascending arr → arr !! p = Some (INum g) → binSearch arr (INum g) = Z.of_nat p.
Proof.
  intros Hasc Hp.
  destruct (binSearch_spec arr g Hasc) as [[Hr Hg]|(q & _ & _ & Hlo & Hhi)].
  - destruct Hasc as [_ Hasc].
    destruct (Nat.lt_total (Z.to_nat (binSearch arr (INum g))) p) as [Hlt|[Heq|Hgt]].
    + pose proof (Hasc _ _ _ _ Hg Hp Hlt). lia.
    + lia.
    + pose proof (Hasc _ _ _ _ Hp Hg Hgt). lia.
  - destruct (decide (p < q)%nat) as [Hlt|Hge].
    + pose proof (Hlo _ _ Hlt Hp). lia.
    + assert (g < g); [|lia]. eapply Hhi; [|done]. lia.
Qed.

Lemma lookup_eta lt sts : subtables lt = Some sts → setSubtables lt sts = lt.
Proof. destruct lt. simpl. by intros ->. Qed.

Lemma setLookups_id gs : setLookups gs (lookups gs) = gs.
Proof. by destruct gs. Qed.

(** [addLigature] on a lookup table that is there, with a first subtable
    of a format-1 coverage: the call is the write to that subtable. *)
Lemma addLigature_existing feature rule items script language f gs li lis lt st sts :
  gsub f = Some gs →
  findLookupTables gs script language feature 4 = li :: lis →
  lookups gs !! li = Some lt →
  subtables lt = Some (st :: sts) →
  format (coverage st) = 1 →
  sub rule = VArr items →
  addLigature feature rule script language f =
    match writeLigature st (firstItem items) (tail items) (by_ rule) with
    | Normal None => (Normal tt, f)
    | Normal (Some st') =>
        (Normal tt,
         {| gsub := Some (setLookups gs
              (<[li := setSubtables lt (st' :: sts)]> (lookups gs))) |})
    | Throw msg => (Throw msg, f)
    | Untyped => (Untyped, f)
    end.
Proof.
  intros Hgs Hfind Hlt Hsts Hfmt Hsub. unfold addLigature.
  rewrite (M_bind_Normal _ _ _ _ _
             (getLookupTables_existing _ _ _ _ true _ _ _ _ _ Hgs Hfind Hlt)).
  rewrite Hsts, Hsub. rewrite (font_eta _ _ Hgs).
  unfold mbind at 1. unfold M_bind at 1. rewrite storeLookup_Some.
  rewrite (lookup_eta _ _ Hsts), list_insert_id by done.
  rewrite setLookups_id. apply Z.eqb_eq in Hfmt. rewrite Hfmt.
  unfold mbind, M_bind, lift, assert.
  by destruct (writeLigature st (firstItem items) (tail items) (by_ rule))
    as [[st'|]| |].
Qed.

(** C5.  [addLigature] on a starting glyph that is covered compares the
    components of the rule with those of the ligatures of the set by
    [arraysEqual], which returns [false] on arrays of different lengths
    and [true] on equal arrays, and throws a [ReferenceError] on two
    arrays of the same length that differ.  On a font without a tree,
    [addLigature] of 10 11 -> 50 twice leaves one ligature for glyph 10;
    [addLigature] of 10 11 -> 50 and then of 10 12 -> 51 throws, and
    leaves that one ligature; [addLigature] of 10 11 -> 50 and then of
    10 12 13 -> 52, whose components are of another length, leaves the
    set [[11] -> 50; [12; 13] -> 52]. *)
Theorem addLigature_of_other_components_throws :
  (∀ a b : list item,
     arraysEqual a b
       = if decide (length a = length b)
         then if decide (a = b) then Normal true else Throw ReferenceError
         else Normal false)
  ∧ arraysEqual [INum 11] [INum 12] = Throw ReferenceError
  ∧ (_ ← addLigature "liga" {| sub := VArr [INum 10; INum 11]; by_ := VNum 50 |}
           None None;
     addLigature "liga" {| sub := VArr [INum 10; INum 11]; by_ := VNum 50 |}
       None None) emptyFont
      = (Normal tt, ligatureFont)
  ∧ ligatureSetOf ligatureSubtable 10
      = Some [{| ligGlyph := VNum 50; components := [INum 11] |}]
  ∧ (_ ← addLigature "liga" {| sub := VArr [INum 10; INum 11]; by_ := VNum 50 |}
           None None;
     addLigature "liga" {| sub := VArr [INum 10; INum 12]; by_ := VNum 51 |}
       None None) emptyFont
      = (Throw ReferenceError, ligatureFont)
  ∧ addLigature "liga" {| sub := VArr [INum 10; INum 12]; by_ := VNum 51 |}
      None None ligatureFont
      = (Throw ReferenceError, ligatureFont)
  ∧ ∃ f3 st3,
      (_ ← addLigature "liga" {| sub := VArr [INum 10; INum 11]; by_ := VNum 50 |}
             None None;
       addLigature "liga" {| sub := VArr [INum 10; INum 12; INum 13]; by_ := VNum 52 |}
         None None) emptyFont
        = (Normal tt, f3)
      ∧ subtableAt f3 0 0 = Some (4, st3)
      ∧ ligatureSetOf st3 10
          = Some [{| ligGlyph := VNum 50; components := [INum 11] |};
                  {| ligGlyph := VNum 52; components := [INum 12; INum 13] |}].
Proof.
  split_and!; [apply arraysEqual_spec|by vm_compute..|].
  eexists _, _. split_and!; by vm_compute.
Qed.

(* ================================================================== *)
(** * ScriptList and the default language system *)
(* ================================================================== *)

Lemma recordList_from_total {A} (cb : A → nat → completion (list Field)) i recs :
  (∀ r j, r ∈ recs → ∃ fs, cb r j = Normal fs) →
  ∃ fs, recordList_from cb i recs = Normal fs.
Proof.
  revert i. induction recs as [|r recs IH]; intros i Hall; simpl; [by eexists|].
  destruct (Hall r i) as [fs Hfs]; [by left|]. rewrite Hfs. simpl.
  destruct (IH (S i)) as [rest Hrest]; [intros; apply Hall; by right|].
  rewrite Hrest. by eexists.
Qed.

Lemma recordList_from_throw {A} (cb : A → nat → completion (list Field)) i pre r post msg :
  (∀ x j, x ∈ pre → ∃ fs, cb x j = Normal fs) →
  (∀ j, cb r j = Throw msg) →
  recordList_from cb i (pre ++ r :: post) = Throw msg.
Proof.
  revert i. induction pre as [|x pre IH]; intros i Hpre Hr; simpl.
  - by rewrite Hr.
  - destruct (Hpre x i) as [fs Hfs]; [by left|]. rewrite Hfs. simpl.
    rewrite IH; [done| |done]. intros; apply Hpre; by right.
Qed.

(** The first element that fails a decidable property of a list. *)
Lemma first_failure {A} (P : A → Prop) `{∀ x, Decision (P x)} (l : list A) :
  ¬ Forall P l → ∃ pre r post, l = pre ++ r :: post ∧ Forall P pre ∧ ¬ P r.
Proof.
  induction l as [|x l IH]; intros Hnot.
  - destruct Hnot. constructor.
  - destruct (decide (P x)) as [Hx|Hx].
    + destruct IH as (pre & r & post & -> & Hpre & Hr).
      { intros Hl. apply Hnot. by constructor. }
      exists (x :: pre), r, post. split_and!; [done|by constructor|done].
    + exists [], x, l. split_and!; [done|constructor|done].
Qed.

(** The callback of [ScriptList] returns on a script that carries a
    default language system, and throws the fault that names the tag on
    a script that carries none. *)
Lemma ScriptList_run (scriptListTable : list ScriptRecord) :
  (Forall hasDefaultLangSys scriptListTable → ∃ t, ScriptList scriptListTable = Normal t)
  ∧ (∀ pre r post,
       scriptListTable = pre ++ r :: post →
       Forall hasDefaultLangSys pre →
       defaultLangSys (script r) = None →
       ScriptList scriptListTable = Throw (missingDefaultLangSys (scriptTag r))).
Proof.
  assert (Hok : ∀ (r : ScriptRecord) (j : nat), hasDefaultLangSys r →
    ∃ fs, match defaultLangSys (script r) with
          | None => fail (missingDefaultLangSys (scriptTag r))
          | Some d =>
              langSysFields' ← recordList "langSys" (langSysRecords (script r))
                (λ langSysRecord i,
                   Normal
                     [{| name := "langSysTag" +:+ pretty i; type := "TAG";
                         value := TStr (langSysTag langSysRecord) |};
                      {| name := "langSys" +:+ pretty i; type := "TABLE";
                         value := TTable (new_Table "langSys"
                                    (langSysFields (langSys langSysRecord)) None) |}]);
              Normal
                [{| name := "scriptTag" +:+ pretty j; type := "TAG";
                    value := TStr (scriptTag r) |};
                 {| name := "script" +:+ pretty j; type := "TABLE";
                    value := TTable (new_Table "scriptTable"
                      ({| name := "defaultLangSys"; type := "TABLE";
                          value := TTable (new_Table "defaultLangSys"
                                     (langSysFields d) None) |}
                         :: langSysFields') None) |}]
          end = Normal fs).
  { intros r j [d Hd]. rewrite Hd. unfold recordList.
    edestruct (recordList_from_total (A := LangSysRecord)) as [fs Hfs];
      [|rewrite Hfs; by eexists].
    intros; by eexists. }
  split.
  - intros Hall. unfold ScriptList, recordList.
    edestruct (recordList_from_total (A := ScriptRecord)) as [fs Hfs];
      [|rewrite Hfs; by eexists].
    intros r j Hr. apply Hok. rewrite Forall_forall in Hall. by apply Hall.
  - intros pre r post -> Hpre Hr. unfold ScriptList, recordList.
    erewrite recordList_from_throw; [done| |].
    + intros x j Hx. apply Hok. rewrite Forall_forall in Hpre. by apply Hpre.
    + intros j. by rewrite Hr.
Qed.

(** C8.  [new ScriptList(scriptListTable)] returns a table exactly when
    every script record carries a default language system; otherwise it
    throws, at the first script record that carries none, the [Error]
    whose message names the tag of that script. *)
Theorem ScriptList_requires_defaultLangSys (scriptListTable : list ScriptRecord) :
  ((∃ t, ScriptList scriptListTable = Normal t)
     ↔ Forall hasDefaultLangSys scriptListTable)
  ∧ (∀ pre r post,
       scriptListTable = pre ++ r :: post →
       Forall hasDefaultLangSys pre →
       defaultLangSys (script r) = None →
       ScriptList scriptListTable = Throw (missingDefaultLangSys (scriptTag r)))
  ∧ (¬ Forall hasDefaultLangSys scriptListTable →
       ∃ r, r ∈ scriptListTable ∧ defaultLangSys (script r) = None
            ∧ ScriptList scriptListTable = Throw (missingDefaultLangSys (scriptTag r))).
Proof.
  destruct (ScriptList_run scriptListTable) as [Hok Hthrow].
  assert (Hfirst : ¬ Forall hasDefaultLangSys scriptListTable →
    ∃ r, r ∈ scriptListTable ∧ defaultLangSys (script r) = None
         ∧ ScriptList scriptListTable = Throw (missingDefaultLangSys (scriptTag r))).
  { intros Hnot. apply first_failure in Hnot as (pre & r & post & Heq & Hpre & Hr);
      [|intros x; unfold hasDefaultLangSys; apply _].
    assert (Hnone : defaultLangSys (script r) = None).
    { unfold hasDefaultLangSys in Hr. destruct (defaultLangSys (script r)); [|done].
      destruct Hr. by eexists. }
    exists r. split_and!; [|done|by eapply Hthrow].
    rewrite Heq. apply elem_of_app. right. by left. }
  split_and!; [|done|done].
  split; [|done]. intros [t Ht].
  destruct (decide (Forall hasDefaultLangSys scriptListTable)) as [|Hnot]; [done|].
  destruct (Hfirst Hnot) as (r & _ & _ & Habs). by rewrite Habs in Ht.
Qed.

Lemma ScriptList_requires_defaultLangSys_witness :
  Forall hasDefaultLangSys [{| scriptTag := "DFLT"; script := newScript |}]
  ∧ defaultLangSys {| defaultLangSys := None; langSysRecords := [] |} = None
  ∧ ScriptList brokenScriptList
      = Throw "Unable to write GSUB: script latn has no default language system."
  ∧ ∃ t, ScriptList (scripts createDefaultTable) = Normal t.
Proof.
  assert (Hdflt : Forall hasDefaultLangSys
                    [{| scriptTag := "DFLT"; script := newScript |}]).
  { constructor; [by eexists|constructor]. }
  split_and!; [exact Hdflt|reflexivity| |].
  - destruct (ScriptList_requires_defaultLangSys brokenScriptList) as (_ & Hthrow & _).
    apply (Hthrow [{| scriptTag := "DFLT"; script := newScript |}]
             {| scriptTag := "latn";
                script := {| defaultLangSys := None; langSysRecords := [] |} |} []
             eq_refl Hdflt eq_refl).
  - destruct (ScriptList_requires_defaultLangSys (scripts createDefaultTable))
      as ([_ Hok] & _).
    apply Hok. exact Hdflt.
Defined.

(* ================================================================== *)
(** * The constructor of Table *)
(* ================================================================== *)

Lemma own_set_eq this k v : own (set this k v) k = Some v.
Proof.
  unfold own, set. destruct (String.eqb k "tableName") eqn:E1; [done|].
  destruct (String.eqb k "fields") eqn:E2; [done|]. simpl. apply lookup_insert_eq.
Qed.

Lemma own_set_ne this k k' v : k ≠ k' → own (set this k v) k' = own this k'.
Proof.
  intros Hne. unfold own, set.
  destruct (String.eqb k "tableName") eqn:E1;
    [|destruct (String.eqb k "fields") eqn:E2]; simpl.
  - apply String.eqb_eq in E1 as ->.
    rewrite (proj2 (String.eqb_neq k' "tableName")); [done|congruence].
  - apply String.eqb_eq in E2 as ->.
    destruct (String.eqb k' "tableName"); [done|].
    rewrite (proj2 (String.eqb_neq k' "fields")); [done|congruence].
  - destruct (String.eqb k' "tableName"); [done|].
    destruct (String.eqb k' "fields"); [done|].
    by apply lookup_insert_ne.
Qed.

Lemma get_set_ne this k k' v : k ≠ k' → get (set this k v) k' = get this k'.
Proof. intros Hne. unfold get. by rewrite own_set_ne. Qed.

Lemma is_undefined_spec v : is_undefined v = true ↔ v = TUndef.
Proof. by destruct v. Qed.

Lemma optionOf_None k options : k ∉ options.*1 → optionOf k options = None.
Proof.
  induction options as [|[k' v] options IH]; simpl; [done|].
  intros Hnot. apply not_elem_of_cons in Hnot as [Hne Hnot].
  rewrite (proj2 (String.eqb_neq k' k)) by done. by apply IH.
Qed.

Lemma optionOf_elem k v options :
  NoDup options.*1 → (k, v) ∈ options → optionOf k options = Some v.
Proof.
  induction options as [|[k' v'] options IH]; simpl; intros Hdup Hin.
  - by apply elem_of_nil in Hin.
  - apply NoDup_cons in Hdup as [Hk' Hdup].
    apply elem_of_cons in Hin as [[= <- <-]|Hin].
    + by rewrite String.eqb_refl.
    + rewrite (proj2 (String.eqb_neq k' k)); [by apply IH|].
      intros ->. apply Hk'. apply list_elem_of_fmap. by exists (k, v).
Qed.

(** The overlay, key by key: a key of [options] replaces the property
    when [this[k]] is not [undefined] and is ignored otherwise. *)
Lemma own_overlay options this k :
  NoDup options.*1 →
  own (overlay options this) k =
    match optionOf k options with
    | Some v => if is_undefined (get this k) then own this k else Some v
    | None => own this k
    end.
Proof.
  revert this. induction options as [|[k' v'] options IH]; intros this Hdup; [done|].
  apply NoDup_cons in Hdup as [Hk' Hdup]. simpl.
  unfold overlay in *. simpl. rewrite IH by done.
  destruct (String.eqb_spec k' k) as [->|Hne].
  - rewrite optionOf_None by done.
    destruct (is_undefined (get this k)); [done|]. apply own_set_eq.
  - destruct (is_undefined (get this k')).
    + done.
    + by rewrite get_set_ne, own_set_ne.
Qed.

Lemma props_seed fs this k :
  String.eqb k "tableName" = false → String.eqb k "fields" = false →
  props (seed fs this) !! k =
    match seededValue k fs with
    | Some v => Some v
    | None => props this !! k
    end.
Proof.
  intros E1 E2. unfold seededValue, seed.
  induction fs as [|field fs IH] using rev_ind; [done|].
  rewrite foldl_snoc, filter_app.
  assert (Hown : ∀ t, own t k = props t !! k)
    by (intros t; unfold own; by rewrite E1, E2).
  rewrite <- Hown. simpl.
  rewrite filter_cons, filter_nil. case_decide as Hname.
  - rewrite last_snoc. simpl. rewrite <- Hname. apply own_set_eq.
  - rewrite app_nil_r, own_set_ne by done. rewrite Hown. apply IH.
Qed.

(** The own properties when the constructor reaches the overlay. *)
Lemma own_seeded tableName' fs k :
  own (seeded tableName' fs) k =
    if String.eqb k "tableName" then Some (TStr tableName')
    else if String.eqb k "fields" then Some (TFields fs)
    else seededValue k fs.
Proof.
  unfold own, seeded. simpl.
  destruct (String.eqb k "tableName") eqn:E1; [done|].
  destruct (String.eqb k "fields") eqn:E2; [done|].
  rewrite props_seed by done. destruct (seededValue k fs); [done|].
  apply lookup_empty.
Qed.

(** C9, as the constructor has it.  The fields seed the own properties:
    [tableName] and [fields] hold the arguments, any other name holds the
    value of the last field of that name.  Then a key of [options]
    replaces the value of its property when [this[k]], own or inherited,
    is not [undefined]; a key whose property is absent or holds
    [undefined] is ignored, and so is every name that is no key of
    [options]: the instance keeps what the seeding gave it. *)
Theorem Table_constructor_contract (tableName' : string) (fs : list Field)
    (options : list (string * tvalue)) (k : string) :
  NoDup options.*1 →
  own (seeded tableName' fs) k
    = (if String.eqb k "tableName" then Some (TStr tableName')
       else if String.eqb k "fields" then Some (TFields fs)
       else seededValue k fs)
  ∧ new_Table tableName' fs None = seeded tableName' fs
  ∧ (∀ v, (k, v) ∈ options → get (seeded tableName' fs) k ≠ TUndef →
       own (new_Table tableName' fs (Some options)) k = Some v)
  ∧ (∀ v, (k, v) ∈ options → get (seeded tableName' fs) k = TUndef →
       own (new_Table tableName' fs (Some options)) k = own (seeded tableName' fs) k)
  ∧ (k ∉ options.*1 →
       own (new_Table tableName' fs (Some options)) k = own (seeded tableName' fs) k).
Proof.
  intros Hdup. split_and!.
  - apply own_seeded.
  - done.
  - intros v Hin Hdef. unfold new_Table. rewrite own_overlay by done.
    rewrite (optionOf_elem _ _ _ Hdup Hin).
    destruct (is_undefined _) eqn:E; [|done]. by apply is_undefined_spec in E.
  - intros v Hin Hundef. unfold new_Table. rewrite own_overlay by done.
    rewrite (optionOf_elem _ _ _ Hdup Hin). rewrite Hundef. done.
  - intros Hnot. unfold new_Table. rewrite own_overlay by done.
    by rewrite optionOf_None.
Qed.

Lemma Table_constructor_contract_witness :
  NoDup [("a", TNum 1); ("b", TNum 2); ("c", TNum 3); ("encode", TNum 4)].*1
  ∧ own (new_Table "t"
           [{| name := "a"; type := "USHORT"; value := TNum 7 |};
            {| name := "c"; type := "USHORT"; value := TUndef |}]
           (Some [("a", TNum 1); ("b", TNum 2); ("c", TNum 3); ("encode", TNum 4)])) "a"
      = Some (TNum 1).
Proof.
  assert (Hdup : NoDup [("a", TNum 1); ("b", TNum 2); ("c", TNum 3);
                        ("encode", TNum 4)].*1).
  { by apply (bool_decide_unpack _). }
  split; [exact Hdup|].
  destruct (Table_constructor_contract "t"
              [{| name := "a"; type := "USHORT"; value := TNum 7 |};
               {| name := "c"; type := "USHORT"; value := TUndef |}]
              [("a", TNum 1); ("b", TNum 2); ("c", TNum 3); ("encode", TNum 4)]
              "a" Hdup) as (_ & _ & Hreplace & _).
  apply Hreplace; [apply list_elem_of_here|by vm_compute].
Defined.

(** The claim C9 as it is worded fails: a property that is present, with
    the value [undefined], is not replaced by the option of its name. *)
Lemma present_undefined_property_is_not_replaced :
  ¬ (∀ (tableName' : string) (fs : list Field) (options : list (string * tvalue))
       (k : string) (v : tvalue),
       NoDup options.*1 → (k, v) ∈ options →
       is_Some (own (seeded tableName' fs) k) →
       own (new_Table tableName' fs (Some options)) k = Some v).
Proof.
  intros H.
  assert (Hdup : NoDup [("a", TNum 1)].*1) by apply NoDup_singleton.
  assert (Hin : ("a", TNum 1) ∈ [("a", TNum 1)]) by apply list_elem_of_here.
  assert (Hsome : is_Some (own (seeded "t"
             [{| name := "a"; type := "USHORT"; value := TUndef |}]) "a"))
    by (exists TUndef; by vm_compute).
  specialize (H "t" [{| name := "a"; type := "USHORT"; value := TUndef |}]
                [("a", TNum 1)] "a" (TNum 1) Hdup Hin Hsome).
  by vm_compute in H.
Qed.

(* ================================================================== *)
(** * The size of an encoded table *)
(* ================================================================== *)

(** Induction on a value through the field lists of the tables. *)
Lemma tvalue_fields_ind (P : tvalue → Prop) :
  P TUndef → (∀ n, P (TNum n)) → (∀ s, P (TStr s)) → (∀ m, P (TFun m)) →
  (∀ fs, Forall (λ field, P (value field)) fs → P (TFields fs)) →
  (∀ t, P (fields t) → P (TTable t)) →
  ∀ v, P v.
Proof.
  intros HU HN HS HM HF HT. fix IH 1. intros [|n|s|m|fs|t].
  - exact HU.
  - exact (HN n).
  - exact (HS s).
  - exact (HM m).
  - refine (HF fs ((fix go (l : list Field) : Forall (λ field, P (value field)) l :=
                      match l with
                      | [] => Forall_nil_2 _
                      | field :: l' => Forall_cons_2 _ _ _ (IH (value field)) (go l')
                      end) fs)).
  - exact (HT t (IH (fields t))).
Qed.

(** Induction on a table through the values of its fields. *)
Lemma tvalue_table_ind (P : tvalue → Prop) :
  P TUndef → (∀ n, P (TNum n)) → (∀ s, P (TStr s)) → (∀ m, P (TFun m)) →
  (∀ fs, P (TFields fs)) →
  (∀ t, (∀ fs, fields t = TFields fs → Forall (λ field, P (value field)) fs) →
        P (TTable t)) →
  ∀ v, P v.
Proof.
  intros HU HN HS HM HF HT v.
  cut (P v ∧ ∀ fs, v = TFields fs → Forall (λ field, P (value field)) fs);
    [by intros [H _]|].
  induction v as [| | | |fs IH|t IH] using tvalue_fields_ind; try done.
  - split; [apply HF|]. intros fs' [= <-].
    eapply Forall_impl; [exact IH|]. by intros field [H _].
  - split; [|done]. apply HT. apply IH.
Qed.

Lemma encodeTABLE_unfold t :
  encodeTABLE (TTable t) =
    match fields t with
    | TFields fs => parts ← encodeFields fs; assemble parts
    | _ => Normal []
    end.
Proof.
  simpl. by destruct (fields t).
Qed.

Lemma sizeOfTABLE_unfold t :
  sizeOfTABLE (TTable t) =
    match fields t with
    | TFields fs => sizeOfFields fs
    | _ => Normal 0%nat
    end.
Proof.
  simpl. by destruct (fields t).
Qed.

Lemma length_be_bytes n v : length (be_bytes n v) = n.
Proof. unfold be_bytes. by rewrite length_fmap, length_seq. Qed.

Lemma length_char_codes s : length (char_codes s) = String.length s.
Proof. induction s as [|c s IH]; simpl; [done|]. by rewrite IH. Qed.

Lemma encode_int_length n lo hi v b : encode_int n lo hi v = Normal b → length b = n.
Proof.
  unfold encode_int. destruct v; try done.
  case_match; [|done]. intros [= <-]. apply length_be_bytes.
Qed.

Lemma encode_chars_length n v b :
  encode_chars (Some n) v = Normal b → length b = n.
Proof.
  unfold encode_chars. destruct v as [| |s| | |]; try done.
  destruct (Nat.eqb_spec (String.length s) n) as [<-|]; [|done].
  intros [= <-]. apply length_char_codes.
Qed.

(** The size of a primitive is the length of its encoding. *)
Lemma encode_scalar_size ty v b :
  encode_scalar ty v = Normal b → sizeOf_scalar ty v = Normal (length b).
Proof.
  unfold encode_scalar, sizeOf_scalar. intros Hb.
  repeat case_match; simplify_eq; try done;
    try (f_equal; symmetry;
         first [by eapply encode_int_length | by eapply encode_chars_length]).
  all: simpl in Hb; simplify_eq; by rewrite length_char_codes.
Qed.

Lemma emitHead_Nested b parts offset :
  emitHead (Nested b :: parts) offset =
    (o ← encode_int 2 0 65536 (TNum (Z.of_nat offset));
     rest ← emitHead parts (offset + length b);
     Normal (o ++ rest)).
Proof. done. Qed.

Lemma emitHead_length parts offset head :
  emitHead parts offset = Normal head → length head = headLength parts.
Proof.
  revert offset head. unfold headLength.
  induction parts as [|[b|b] parts IH]; intros offset head.
  - by intros [= <-].
  - simpl. destruct (emitHead parts offset) as [rest| |] eqn:Hrest; simpl; try done.
    intros [= <-]. rewrite length_app. f_equal. by eapply IH.
  - rewrite emitHead_Nested.
    destruct (encode_int 2 0 65536 (TNum (Z.of_nat offset))) as [o| |] eqn:Ho;
      [|done|done].
    destruct (emitHead parts (offset + length b)) as [rest| |] eqn:Hrest; [|done|done].
    intros [= <-]. rewrite length_app, fmap_cons. simpl.
    rewrite (encode_int_length _ _ _ _ _ Ho), (IH _ _ Hrest). done.
Qed.

Lemma nestedBytes_length parts :
  (headLength parts + length (nestedBytes parts))%nat = sum_list (partSize <$> parts).
Proof.
  induction parts as [|p parts IH]; [done|].
  change (headLength (p :: parts))
    with (match p with Inline b => length b | Nested _ => 2 end + headLength parts)%nat.
  change (nestedBytes (p :: parts))
    with (match p with Inline _ => [] | Nested b => b end ++ nestedBytes parts).
  rewrite fmap_cons, length_app.
  change (sum_list (partSize p :: (partSize <$> parts)))
    with (partSize p + sum_list (partSize <$> parts))%nat.
  destruct p; simpl; lia.
Qed.

Lemma assemble_length parts bytes :
  assemble parts = Normal bytes → length bytes = sum_list (partSize <$> parts).
Proof.
  unfold assemble.
  destruct (emitHead parts (headLength parts)) as [head| |] eqn:Hhead; simpl; try done.
  intros [= <-]. rewrite length_app, (emitHead_length _ _ _ Hhead).
  apply nestedBytes_length.
Qed.

(** The size of a table is the length of its encoding, for every value
    the engine encodes. *)
Lemma encodeFields_size fs :
  Forall (λ field, ∀ bytes, encodeTABLE (value field) = Normal bytes →
            sizeOfTABLE (value field) = Normal (length bytes)) fs →
  ∀ parts, encodeFields fs = Normal parts →
    sizeOfFields fs = Normal (sum_list (partSize <$> parts)).
Proof.
  induction 1 as [|field fs Hfield _ IH]; intros parts; simpl.
  - by intros [= <-].
  - destruct (encodeField field) as [p| |] eqn:Hp; simpl; try done.
    destruct (encodeFields fs) as [ps| |] eqn:Hps; simpl; try done.
    intros [= <-]. rewrite (IH ps eq_refl). simpl.
    assert (sizeOfField field = Normal (partSize p)) as ->; [|done].
    unfold encodeField, sizeOfField in *.
    destruct (String.eqb (type field) "TABLE").
    + destruct (encodeTABLE (value field)) as [b| |] eqn:Hb; simplify_eq/=.
      by rewrite (Hfield b eq_refl).
    + destruct (encode_scalar (type field) (value field)) as [b| |] eqn:Hb;
        simplify_eq/=. by apply encode_scalar_size.
Qed.

Lemma encodeTABLE_size v :
  ∀ bytes, encodeTABLE v = Normal bytes → sizeOfTABLE v = Normal (length bytes).
Proof.
  induction v as [| | | | |t IH] using tvalue_table_ind; try done.
  intros bytes. rewrite encodeTABLE_unfold, sizeOfTABLE_unfold.
  destruct (fields t) as [| | | |fs|]; try by intros [= <-].
  destruct (encodeFields fs) as [parts| |] eqn:Hparts; simpl; try done.
  intros Hbytes. rewrite (encodeFields_size fs (IH fs eq_refl) parts Hparts).
  by rewrite (assemble_length _ _ Hbytes).
Qed.

(** C2.  For every table, whenever [encode] returns its bytes, [sizeOf]
    returns their number. *)
Theorem encode_length_is_sizeOf (t : Table) (bytes : list Z) :
  encode t = Normal bytes → sizeOf t = Normal (length bytes).
Proof. apply encodeTABLE_size. Qed.

Lemma encode_length_is_sizeOf_witness :
  encode defaultScriptList
    = Normal [0; 1; 68; 70; 76; 84; 0; 8; 0; 4; 0; 0; 0; 0; 255; 255; 0; 0]
  ∧ sizeOf defaultScriptList = Normal 18%nat.
Proof.
  split; [reflexivity|].
  apply (encode_length_is_sizeOf defaultScriptList
           [0; 1; 68; 70; 76; 84; 0; 8; 0; 4; 0; 0; 0; 0; 255; 255; 0; 0]).
  reflexivity.
Defined.

(* ================================================================== *)
(** * The creating resolution is found again *)
(* ================================================================== *)

Lemma find_index_insert_same {A} (p : A → bool) (l : list A) (i : nat) (x : A) :
  find_index p l = Some i → p x = true → find_index p (<[i := x]> l) = Some i.
Proof.
  revert i. induction l as [|a l IH]; intros i; simpl; [done|].
  destruct (p a) eqn:Hpa.
  - intros [= <-] Hx. simpl. by rewrite Hx.
  - destruct (find_index p l) as [k|] eqn:Hk; [|done].
    intros [= <-] Hx. simpl. rewrite Hpa. by rewrite (IH k eq_refl Hx).
Qed.

Lemma find_index_snoc_new {A} (p : A → bool) (l : list A) (x : A) :
  find_index p l = None → p x = true → find_index p (l ++ [x]) = Some (length l).
Proof.
  induction l as [|a l IH]; simpl; intros Hnone Hx.
  - by rewrite Hx.
  - destruct (p a); [done|]. destruct (find_index p l); [done|].
    by rewrite IH.
Qed.

Lemma find_index_lt {A} (p : A → bool) (l : list A) (i : nat) :
  find_index p l = Some i → (i < length l)%nat.
Proof.
  intros H. apply find_index_Some in H as (x & Hx & _). by eapply lookup_lt_Some.
Qed.

(** After [putScript] the script is found under its name. *)
Lemma find_index_putScript scs name' s :
  ∃ i, find_index (λ r, String.eqb (scriptTag r) name') (putScript scs name' s) = Some i
       ∧ putScript scs name' s !! i = Some {| scriptTag := name'; script := s |}.
Proof.
  unfold putScript.
  destruct (find_index (λ r, String.eqb (scriptTag r) name') scs) as [i|] eqn:Hfind.
  - exists i. split.
    + apply find_index_insert_same; [done|]. apply String.eqb_refl.
    + apply list_lookup_insert_eq. by eapply find_index_lt.
  - exists (length scs). split.
    + apply find_index_snoc_new; [done|]. apply String.eqb_refl.
    + by apply list_lookup_middle.
Qed.

Lemma scriptTag_putScript scs name' s :
  scriptTag <$> putScript scs name' s =
    match find_index (λ r, String.eqb (scriptTag r) name') scs with
    | Some _ => scriptTag <$> scs
    | None => (scriptTag <$> scs) ++ [name']
    end.
Proof.
  unfold putScript.
  destruct (find_index (λ r, String.eqb (scriptTag r) name') scs) as [i|] eqn:Hfind.
  - apply find_index_Some in Hfind as (r & Hr & Htag & _).
    apply String.eqb_eq in Htag.
    rewrite list_fmap_insert. simpl. apply list_insert_id.
    by rewrite list_lookup_fmap, Hr, <- Htag.
  - by rewrite fmap_app.
Qed.

Lemma find_index_fmap {A B} (g : A → B) (p : B → bool) (l : list A) :
  find_index p (g <$> l) = find_index (λ x, p (g x)) l.
Proof.
  induction l as [|a l IH]; [done|]. rewrite fmap_cons.
  change (find_index p (g a :: (g <$> l)))
    with (if p (g a) then Some 0%nat else S <$> find_index p (g <$> l)).
  by rewrite IH.
Qed.

Lemma scriptName_tags script gs :
  scriptName script gs = scriptNameOf script (scriptTag <$> scripts gs).
Proof.
  unfold scriptName, scriptNameOf. destruct script; [done|].
  rewrite find_index_fmap. by destruct (scripts gs).
Qed.

(** Storing a script under the name the resolution gives leaves that
    name as it is. *)
Lemma scriptName_putScript script gs gs' s :
  scripts gs' = putScript (scripts gs) (scriptName script gs) s →
  scriptName script gs' = scriptName script gs.
Proof.
  intros Hscs. rewrite (scriptName_tags script gs'), Hscs, scriptTag_putScript.
  rewrite (scriptName_tags script gs).
  set (tags := scriptTag <$> scripts gs).
  assert (Hfind : find_index (λ r, String.eqb (scriptTag r) (scriptNameOf script tags))
                    (scripts gs)
                  = find_index (λ t, String.eqb t (scriptNameOf script tags)) tags)
    by (unfold tags; by rewrite find_index_fmap).
  rewrite Hfind. clearbody tags. clear Hfind Hscs.
  destruct script as [n|]; [done|]. unfold scriptNameOf.
  destruct (find_index (λ t, String.eqb t "DFLT") tags) as [i|] eqn:HD.
  - by rewrite !HD.
  - destruct tags as [|t tags]; [done|].
    change (find_index (λ t0, String.eqb t0 t) (t :: tags))
      with (if String.eqb t t then Some 0%nat
            else S <$> find_index (λ t0, String.eqb t0 t) tags).
    rewrite String.eqb_refl. by rewrite HD.
Qed.

Lemma getScriptTable_putScript gs gs' name' s :
  scripts gs' = putScript (scripts gs) name' s → getScriptTable gs' name' = Some s.
Proof.
  intros Hscs. unfold getScriptTable. rewrite Hscs.
  destruct (find_index_putScript (scripts gs) name' s) as (i & -> & Hi).
  simpl. by rewrite Hi.
Qed.

Lemma getLangSysTable_putLangSys s language ls :
  getLangSysTable (putLangSys s language ls) language = Some ls.
Proof.
  unfold getLangSysTable, putLangSys. destruct (isDefaultLanguage language); [done|].
  simpl.
  destruct (find_index (λ r, String.eqb (langSysTag r) (languageName language))
              (langSysRecords s)) as [j|] eqn:Hfind.
  - rewrite (find_index_insert_same _ _ _ _ Hfind) by apply String.eqb_refl.
    simpl. rewrite list_lookup_insert_eq; [done|]. by eapply find_index_lt.
  - rewrite (find_index_snoc_new _ _ _ Hfind) by apply String.eqb_refl.
    simpl. by rewrite list_lookup_middle.
Qed.

Lemma hasFeatureTag_alter feats li fi tag j :
  hasFeatureTag (alter (pushLookupIndex li) fi feats) tag j = hasFeatureTag feats tag j.
Proof.
  unfold hasFeatureTag. destruct (decide (fi = j)) as [->|Hne].
  - rewrite list_lookup_alter_eq. by destruct (feats !! j).
  - by rewrite list_lookup_alter_ne.
Qed.

Lemma find_index_ext {A} (p q : A → bool) (l : list A) :
  (∀ x, x ∈ l → p x = q x) → find_index p l = find_index q l.
Proof.
  induction l as [|a l IH]; intros H; simpl; [done|].
  rewrite (H a) by by left. rewrite IH; [done|]. intros x Hx. apply H. by right.
Qed.

Lemma getFeatureIndex_Some gs ls tag fi :
  getFeatureIndex gs ls tag = Some fi →
  fi ∈ featureIndexes ls ∧ hasFeatureTag (features gs) tag fi = true.
Proof.
  unfold getFeatureIndex.
  destruct (find_index _ (featureIndexes ls)) as [i|] eqn:Hfind; [|done]. simpl.
  apply find_index_Some in Hfind as (x & Hx & Hpx & _). rewrite Hx. intros [= <-].
  split; [|done]. by eapply list_elem_of_lookup_2.
Qed.

Lemma getFeatureIndex_None gs ls tag :
  getFeatureIndex gs ls tag = None →
  ∀ j, j ∈ featureIndexes ls → hasFeatureTag (features gs) tag j = false.
Proof.
  unfold getFeatureIndex.
  destruct (find_index _ (featureIndexes ls)) as [i|] eqn:Hfind; simpl.
  - apply find_index_Some in Hfind as (x & Hx & _). by rewrite Hx.
  - intros _. by apply find_index_None.
Qed.

(** Among feature indexes that all satisfy [p] on one value only, the
    search gives that value. *)
Lemma getFeatureIndex_unique gs ls tag n :
  n ∈ featureIndexes ls →
  hasFeatureTag (features gs) tag n = true →
  (∀ j, j ∈ featureIndexes ls → hasFeatureTag (features gs) tag j = true → j = n) →
  getFeatureIndex gs ls tag = Some n.
Proof.
  intros Hin Hn Honly. unfold getFeatureIndex.
  destruct (find_index _ (featureIndexes ls)) as [i|] eqn:Hfind; simpl.
  - apply find_index_Some in Hfind as (x & Hx & Hpx & _). rewrite Hx. f_equal.
    apply Honly; [|done]. by eapply list_elem_of_lookup_2.
  - assert (hasFeatureTag (features gs) tag n = false); [|congruence].
    revert Hin. by apply find_index_None.
Qed.

Lemma hasLookupType_snoc lks lt ty li :
  (li < length lks)%nat → hasLookupType (lks ++ [lt]) ty li = hasLookupType lks ty li.
Proof. intros H. unfold hasLookupType. by rewrite lookup_app_l. Qed.

Lemma hasLookupType_new lks ty :
  hasLookupType (lks ++ [newLookupTable ty]) ty (length lks) = true.
Proof.
  unfold hasLookupType. rewrite list_lookup_middle by done. simpl. apply Z.eqb_refl.
Qed.

(** The lookup tables a feature lists, none of the type: with the fresh
    table at the end of the store and its index at the end of the list,
    the fresh table is the one table of the type. *)
Lemma filter_fresh lks ty old :
  Forall (λ li, (li < length lks)%nat) old →
  filter (λ li, hasLookupType lks ty li = true) old = [] →
  filter (λ li, hasLookupType (lks ++ [newLookupTable ty]) ty li = true)
         (old ++ [length lks])
    = [length lks].
Proof.
  intros Hwf Hnone. rewrite filter_app.
  assert (filter (λ li, hasLookupType (lks ++ [newLookupTable ty]) ty li = true)
                 [length lks] = [length lks]) as ->.
  { rewrite filter_cons_True; [done|]. apply hasLookupType_new. }
  assert (filter (λ li, hasLookupType (lks ++ [newLookupTable ty]) ty li = true) old = [])
    as ->; [|done].
  induction old as [|x old IH]; [done|].
  apply Forall_cons in Hwf as [Hx Hold].
  rewrite filter_cons in Hnone. case_decide as Hp; [done|].
  rewrite filter_cons_False; [by apply IH|].
  by rewrite hasLookupType_snoc.
Qed.

Lemma getLangSysTable_newScript language :
  default newLangSys (getLangSysTable newScript language) = newLangSys.
Proof. unfold getLangSysTable. by destruct (isDefaultLanguage language). Qed.

(** The resolution finds the lookup table the creating path has wired,
    and no other. *)
Lemma findLookupTables_wire gs script language tag ty :
  wf_lookupIndexes gs →
  findLookupTables gs script language tag ty = [] →
  findLookupTables (wireLookupTable gs script language tag ty).1 script language tag ty
    = [length (lookups gs)].
Proof.
  intros Hwf Hnone. unfold wireLookupTable.
  set (name' := scriptName script gs).
  set (s := default newScript (getScriptTable gs name')).
  set (ls := default newLangSys (getLangSysTable s language)).
  destruct (getFeatureIndex gs ls tag) as [fi|] eqn:Hfi.
  - (* the feature is there *)
    destruct (getFeatureIndex_Some _ _ _ _ Hfi) as [Hin Htag].
    assert (∃ fr, features gs !! fi = Some fr) as [fr Hfr].
    { unfold hasFeatureTag in Htag. destruct (features gs !! fi); [by eexists|done]. }
    assert (Hs : getScriptTable gs name' = Some s).
    { unfold ls, s in *. destruct (getScriptTable gs name') as [s0|] eqn:E; [done|].
      simpl in Hfi. by rewrite getLangSysTable_newScript in Hfi. }
    assert (Hls : getLangSysTable s language = Some ls).
    { unfold ls in *. by destruct (getLangSysTable s language). }
    assert (Hold : filter (λ li, hasLookupType (lookups gs) ty li = true)
                     (lookupListIndexes (feature fr)) = []).
    { revert Hnone. unfold findLookupTables. fold name'. by rewrite Hs, Hls, Hfi, Hfr. }
    simpl.
    set (gs' := {| version := version gs;
                   scripts := putScript (scripts gs) name' (putLangSys s language ls);
                   features := alter (pushLookupIndex (length (lookups gs))) fi
                                 (features gs);
                   lookups := lookups gs ++ [newLookupTable ty] |}).
    unfold findLookupTables.
    rewrite (scriptName_putScript script gs gs' (putLangSys s language ls) eq_refl).
    fold name'.
    rewrite (getScriptTable_putScript gs gs' name' _ eq_refl).
    rewrite getLangSysTable_putLangSys.
    assert (getFeatureIndex gs' ls tag = Some fi) as ->.
    { rewrite <- Hfi. unfold getFeatureIndex. simpl.
      erewrite find_index_ext; [done|]. intros; apply hasFeatureTag_alter. }
    simpl. rewrite list_lookup_alter_eq, Hfr. simpl.
    apply filter_fresh; [|done].
    unfold wf_lookupIndexes in Hwf. rewrite Forall_forall in Hwf.
    apply Hwf. by eapply list_elem_of_lookup_2.
  - (* the feature is new *)
    simpl.
    set (n := length (features gs)).
    set (fr := {| featureTag := tag;
                  feature := {| featureParams := 0; lookupListIndexes := [] |} |}).
    set (ls' := {| reserved := reserved ls; reqFeatureIndex := reqFeatureIndex ls;
                   featureIndexes := featureIndexes ls ++ [n] |}).
    set (gs' := {| version := version gs;
                   scripts := putScript (scripts gs) name' (putLangSys s language ls');
                   features := alter (pushLookupIndex (length (lookups gs))) n
                                 (features gs ++ [fr]);
                   lookups := lookups gs ++ [newLookupTable ty] |}).
    unfold findLookupTables.
    rewrite (scriptName_putScript script gs gs' (putLangSys s language ls') eq_refl).
    fold name'.
    rewrite (getScriptTable_putScript gs gs' name' _ eq_refl).
    rewrite getLangSysTable_putLangSys.
    assert (Hn : hasFeatureTag (features gs') tag n = true).
    { simpl. rewrite hasFeatureTag_alter. unfold hasFeatureTag.
      rewrite list_lookup_middle by done. apply String.eqb_refl. }
    assert (getFeatureIndex gs' ls' tag = Some n) as ->.
    { apply getFeatureIndex_unique; [|done|].
      - simpl. apply elem_of_app. right. by left.
      - simpl. intros j Hj. rewrite hasFeatureTag_alter.
        apply elem_of_app in Hj as [Hj|Hj%list_elem_of_singleton]; [|done].
        pose proof (getFeatureIndex_None _ _ _ Hfi j Hj) as Hfalse.
        unfold hasFeatureTag in *. intros Htrue.
        destruct (decide (j < n)%nat) as [Hlt|Hge].
        + rewrite lookup_app_l in Htrue by done. congruence.
        + destruct (decide (j = n)) as [->|Hne]; [done|].
          rewrite lookup_ge_None_2 in Htrue; [done|]. rewrite length_app. simpl.
          unfold n in *. lia. }
    simpl. rewrite list_lookup_alter_eq, list_lookup_middle by done. simpl.
    by apply (filter_fresh (lookups gs) ty []).
Qed.

Lemma hasLookupType_insert lks li lt lt' ty j :
  lks !! li = Some lt → lookupType lt' = lookupType lt →
  hasLookupType (<[li := lt']> lks) ty j = hasLookupType lks ty j.
Proof.
  intros Hli Hty. unfold hasLookupType. destruct (decide (li = j)) as [->|Hne].
  - rewrite list_lookup_insert_eq by (by eapply lookup_lt_Some). by rewrite Hli, Hty.
  - by rewrite list_lookup_insert_ne.
Qed.

Lemma filter_ext_bool {A} (p q : A → bool) (l : list A) :
  (∀ x, p x = q x) → filter (λ x, p x = true) l = filter (λ x, q x = true) l.
Proof.
  intros H. induction l as [|a l IH]; [done|].
  rewrite !filter_cons, IH. repeat case_decide; try done; rewrite H in *; congruence.
Qed.

(** The resolution looks at the store for the types of the lookup
    tables only. *)
Lemma findLookupTables_setLookups gs lks script language tag ty :
  (∀ li, hasLookupType lks ty li = hasLookupType (lookups gs) ty li) →
  findLookupTables (setLookups gs lks) script language tag ty
    = findLookupTables gs script language tag ty.
Proof.
  intros H. unfold findLookupTables.
  change (scriptName script (setLookups gs lks)) with (scriptName script gs).
  change (getScriptTable (setLookups gs lks)) with (getScriptTable gs).
  destruct (getScriptTable gs (scriptName script gs)) as [s|]; [|done].
  destruct (getLangSysTable s language) as [ls|]; [|done].
  change (getFeatureIndex (setLookups gs lks) ls tag) with (getFeatureIndex gs ls tag).
  destruct (getFeatureIndex gs ls tag) as [fi|]; [|done]. simpl.
  destruct (features gs !! fi) as [fr|]; [|done].
  by apply filter_ext_bool.
Qed.

Lemma findLookupTables_default script language tag ty :
  findLookupTables createDefaultTable script language tag ty = [].
Proof.
  unfold findLookupTables. by repeat case_match.
Qed.

Lemma getLookupTables_found script language tag ty f gs lis :
  gsub f = Some gs →
  findLookupTables gs script language tag ty = lis →
  getLookupTables script language tag ty false f = (Normal (lookupRefs gs lis), f).
Proof.
  intros Hgs Hfind. unfold getLookupTables. rewrite Hgs, Hfind. by destruct lis.
Qed.

Lemma getSingle_subtable_fresh g b :
  getSingle_subtable (freshSingle g b) = [{| sub := VNum g; by_ := b |}].
Proof. done. Qed.

(** [addSingle] on a font without a single substitution under the
    feature, then [getSingle]: the list of the one rule. *)
Lemma addSingle_then_getSingle tag g b script language f :
  noSingleYet f script language tag →
  ∃ f', (_ ← addSingle tag {| sub := VNum g; by_ := b |} script language;
         getSingle tag script language) f
        = (Normal [{| sub := VNum g; by_ := b |}], f').
Proof.
  intros Hnone.
  destruct (getLookupTables_create script language tag 1 f)
    as (gs0 & gs1 & li & lt & rest & Ht & Hget & Hlt & Hty & Hcase).
  assert (Hgs0 : wf_lookupIndexes gs0 ∧ findLookupTables gs0 script language tag 1 = []).
  { unfold tableOf in Ht. destruct (gsub f) as [gs|] eqn:Hgs; simplify_eq.
    - by apply Hnone.
    - split; [constructor|apply findLookupTables_default]. }
  destruct Hgs0 as [Hwf Hfind].
  destruct Hcase as [(_ & _ & Habs)|(_ & Hwire & Hl & -> & -> & ->)];
    [by rewrite Hfind in Habs|].
  set (lt2 := setSubtables (newLookupTable 1) [freshSingle g b]).
  set (gs2 := setLookups gs1 (<[length (lookups gs0) := lt2]> (lookups gs1))).
  exists {| gsub := Some gs2 |}.
  assert (Hadd : addSingle tag {| sub := VNum g; by_ := b |} script language f
                 = (Normal tt, {| gsub := Some gs2 |})).
  { unfold addSingle. rewrite (M_bind_Normal _ _ _ _ _ Hget).
    unfold addToFormat, getSubstFormat. simpl.
    unfold mbind, M_bind. rewrite storeLookup_Some. simpl.
    rewrite storeLookup_Some. simpl. by rewrite list_insert_insert_eq. }
  rewrite (M_bind_Normal _ _ _ _ _ Hadd).
  assert (Hfind2 : findLookupTables gs2 script language tag 1 = [length (lookups gs0)]).
  { unfold gs2. rewrite findLookupTables_setLookups.
    - replace gs1 with (wireLookupTable gs0 script language tag 1).1
        by (by rewrite <- Hwire).
      by apply findLookupTables_wire.
    - intros j. by eapply hasLookupType_insert. }
  unfold getSingle.
  rewrite (M_bind_Normal _ _ _ _ _
             (getLookupTables_found _ _ _ _ {| gsub := Some gs2 |} gs2 _ eq_refl Hfind2)).
  unfold lookupRefs, gs2. simpl.
  rewrite list_lookup_insert_eq by (by eapply lookup_lt_Some). done.
Qed.

(** C3.  On a font without a single substitution under "ss01" for the
    default script and language, [addSingle] of 5 -> 9 and then
    [getSingle] return, and the list is the one entry 5 -> 9. *)
Theorem addSingle_then_getSingle_ss01 (f : Font) :
  noSingleYet f None None "ss01" →
  ∃ f', (_ ← addSingle "ss01" {| sub := VNum 5; by_ := VNum 9 |} None None;
         getSingle "ss01" None None) f
        = (Normal [{| sub := VNum 5; by_ := VNum 9 |}], f').
Proof. apply addSingle_then_getSingle. Qed.

Lemma addSingle_then_getSingle_ss01_witness :
  noSingleYet ligatureFont None None "ss01"
  ∧ ∃ f', (_ ← addSingle "ss01" {| sub := VNum 5; by_ := VNum 9 |} None None;
           getSingle "ss01" None None) ligatureFont
          = (Normal [{| sub := VNum 5; by_ := VNum 9 |}], f').
Proof.
  assert (Hnone : noSingleYet ligatureFont None None "ss01").
  { intros gs [= <-]. split; [|reflexivity].
    repeat constructor. }
  split; [exact Hnone|].
  exact (addSingle_then_getSingle_ss01 ligatureFont Hnone).
Defined.

(* ================================================================== *)
(** * A mutation that throws has written nothing *)
(* ================================================================== *)

Lemma storeLookup_same li lt gs :
  lookups gs !! li = Some lt →
  storeLookup li lt {| gsub := Some gs |} = (Normal tt, {| gsub := Some gs |}).
Proof.
  intros H. rewrite storeLookup_Some, list_insert_id by done. by rewrite setLookups_id.
Qed.

(** After the resolution, [addSingle], [addMultiple] and [addAlternate]
    throw on one ground only, the coverage of the subtable they found
    being of another format than 1; the store is then as it was. *)
Lemma addToFormat_throws name' fmt d write rule li lt rest gs msg f' :
  format (coverage d) = 1 →
  lookups gs !! li = Some lt →
  addToFormat name' fmt d write rule ((li, lt) :: rest) {| gsub := Some gs |}
    = (Throw msg, f') →
  f' = {| gsub := Some gs |}
  ∧ ∃ st, st ∈ default [] (subtables lt) ∧ format (coverage st) ≠ 1
          ∧ msg = unableToModify name' (format (coverage st)).
Proof.
  intros Hd Hlt. unfold addToFormat, getSubstFormat.
  set (sts := default [] (subtables lt)).
  destruct (find_index _ sts) as [i|] eqn:Hfind.
  - apply find_index_Some in Hfind as (st & Hst & _ & _).
    rewrite Hst. simpl.
    assert (Heta : setSubtables lt sts = lt).
    { apply lookup_eta. unfold sts in *. destruct (subtables lt); [done|].
      by destruct i. }
    rewrite Heta. unfold mbind, M_bind. rewrite storeLookup_same by done.
    unfold lift, assert, fail.
    destruct (format (coverage st) =? 1) eqn:Hf; simpl.
    + by destruct (sub rule).
    + intros [= <- <-]. split; [done|]. exists st. split_and!; [|by apply Z.eqb_neq|done].
      by eapply list_elem_of_lookup_2.
  - simpl. unfold mbind, M_bind. rewrite storeLookup_Some. unfold lift, assert, fail.
    rewrite Hd. simpl. by destruct (sub rule).
Qed.

Lemma resolve_addToFormat_throws name' fmt d write ty rule feature script language
    f msg f' :
  format (coverage d) = 1 →
  (lookupTables ← getLookupTables script language feature ty true;
   addToFormat name' fmt d write rule lookupTables) f = (Throw msg, f') →
  f' = f ∧ ∃ n, n ≠ 1 ∧ msg = unableToModify name' n.
Proof.
  intros Hd.
  destruct (getLookupTables_create script language feature ty f)
    as (gs0 & gs1 & li & lt & rest & Ht & Hget & Hlt & Hty & Hcase).
  rewrite (M_bind_Normal _ _ _ _ _ Hget). intros Hrun.
  destruct (addToFormat_throws _ _ _ _ _ _ _ _ _ _ _ Hd Hlt Hrun)
    as (-> & st & Hin & Hne & ->).
  destruct Hcase as [(Hf & -> & _)|(_ & _ & _ & _ & -> & _)].
  - split; [|by eauto]. symmetry. by apply font_eta.
  - simpl in Hin. by apply elem_of_nil in Hin.
Qed.

Lemma addLigature_throws feature rule script language f msg f' :
  isArray (sub rule) = true →
  addLigature feature rule script language f = (Throw msg, f') → f' = f.
Proof.
  intros Harr. unfold addLigature.
  destruct (getLookupTables_create script language feature 4 f)
    as (gs0 & gs1 & li & lt & rest & Ht & Hget & Hlt & Hty & Hcase).
  rewrite (M_bind_Normal _ _ _ _ _ Hget).
  destruct Hcase as [(Hf & -> & _)|(_ & _ & _ & _ & -> & _)].
  - apply font_eta in Hf. subst f.
    destruct (subtables lt) as [[|st sts]|] eqn:Hsts.
    + (* no subtable yet: the default one is written without a fault *)
      unfold mbind, M_bind. rewrite storeLookup_Some. unfold lift, assert, fail. simpl.
      by destruct (sub rule) as [| | |items].
    + rewrite (lookup_eta _ _ Hsts).
      unfold mbind, M_bind. rewrite storeLookup_same by done.
      unfold lift, assert, fail.
      destruct (format (coverage st) =? 1); simpl; [|by intros [= <- <-]].
      destruct (sub rule) as [| | |items]; try done.
      destruct (writeLigature st (firstItem items) (tail items) (by_ rule))
        as [[st'|]| |]; simpl; try done; by intros [= <- <-].
    + unfold lift. by intros [= <- <-].
  - simpl. unfold mbind, M_bind. rewrite storeLookup_Some. unfold lift, assert, fail. simpl.
    by destruct (sub rule) as [| | |items].
Qed.

(** X1.  An [add*] method that throws has written nothing: the font is
    as it was before the call.  [addSingle] and [addAlternate] throw on
    one ground only, a coverage of another format than 1 in the subtable
    they found; [addMultiple] also on a [by] that is no array of two or
    more ids, before it resolves anything.  For [addLigature] the rule
    must carry an array under [sub]. *)
Theorem add_that_throws_writes_nothing (feature : string) (rule : Entry)
    (script language : option string) (f f' : Font) (msg : string) :
  (addSingle feature rule script language f = (Throw msg, f') →
     f' = f ∧ ∃ n, n ≠ 1 ∧ msg = unableToModify "Single" n)
  ∧ (addMultiple feature rule script language f = (Throw msg, f') → f' = f)
  ∧ (addAlternate feature rule script language f = (Throw msg, f') →
       f' = f ∧ ∃ n, n ≠ 1 ∧ msg = unableToModify "Alternate" n)
  ∧ (isArray (sub rule) = true →
     addLigature feature rule script language f = (Throw msg, f') → f' = f).
Proof.
  split_and!.
  - by apply resolve_addToFormat_throws.
  - unfold addMultiple. unfold mbind at 1. unfold M_bind, lift, assert, fail.
    destruct (isArrayOfTwoOrMore (by_ rule)).
    + intros H. by apply resolve_addToFormat_throws in H as [-> _].
    + by intros [= <- <-].
  - by apply resolve_addToFormat_throws.
  - apply addLigature_throws.
Qed.

Lemma add_that_throws_writes_nothing_witness :
  addSingle "ss01" {| sub := VNum 2; by_ := VNum 9 |} None None rangeFont
    = (Throw "Single: unable to modify coverage table format 2",
       (addSingle "ss01" {| sub := VNum 2; by_ := VNum 9 |} None None rangeFont).2)
  ∧ (addSingle "ss01" {| sub := VNum 2; by_ := VNum 9 |} None None rangeFont).2
    = rangeFont.
Proof.
  assert (Hrun : addSingle "ss01" {| sub := VNum 2; by_ := VNum 9 |} None None rangeFont
    = (Throw "Single: unable to modify coverage table format 2",
       (addSingle "ss01" {| sub := VNum 2; by_ := VNum 9 |} None None rangeFont).2))
    by reflexivity.
  split; [exact Hrun|].
  destruct (add_that_throws_writes_nothing "ss01" {| sub := VNum 2; by_ := VNum 9 |}
              None None rangeFont
              (addSingle "ss01" {| sub := VNum 2; by_ := VNum 9 |} None None rangeFont).2
              "Single: unable to modify coverage table format 2") as [Hsingle _].
  exact (proj1 (Hsingle Hrun)).
Defined.

(* ================================================================== *)
(** * A subtable as a finite map: what a write changes *)
(* ================================================================== *)

Lemma array_set_insert (pos : nat) (v : jsval) (arr : list jsval) :
  (pos < length arr)%nat → array_set pos v arr = <[pos := v]> arr.
Proof. intros H. unfold array_set. by rewrite decide_True. Qed.

(** The shared body of the three methods is the update of a finite map:
    the glyph is paired with the new entry, every other glyph with the
    entry it had. *)
Lemma insertOrOverwrite_pairs (gl : list item) (arr : list jsval) (g : Z) (by' : jsval) :
  ascending gl → length arr = length gl →
  pairs (insertOrOverwrite gl arr g by').1 (insertOrOverwrite gl arr g by').2 g by'
  ∧ ∀ g' b', g' ≠ g →
      pairs (insertOrOverwrite gl arr g by').1 (insertOrOverwrite gl arr g by').2 g' b'
      ↔ pairs gl arr g' b'.
Proof.
  intros Hasc Hlen. unfold insertOrOverwrite.
  destruct (binSearch_spec gl g Hasc) as [Hf|Hm].
  - rewrite (found_at_nonneg _ _ _ Hf). destruct Hf as [Hr Hg]. simpl.
    set (p := Z.to_nat (binSearch gl (INum g))) in *.
    assert (Hp : (p < length arr)%nat) by (rewrite Hlen; by eapply lookup_lt_Some).
    rewrite array_set_insert by done. split.
    + exists p. split; [done|]. by apply list_lookup_insert_eq.
    + intros g' b' Hne. split; intros (i & Hi & Hb); exists i; (split; [done|]).
      * rewrite list_lookup_insert_ne in Hb; [done|]. intros ->. congruence.
      * rewrite list_lookup_insert_ne; [done|]. intros ->. congruence.
  - rewrite (missing_at_neg _ _ _ Hm). destruct Hm as (p & -> & Hp & Hlo & Hhi).
    replace (Z.to_nat (-1 - (-1 - Z.of_nat p))) with p by lia. simpl.
    assert (Hp' : (p ≤ length arr)%nat) by lia.
    rewrite array_set_insert by (rewrite length_splice_insert; lia).
    assert (Hat : ∀ i, <[p := by']> (splice_insert p (VNum 0) arr) !! i =
              if decide (i < p)%nat then arr !! i
              else if decide (i = p) then Some by' else arr !! (i - 1)%nat).
    { intros i. destruct (decide (i = p)) as [->|Hne].
      - rewrite list_lookup_insert_eq by (rewrite length_splice_insert; lia).
        by rewrite decide_False by lia.
      - rewrite list_lookup_insert_ne by done.
        rewrite lookup_splice_insert by done. repeat case_decide; done || lia. }
    split.
    + exists p. rewrite Hat, lookup_splice_insert by done.
      destruct (decide (p < p)%nat); [lia|]. by rewrite !decide_True.
    + intros g' b' Hne. split.
      * intros (i & Hi & Hb). rewrite Hat in Hb. rewrite lookup_splice_insert in Hi by done.
        destruct (decide (i < p)%nat); [by exists i|].
        destruct (decide (i = p)); [congruence|]. by exists (i - 1)%nat.
      * intros (i & Hi & Hb). destruct (decide (i < p)%nat) as [Hlt|Hge].
        -- exists i. rewrite Hat, lookup_splice_insert by done.
           by rewrite !decide_True.
        -- exists (S i). rewrite Hat, lookup_splice_insert by done.
           destruct (decide (S i < p)%nat); [lia|].
           destruct (decide (S i = p)) as [<-|_]; [lia|].
           by replace (S i - 1)%nat with i by lia.
Qed.

(** The resolution and the write, when the call returns: the rule
    carries a number under [sub], and one position holds the subtable
    that was there (or the default one) with the rule written. *)
Lemma resolve_addToFormat_written name' fmt d write ty rule feature script language
    f f' :
  (lookupTables ← getLookupTables script language feature ty true;
   addToFormat name' fmt d write rule lookupTables) f = (Normal tt, f') →
  ∃ g li si st0,
    sub rule = VNum g
    ∧ (subtableAt f li si = Some (ty, st0) ∧ substFormat st0 = fmt
       ∨ subtableAt f li si = None ∧ st0 = d)
    ∧ format (coverage st0) = 1
    ∧ subtableAt f' li si = Some (ty, write st0 g (by_ rule))
    ∧ ∀ li' si', li' ≠ li ∨ si' ≠ si → subtableAt f' li' si' = subtableAt f li' si'.
Proof.
  destruct (getLookupTables_create_frame script language feature ty f)
    as (gs1 & li & lt & rest & Hget & Hlt & Hty & Hframe).
  rewrite (M_bind_Normal _ _ _ _ _ Hget). intros Hrun.
  destruct (addToFormat_positions _ _ _ _ _ _ _ _ _ _ _ Hlt Hrun)
    as (si & st0 & Hother & Htarget & Hres).
  destruct Hres as [[_ Hne]|(Hfmt & g & Hsub & _ & Hres)]; [done|].
  exists g, li, si, st0. rewrite Hty, Hframe in *. split_and!; [done..|].
  intros li' si' Hpos. rewrite Hother by done. apply Hframe.
Qed.

(** X2.  [addSingle] that returns is the update of a finite map held in
    one subtable.  The rule carries a number under [sub]; the write goes
    to one format-2 subtable of a lookup table of type 1 (found, or
    pushed as the default one); every other subtable of the font is as
    it was.  When the subtable was in order, the glyph is afterwards
    paired with [by], and every other glyph is paired with exactly what
    it was paired with. *)
Theorem addSingle_updates_one_pair (feature : string) (rule : Entry)
    (script language : option string) (f f' : Font) :
  addSingle feature rule script language f = (Normal tt, f') →
  ∃ g li si st st',
    sub rule = VNum g
    ∧ (subtableAt f li si = Some (1, st) ∧ substFormat st = 2
       ∨ subtableAt f li si = None ∧ st = defaultSingle)
    ∧ subtableAt f' li si = Some (1, st')
    ∧ (∀ li' si', li' ≠ li ∨ si' ≠ si → subtableAt f' li' si' = subtableAt f li' si')
    ∧ (in_order 1 st →
         pairs (glyphs (coverage st')) (substitute st') g (by_ rule)
         ∧ ∀ g' b', g' ≠ g →
             pairs (glyphs (coverage st')) (substitute st') g' b'
             ↔ pairs (glyphs (coverage st)) (substitute st) g' b').
Proof.
  intros Hrun. apply resolve_addToFormat_written in Hrun
    as (g & li & si & st & Hsub & Htarget & Hfmt & Hat & Hother).
  exists g, li, si, st, (writeSingle st g (by_ rule)).
  split_and!; [done..|]. intros Horder.
  assert (Hst : substFormat st = 2) by (by destruct Htarget as [[_ ?]|[_ ->]]).
  destruct (Horder Hfmt) as [Hasc Hlen]. unfold parallelLength in Hlen.
  rewrite Hst in Hlen. simpl in Hlen. specialize (Hlen _ eq_refl).
  pose proof (insertOrOverwrite_pairs _ _ g (by_ rule) Hasc Hlen) as Hpairs.
  unfold writeSingle.
  by destruct (insertOrOverwrite (glyphs (coverage st)) (substitute st) g (by_ rule)).
Qed.

Lemma addSingle_updates_one_pair_witness :
  addSingle "ss01" {| sub := VNum 3; by_ := VNum 4 |} None None singleFont
    = (Normal tt,
       (addSingle "ss01" {| sub := VNum 3; by_ := VNum 4 |} None None singleFont).2)
  ∧ ∃ g li si st st',
      VNum 3 = VNum g
      ∧ subtableAt
          (addSingle "ss01" {| sub := VNum 3; by_ := VNum 4 |} None None singleFont).2
          li si = Some (1, st')
      ∧ (in_order 1 st → pairs (glyphs (coverage st')) (substitute st') g (VNum 4)).
Proof.
  assert (Hrun : addSingle "ss01" {| sub := VNum 3; by_ := VNum 4 |} None None singleFont
    = (Normal tt,
       (addSingle "ss01" {| sub := VNum 3; by_ := VNum 4 |} None None singleFont).2))
    by reflexivity.
  split; [exact Hrun|].
  destruct (addSingle_updates_one_pair _ _ _ _ _ _ Hrun)
    as (g & li & si & st & st' & Hsub & _ & Hat & _ & Hpairs).
  exists g, li, si, st, st'. split_and!; [done|done|].
  intros Horder. by destruct (Hpairs Horder).
Defined.

(** X3.  [addMultiple] and [addAlternate] that return are updates of a
    finite map as well, on the array [sequences] and on the array
    [alternateSets] of one format-1 subtable of a lookup table of type 2
    and 3. *)
Theorem addMultiple_addAlternate_update_one_pair (feature : string) (rule : Entry)
    (script language : option string) (f f' : Font) :
  (addMultiple feature rule script language f = (Normal tt, f') →
   ∃ g li si st st',
     sub rule = VNum g
     ∧ (subtableAt f li si = Some (2, st) ∧ substFormat st = 1
        ∨ subtableAt f li si = None ∧ st = defaultFormat1)
     ∧ subtableAt f' li si = Some (2, st')
     ∧ (∀ li' si', li' ≠ li ∨ si' ≠ si → subtableAt f' li' si' = subtableAt f li' si')
     ∧ (in_order 2 st →
          pairs (glyphs (coverage st')) (sequences st') g (by_ rule)
          ∧ ∀ g' b', g' ≠ g →
              pairs (glyphs (coverage st')) (sequences st') g' b'
              ↔ pairs (glyphs (coverage st)) (sequences st) g' b'))
  ∧ (addAlternate feature rule script language f = (Normal tt, f') →
     ∃ g li si st st',
       sub rule = VNum g
       ∧ (subtableAt f li si = Some (3, st) ∧ substFormat st = 1
          ∨ subtableAt f li si = None ∧ st = defaultFormat1)
       ∧ subtableAt f' li si = Some (3, st')
       ∧ (∀ li' si', li' ≠ li ∨ si' ≠ si → subtableAt f' li' si' = subtableAt f li' si')
       ∧ (in_order 3 st →
            pairs (glyphs (coverage st')) (alternateSets st') g (by_ rule)
            ∧ ∀ g' b', g' ≠ g →
                pairs (glyphs (coverage st')) (alternateSets st') g' b'
                ↔ pairs (glyphs (coverage st)) (alternateSets st) g' b')).
Proof.
  split.
  - unfold addMultiple. unfold mbind at 1. unfold M_bind, lift, assert, fail.
    destruct (isArrayOfTwoOrMore (by_ rule)); [|done].
    intros Hrun. apply resolve_addToFormat_written in Hrun
      as (g & li & si & st & Hsub & Htarget & Hfmt & Hat & Hother).
    exists g, li, si, st, (writeMultiple st g (by_ rule)).
    split_and!; [done..|]. intros Horder.
    assert (Hst : substFormat st = 1) by (by destruct Htarget as [[_ ?]|[_ ->]]).
    destruct (Horder Hfmt) as [Hasc Hlen]. unfold parallelLength in Hlen.
    rewrite Hst in Hlen. simpl in Hlen. specialize (Hlen _ eq_refl).
    pose proof (insertOrOverwrite_pairs _ _ g (by_ rule) Hasc Hlen) as Hpairs.
    unfold writeMultiple.
    by destruct (insertOrOverwrite (glyphs (coverage st)) (sequences st) g (by_ rule)).
  - intros Hrun. apply resolve_addToFormat_written in Hrun
      as (g & li & si & st & Hsub & Htarget & Hfmt & Hat & Hother).
    exists g, li, si, st, (writeAlternate st g (by_ rule)).
    split_and!; [done..|]. intros Horder.
    assert (Hst : substFormat st = 1) by (by destruct Htarget as [[_ ?]|[_ ->]]).
    destruct (Horder Hfmt) as [Hasc Hlen]. unfold parallelLength in Hlen.
    rewrite Hst in Hlen. simpl in Hlen. specialize (Hlen _ eq_refl).
    pose proof (insertOrOverwrite_pairs _ _ g (by_ rule) Hasc Hlen) as Hpairs.
    unfold writeAlternate.
    by destruct (insertOrOverwrite (glyphs (coverage st)) (alternateSets st) g
                   (by_ rule)).
Qed.

Lemma addMultiple_addAlternate_update_one_pair_witness :
  addAlternate "salt" {| sub := VNum 3; by_ := VArr [INum 4; INum 5] |} None None emptyFont
    = (Normal tt,
       (addAlternate "salt" {| sub := VNum 3; by_ := VArr [INum 4; INum 5] |} None None
          emptyFont).2)
  ∧ ∃ g li si st',
      VNum 3 = VNum g
      ∧ subtableAt
          (addAlternate "salt" {| sub := VNum 3; by_ := VArr [INum 4; INum 5] |} None None
             emptyFont).2 li si = Some (3, st').
Proof.
  assert (Hrun :
    addAlternate "salt" {| sub := VNum 3; by_ := VArr [INum 4; INum 5] |} None None emptyFont
    = (Normal tt,
       (addAlternate "salt" {| sub := VNum 3; by_ := VArr [INum 4; INum 5] |} None None
          emptyFont).2)) by reflexivity.
  split; [exact Hrun|].
  destruct (addMultiple_addAlternate_update_one_pair "salt"
              {| sub := VNum 3; by_ := VArr [INum 4; INum 5] |} None None emptyFont
              (addAlternate "salt" {| sub := VNum 3; by_ := VArr [INum 4; INum 5] |} None None
                 emptyFont).2)
    as [_ Halt].
  destruct (Halt Hrun) as (g & li & si & st & st' & Hsub & _ & Hat & _).
  by exists g, li, si, st'.
Defined.

(** [addLigature] when it returns: the rule carries an array under
    [sub], and the first subtable of the lookup table (found, or created
    as the default one) is left as it is, the ligature being there
    already, or holds the ligature written. *)
Lemma addLigature_returns feature rule script language f f' :
  addLigature feature rule script language f = (Normal tt, f') →
  ∃ items li st0 st',
    sub rule = VArr items
    ∧ (subtableAt f li 0 = Some (4, st0)
       ∨ subtableAt f li 0 = None ∧ st0 = defaultLigature)
    ∧ format (coverage st0) = 1
    ∧ subtableAt f' li 0 = Some (4, st')
    ∧ (writeLigature st0 (firstItem items) (tail items) (by_ rule) = Normal None
         ∧ st' = st0
       ∨ writeLigature st0 (firstItem items) (tail items) (by_ rule)
           = Normal (Some st'))
    ∧ ∀ li' si', li' ≠ li ∨ si' ≠ 0%nat → subtableAt f' li' si' = subtableAt f li' si'.
Proof.
  unfold addLigature.
  destruct (getLookupTables_create_frame script language feature 4 f)
    as (gs1 & li & lt & rest & Hget & Hlt & Hty & Hframe).
  rewrite (M_bind_Normal _ _ _ _ _ Hget).
  assert (Hpre : ∀ si, subtableIn gs1 li si
                   = (st ← default [] (subtables lt) !! si; Some (lookupType lt, st)))
    by (intros; by apply subtableIn_default).
  destruct (subtables lt) as [sts|] eqn:Hsts; [|done].
  simpl in Hpre.
  assert (∃ st0 sts1,
    (match sts with st :: _ => (sts, st) | [] => ([defaultLigature], defaultLigature) end)
      = (sts1, st0) ∧
    sts1 !! 0%nat = Some st0 ∧
    (∀ si', si' ≠ 0%nat → sts1 !! si' = sts !! si') ∧
    (sts !! 0%nat = Some st0 ∨ sts !! 0%nat = None ∧ st0 = defaultLigature))
    as (st0 & sts1 & -> & H0 & Hother & Htarget).
  { destruct sts as [|st sts'].
    - exists defaultLigature, [defaultLigature]. split_and!; [done|done| |by right].
      intros [|si'] Hne; [done|]. simpl. by rewrite lookup_nil.
    - exists st, (st :: sts'). split_and!; [done|done|done|by left]. }
  unfold mbind at 1. unfold M_bind. rewrite storeLookup_Some.
  assert (Hkeep : ∀ sts', (∀ si', si' ≠ 0%nat → sts' !! si' = sts !! si') →
    ∀ li' si', li' ≠ li ∨ si' ≠ 0%nat →
      subtableAt {| gsub := Some (setLookups gs1 (<[li := setSubtables lt sts']>
                                                    (lookups gs1))) |} li' si'
      = subtableAt f li' si').
  { intros sts' Hsts' li' si' Hpos. unfold subtableAt at 1. simpl.
    rewrite subtableIn_store by done. rewrite <- Hframe. case_decide as Hli; [|done].
    subst li'. destruct Hpos as [?|Hsi']; [done|].
    by rewrite Hpre, Hsts'. }
  assert (Hat : ∀ sts' st, sts' !! 0%nat = Some st →
      subtableAt {| gsub := Some (setLookups gs1 (<[li := setSubtables lt sts']>
                                                    (lookups gs1))) |} li 0
      = Some (4, st)).
  { intros sts' st Hst. unfold subtableAt. simpl.
    rewrite subtableIn_store by done. rewrite decide_True by done.
    by rewrite Hst, Hty. }
  assert (Htarget' :
    subtableAt f li 0 = Some (4, st0)
    ∨ subtableAt f li 0 = None ∧ st0 = defaultLigature).
  { rewrite <- Hframe, Hpre, Hty.
    destruct Htarget as [H1|[H1 H2]]; [left|right]; by rewrite H1. }
  unfold mbind at 1. unfold M_bind, lift, assert, fail.
  destruct (format (coverage st0) =? 1) eqn:Hfmt; [|done].
  apply Z.eqb_eq in Hfmt.
  destruct (sub rule) as [|n| |items] eqn:Hsub; try done.
  unfold mbind at 1. unfold M_bind, lift.
  destruct (writeLigature st0 (firstItem items) (tail items) (by_ rule))
    as [[st'|]| |] eqn:Hw; try done.
  - rewrite storeLookup_Some. simpl. rewrite list_insert_insert_eq.
    intros [= <-]. exists items, li, st0, st'. split_and!; [done..| |by right|].
    + apply Hat. apply list_lookup_insert_eq. by eapply lookup_lt_Some.
    + apply Hkeep. intros si' Hne. rewrite list_lookup_insert_ne by done.
      by apply Hother.
  - intros [= <-]. exists items, li, st0, st0.
    split_and!; [done..|by apply Hat|by left|by apply Hkeep].
Qed.

(** The body of [addLigature] on a subtable in order: afterwards the set
    of the starting glyph holds a ligature of the components; it is the
    set the glyph had, as it was or with the new ligature at its end;
    every other glyph has the set it had. *)
Lemma writeLigature_pairs st g comps b st' :
  ascending (glyphs (coverage st)) →
  length (ligatureSets st) = length (glyphs (coverage st)) →
  writeLigature st (INum g) comps b = Normal None ∧ st' = st
    ∨ writeLigature st (INum g) comps b = Normal (Some st') →
  (∃ set l, pairs (glyphs (coverage st')) (ligatureSets st') g set
            ∧ l ∈ set ∧ components l = comps)
  ∧ (∀ g' set', g' ≠ g →
       pairs (glyphs (coverage st')) (ligatureSets st') g' set'
       ↔ pairs (glyphs (coverage st)) (ligatureSets st) g' set')
  ∧ (∀ set, pairs (glyphs (coverage st)) (ligatureSets st) g set →
       pairs (glyphs (coverage st')) (ligatureSets st') g set
       ∨ pairs (glyphs (coverage st')) (ligatureSets st') g
           (set ++ [{| ligGlyph := b; components := comps |}])).
Proof.
  intros Hasc Hlen. unfold writeLigature.
  destruct (binSearch_spec _ g Hasc) as [Hf|Hm].
  - destruct Hf as [Hr Hg]. rewrite (proj2 (Z.leb_le _ _) Hr).
    set (p := Z.to_nat (binSearch (glyphs (coverage st)) (INum g))) in *.
    assert (Hp : (p < length (ligatureSets st))%nat)
      by (rewrite Hlen; by eapply lookup_lt_Some).
    destruct (lookup_lt_is_Some_2 _ _ Hp) as [set Hset]. rewrite Hset.
    destruct (ligatureExists set comps) as [[|]| |] eqn:Hex; simpl;
      [| |by intros [[? _]|?]..].
    + intros [[_ ->]|?]; [|done]. apply ligatureExists_Normal in Hex as (l & Hl & Hc).
      split_and!; [|done|by left]. exists set, l. split_and!; [|done|done].
      by exists p.
    + intros [[? _]|[= <-]]; [done|]. simpl. split_and!.
      * exists (set ++ [{| ligGlyph := b; components := comps |}]),
               {| ligGlyph := b; components := comps |}.
        split_and!; [|set_solver|done].
        exists p. split; [done|]. by apply list_lookup_insert_eq.
      * intros g' set' Hne. split; intros (i & Hi & Hs); exists i; (split; [done|]).
        -- rewrite list_lookup_insert_ne in Hs; [done|]. intros ->. congruence.
        -- rewrite list_lookup_insert_ne; [done|]. intros ->. congruence.
      * intros set0 (i & Hi & Hs). right.
        assert (i = p) as ->.
        { destruct (decide (i = p)) as [|Hne]; [done|]. exfalso.
          destruct (decide (i < p)%nat).
          - pose proof (proj2 Hasc i p g g Hi Hg). lia.
          - pose proof (proj2 Hasc p i g g Hg Hi). lia. }
        assert (set0 = set) as -> by congruence.
        exists p. split; [done|]. by apply list_lookup_insert_eq.
  - destruct Hm as (p & Hr & Hp & Hlo & Hhi). rewrite Hr.
    assert (Hneg : (0 <=? -1 - Z.of_nat p) = false) by (apply Z.leb_gt; lia).
    rewrite Hneg. replace (Z.to_nat (-1 - (-1 - Z.of_nat p))) with p by lia.
    intros [[? _]|[= <-]]; [done|]. simpl.
    assert (Hp' : (p ≤ length (ligatureSets st))%nat) by lia.
    split_and!.
    + exists [{| ligGlyph := b; components := comps |}],
             {| ligGlyph := b; components := comps |}.
      split_and!; [|set_solver|done].
      exists p. rewrite !lookup_splice_insert by done.
      destruct (decide (p < p)%nat); [lia|]. by rewrite !decide_True.
    + intros g' set' Hne. split.
      * intros (i & Hi & Hs). rewrite lookup_splice_insert in Hi by done.
        rewrite lookup_splice_insert in Hs by done.
        destruct (decide (i < p)%nat); [by exists i|].
        destruct (decide (i = p)); [congruence|]. by exists (i - 1)%nat.
      * intros (i & Hi & Hs). destruct (decide (i < p)%nat) as [Hlt|Hge].
        -- exists i. rewrite !lookup_splice_insert by done. by rewrite !decide_True.
        -- exists (S i). rewrite !lookup_splice_insert by done.
           destruct (decide (S i < p)%nat); [lia|].
           destruct (decide (S i = p)) as [<-|_]; [lia|].
           by replace (S i - 1)%nat with i by lia.
    + intros set0 (i & Hi & _). exfalso.
      destruct (decide (i < p)%nat).
      * pose proof (Hlo i g ltac:(done) Hi). lia.
      * pose proof (Hhi i g ltac:(lia) Hi). lia.
Qed.

(** X4.  [addLigature] that returns adds to one ligature set.  For a
    rule that carries under [sub] an array that starts with a glyph id,
    the write goes to the first subtable of one lookup table of type 4
    (found, or created as the default one), and every other subtable of
    the font is as it was.  When the subtable was in order, the set of
    the starting glyph afterwards holds a ligature of the components of
    the rule; that set is the one the glyph had, unchanged or with the
    new ligature at its end; every other glyph has the set it had. *)
Theorem addLigature_adds_to_one_set (feature : string) (rule : Entry)
    (script language : option string) (f f' : Font) (g : Z) (comps : list item) :
  sub rule = VArr (INum g :: comps) →
  addLigature feature rule script language f = (Normal tt, f') →
  ∃ li st st',
    (subtableAt f li 0 = Some (4, st)
     ∨ subtableAt f li 0 = None ∧ st = defaultLigature)
    ∧ subtableAt f' li 0 = Some (4, st')
    ∧ (∀ li' si', li' ≠ li ∨ si' ≠ 0%nat → subtableAt f' li' si' = subtableAt f li' si')
    ∧ (in_order 4 st →
         (∃ set l, pairs (glyphs (coverage st')) (ligatureSets st') g set
                   ∧ l ∈ set ∧ components l = comps)
         ∧ (∀ g' set', g' ≠ g →
              pairs (glyphs (coverage st')) (ligatureSets st') g' set'
              ↔ pairs (glyphs (coverage st)) (ligatureSets st) g' set')
         ∧ (∀ set, pairs (glyphs (coverage st)) (ligatureSets st) g set →
              pairs (glyphs (coverage st')) (ligatureSets st') g set
              ∨ pairs (glyphs (coverage st')) (ligatureSets st') g
                  (set ++ [{| ligGlyph := by_ rule; components := comps |}]))).
Proof.
  intros Hsub Hrun. apply addLigature_returns in Hrun
    as (items & li & st & st' & Hitems & Htarget & Hfmt & Hat & Hw & Hother).
  rewrite Hsub in Hitems. injection Hitems as <-.
  exists li, st, st'. split_and!; [done..|]. intros Horder.
  destruct (Horder Hfmt) as [Hasc Hlen].
  apply writeLigature_pairs; [done| |done].
  by apply Hlen.
Qed.

Lemma addLigature_adds_to_one_set_witness :
  sub {| sub := VArr [INum 10; INum 12; INum 13]; by_ := VNum 52 |}
    = VArr (INum 10 :: [INum 12; INum 13])
  ∧ addLigature "liga" {| sub := VArr [INum 10; INum 12; INum 13]; by_ := VNum 52 |}
      None None ligatureFont
    = (Normal tt,
       (addLigature "liga" {| sub := VArr [INum 10; INum 12; INum 13]; by_ := VNum 52 |}
          None None ligatureFont).2)
  ∧ ∃ li st',
      subtableAt
        (addLigature "liga" {| sub := VArr [INum 10; INum 12; INum 13]; by_ := VNum 52 |}
           None None ligatureFont).2 li 0 = Some (4, st').
Proof.
  assert (Hrun :
    addLigature "liga" {| sub := VArr [INum 10; INum 12; INum 13]; by_ := VNum 52 |}
      None None ligatureFont
    = (Normal tt,
       (addLigature "liga" {| sub := VArr [INum 10; INum 12; INum 13]; by_ := VNum 52 |}
          None None ligatureFont).2)) by reflexivity.
  split_and!; [reflexivity|exact Hrun|].
  destruct (addLigature_adds_to_one_set "liga"
              {| sub := VArr [INum 10; INum 12; INum 13]; by_ := VNum 52 |}
              None None ligatureFont _ 10 [INum 12; INum 13] eq_refl Hrun)
    as (li & st & st' & _ & Hat & _).
  by exists li, st'.
Defined.

(** X22.  [addLigature] on a starting glyph that the first subtable of
    the lookup table covers (format-1 coverage, ascending), by the
    ligature set [set'] of the glyph.  A rule whose components are those of a
    ligature of the set returns and leaves the font as it is, when the
    ligatures before that one have another number of components.  A
    rule whose components are of another length than those of every
    ligature of the set appends its ligature at the end of the set and
    changes nothing else.  A rule whose components differ from those of
    a ligature of the set of the same length, the ligatures before it
    having another number of components, throws a [ReferenceError] and
    leaves the font as it is. *)
Theorem addLigature_on_covered_glyph (feature : string) (g : Z) (comps : list item)
    (b : jsval) (script language : option string) (f : Font) (gs : Gsub) (li : nat)
    (lis : list nat) (lt : LookupTable) (st : Subtable) (sts : list Subtable)
    (p : nat) (set' : list Ligature) :
  gsub f = Some gs →
  findLookupTables gs script language feature 4 = li :: lis →
  lookups gs !! li = Some lt →
  subtables lt = Some (st :: sts) →
  format (coverage st) = 1 →
  ascending (glyphs (coverage st)) →
  glyphs (coverage st) !! p = Some (INum g) →
  ligatureSets st !! p = Some set' →
  (∀ before l after,
     set' = before ++ l :: after →
     Forall (λ l', length (components l') ≠ length comps) before →
     components l = comps →
     addLigature feature {| sub := VArr (INum g :: comps); by_ := b |} script language f
       = (Normal tt, f))
  ∧ (Forall (λ l, length (components l) ≠ length comps) set' →
     addLigature feature {| sub := VArr (INum g :: comps); by_ := b |} script language f
       = (Normal tt,
          {| gsub := Some (setLookups gs
               (<[li := setSubtables lt
                    (setLigatures st (glyphs (coverage st))
                       (<[p := set' ++ [{| ligGlyph := b; components := comps |}]]>
                          (ligatureSets st)) :: sts)]> (lookups gs))) |}))
  ∧ (∀ before l after,
       set' = before ++ l :: after →
       Forall (λ l', length (components l') ≠ length comps) before →
       length (components l) = length comps → components l ≠ comps →
       addLigature feature {| sub := VArr (INum g :: comps); by_ := b |} script language f
         = (Throw ReferenceError, f)).
Proof.
  intros Hgs Hfind Hlt Hsts Hfmt Hasc Hp Hset.
  assert (Hpos : binSearch (glyphs (coverage st)) (INum g) = Z.of_nat p)
    by (by apply binSearch_found).
  assert (Hrun : addLigature feature {| sub := VArr (INum g :: comps); by_ := b |}
                   script language f
                 = match ligatureExists set' comps with
                   | Normal true => (Normal tt, f)
                   | Normal false =>
                       (Normal tt,
                        {| gsub := Some (setLookups gs
                             (<[li := setSubtables lt
                                  (setLigatures st (glyphs (coverage st))
                                     (<[p := set' ++ [{| ligGlyph := b;
                                                         components := comps |}]]>
                                        (ligatureSets st)) :: sts)]> (lookups gs))) |})
                   | Throw msg => (Throw msg, f)
                   | Untyped => (Untyped, f)
                   end).
  { rewrite (addLigature_existing _ {| sub := VArr (INum g :: comps); by_ := b |}
               (INum g :: comps) _ _ _ _ _ _ _ _ _ Hgs Hfind Hlt Hsts Hfmt eq_refl).
    unfold writeLigature, firstItem. simpl. rewrite Hpos.
    replace (0 <=? Z.of_nat p) with true by (symmetry; apply Z.leb_le; lia).
    rewrite Nat2Z.id, Hset. by destruct (ligatureExists set' comps) as [[|]| |]. }
  rewrite Hrun. split_and!.
  - intros before l after -> Hbefore Heq. by rewrite ligatureExists_found.
  - intros Hall. by rewrite ligatureExists_none.
  - intros before l after -> Hbefore Hlen Hne. by rewrite ligatureExists_throws.
Qed.

Lemma addLigature_on_covered_glyph_witness :
  gsub ligatureFont = Some ligatureGsub
  ∧ findLookupTables ligatureGsub None None "liga" 4 = [0%nat]
  ∧ lookups ligatureGsub !! 0%nat = Some ligatureLookup
  ∧ subtables ligatureLookup = Some [ligatureSubtable]
  ∧ format (coverage ligatureSubtable) = 1
  ∧ ascending (glyphs (coverage ligatureSubtable))
  ∧ glyphs (coverage ligatureSubtable) !! 0%nat = Some (INum 10)
  ∧ ligatureSets ligatureSubtable !! 0%nat
      = Some [{| ligGlyph := VNum 50; components := [INum 11] |}]
  ∧ addLigature "liga" {| sub := VArr [INum 10; INum 11]; by_ := VNum 51 |}
      None None ligatureFont
      = (Normal tt, ligatureFont)
  ∧ addLigature "liga" {| sub := VArr [INum 10; INum 12]; by_ := VNum 51 |}
      None None ligatureFont
      = (Throw ReferenceError, ligatureFont)
  ∧ addLigature "liga" {| sub := VArr [INum 10; INum 12; INum 13]; by_ := VNum 52 |}
      None None ligatureFont
      = (Normal tt,
         {| gsub := Some (setLookups ligatureGsub
              [setSubtables ligatureLookup
                 [setLigatures ligatureSubtable [INum 10]
                    [[{| ligGlyph := VNum 50; components := [INum 11] |};
                      {| ligGlyph := VNum 52;
                         components := [INum 12; INum 13] |}]]]]) |}).
Proof.
  split_and!;
    [reflexivity|reflexivity|reflexivity|reflexivity|reflexivity| |reflexivity|reflexivity
    | | | ].
  - apply ascending_singleton.
  - destruct (addLigature_on_covered_glyph "liga" 10 [INum 11] (VNum 51) None None
                ligatureFont ligatureGsub 0 [] ligatureLookup ligatureSubtable [] 0
                [{| ligGlyph := VNum 50; components := [INum 11] |}]
                eq_refl eq_refl eq_refl eq_refl eq_refl (ascending_singleton 10)
                eq_refl eq_refl) as [Hsame _].
    by apply (Hsame [] {| ligGlyph := VNum 50; components := [INum 11] |} []).
  - destruct (addLigature_on_covered_glyph "liga" 10 [INum 12] (VNum 51) None None
                ligatureFont ligatureGsub 0 [] ligatureLookup ligatureSubtable [] 0
                [{| ligGlyph := VNum 50; components := [INum 11] |}]
                eq_refl eq_refl eq_refl eq_refl eq_refl (ascending_singleton 10)
                eq_refl eq_refl) as (_ & _ & Hthrows).
    by apply (Hthrows [] {| ligGlyph := VNum 50; components := [INum 11] |} []).
  - destruct (addLigature_on_covered_glyph "liga" 10 [INum 12; INum 13] (VNum 52)
                None None
                ligatureFont ligatureGsub 0 [] ligatureLookup ligatureSubtable [] 0
                [{| ligGlyph := VNum 50; components := [INum 11] |}]
                eq_refl eq_refl eq_refl eq_refl eq_refl (ascending_singleton 10)
                eq_refl eq_refl) as (_ & Happend & _).
    apply Happend. by repeat constructor.
Defined.

(* ================================================================== *)
(** * A rule added is the rule listed *)
(* ================================================================== *)

(** On a font with nothing of the type under the feature, the creating
    resolution wires a fresh lookup table, and the reading resolution
    finds that table, whatever subtables a method has stored in it. *)
Lemma wired_then_found ty tag script language f :
  noLookupYet ty f script language tag →
  ∃ gs1 li,
    getLookupTables script language tag ty true f
      = (Normal [(li, newLookupTable ty)], {| gsub := Some gs1 |})
    ∧ lookups gs1 !! li = Some (newLookupTable ty)
    ∧ ∀ sts,
        getLookupTables script language tag ty false
          {| gsub := Some (setLookups gs1
               (<[li := setSubtables (newLookupTable ty) sts]> (lookups gs1))) |}
        = (Normal [(li, setSubtables (newLookupTable ty) sts)],
           {| gsub := Some (setLookups gs1
                (<[li := setSubtables (newLookupTable ty) sts]> (lookups gs1))) |}).
Proof.
  intros Hnone.
  destruct (getLookupTables_create script language tag ty f)
    as (gs0 & gs1 & li & lt & rest & Ht & Hget & Hlt & Hty & Hcase).
  assert (Hgs0 : wf_lookupIndexes gs0 ∧ findLookupTables gs0 script language tag ty = []).
  { unfold tableOf in Ht. destruct (gsub f) as [gs|] eqn:Hgs; simplify_eq.
    - by apply Hnone.
    - split; [constructor|apply findLookupTables_default]. }
  destruct Hgs0 as [Hwf Hfind].
  destruct Hcase as [(_ & _ & Habs)|(_ & Hwire & Hl & -> & -> & ->)];
    [by rewrite Hfind in Habs|].
  exists gs1, (length (lookups gs0)). split_and!; [done|done|].
  intros sts.
  set (gs2 := setLookups gs1 (<[length (lookups gs0)
                                 := setSubtables (newLookupTable ty) sts]> (lookups gs1))).
  assert (Hfind2 : findLookupTables gs2 script language tag ty = [length (lookups gs0)]).
  { unfold gs2. rewrite findLookupTables_setLookups.
    - replace gs1 with (wireLookupTable gs0 script language tag ty).1
        by (by rewrite <- Hwire).
      by apply findLookupTables_wire.
    - intros j. by eapply hasLookupType_insert. }
  rewrite (getLookupTables_found _ _ _ _ {| gsub := Some gs2 |} gs2 _ eq_refl Hfind2).
  unfold lookupRefs, gs2. simpl.
  by rewrite list_lookup_insert_eq by (by eapply lookup_lt_Some).
Qed.

(** X5.  A rule added is the rule listed.  On a font with nothing of the
    lookup type under the feature, for the script and the language,
    [addMultiple] and then [getMultiple] return the list of the one
    rule, and so do [addAlternate] with [getAlternates] and [addLigature]
    with [getLigatures]. *)
Theorem add_then_get_lists_the_rule (tag : string) (g : Z) (by' : jsval)
    (comps : list item) (script language : option string) (f : Font) :
  (noLookupYet 2 f script language tag → isArrayOfTwoOrMore by' = true →
     ∃ f', (_ ← addMultiple tag {| sub := VNum g; by_ := by' |} script language;
            getMultiple tag script language) f
           = (Normal [{| sub := VNum g; by_ := by' |}], f'))
  ∧ (noLookupYet 3 f script language tag →
       ∃ f', (_ ← addAlternate tag {| sub := VNum g; by_ := by' |} script language;
              getAlternates tag script language) f
             = (Normal [{| sub := VNum g; by_ := by' |}], f'))
  ∧ (noLookupYet 4 f script language tag →
       ∃ f', (_ ← addLigature tag {| sub := VArr (INum g :: comps); by_ := by' |}
                    script language;
              getLigatures tag script language) f
             = (Normal [{| sub := VArr (INum g :: comps); by_ := by' |}], f')).
Proof.
  split_and!.
  - intros Hnone Hby.
    destruct (wired_then_found _ _ _ _ _ Hnone) as (gs1 & li & Hget & Hlt & Hread).
    eexists.
    assert (Hadd : addMultiple tag {| sub := VNum g; by_ := by' |} script language f
      = (Normal tt, {| gsub := Some (setLookups gs1
           (<[li := setSubtables (newLookupTable 2) [writeMultiple defaultFormat1 g by']]>
              (lookups gs1))) |})).
    { unfold addMultiple. simpl. rewrite Hby. unfold mbind at 1. unfold M_bind, lift. simpl.
      rewrite (M_bind_Normal _ _ _ _ _ Hget).
      unfold addToFormat, getSubstFormat. simpl.
      unfold mbind, M_bind. rewrite storeLookup_Some. simpl.
      rewrite storeLookup_Some. simpl. by rewrite list_insert_insert_eq. }
    rewrite (M_bind_Normal _ _ _ _ _ Hadd). unfold getMultiple.
    rewrite (M_bind_Normal _ _ _ _ _ (Hread _)). reflexivity.
  - intros Hnone.
    destruct (wired_then_found _ _ _ _ _ Hnone) as (gs1 & li & Hget & Hlt & Hread).
    eexists.
    assert (Hadd : addAlternate tag {| sub := VNum g; by_ := by' |} script language f
      = (Normal tt, {| gsub := Some (setLookups gs1
           (<[li := setSubtables (newLookupTable 3) [writeAlternate defaultFormat1 g by']]>
              (lookups gs1))) |})).
    { unfold addAlternate. rewrite (M_bind_Normal _ _ _ _ _ Hget).
      unfold addToFormat, getSubstFormat. simpl.
      unfold mbind, M_bind. rewrite storeLookup_Some. simpl.
      rewrite storeLookup_Some. simpl. by rewrite list_insert_insert_eq. }
    rewrite (M_bind_Normal _ _ _ _ _ Hadd). unfold getAlternates.
    rewrite (M_bind_Normal _ _ _ _ _ (Hread _)). reflexivity.
  - intros Hnone.
    destruct (wired_then_found _ _ _ _ _ Hnone) as (gs1 & li & Hget & Hlt & Hread).
    eexists.
    assert (Hadd : addLigature tag {| sub := VArr (INum g :: comps); by_ := by' |}
                     script language f
      = (Normal tt, {| gsub := Some (setLookups gs1
           (<[li := setSubtables (newLookupTable 4)
                      [setLigatures defaultLigature [INum g]
                         [[{| ligGlyph := by'; components := comps |}]]]]>
              (lookups gs1))) |})).
    { unfold addLigature. rewrite (M_bind_Normal _ _ _ _ _ Hget). simpl.
      unfold mbind, M_bind. rewrite storeLookup_Some. simpl.
      rewrite storeLookup_Some. simpl. by rewrite list_insert_insert_eq. }
    rewrite (M_bind_Normal _ _ _ _ _ Hadd). unfold getLigatures.
    rewrite (M_bind_Normal _ _ _ _ _ (Hread _)). reflexivity.
Qed.

Lemma add_then_get_lists_the_rule_witness :
  noLookupYet 4 singleFont None None "liga"
  ∧ ∃ f', (_ ← addLigature "liga" {| sub := VArr [INum 10; INum 11]; by_ := VNum 50 |} None None;
           getLigatures "liga" None None) singleFont
          = (Normal [{| sub := VArr [INum 10; INum 11]; by_ := VNum 50 |}], f').
Proof.
  assert (Hnone : noLookupYet 4 singleFont None None "liga").
  { intros gs [= <-]. split; [|reflexivity]. repeat constructor. }
  split; [exact Hnone|].
  destruct (add_then_get_lists_the_rule "liga" 10 (VNum 50) [INum 11] None None
              singleFont)
    as (_ & _ & Hlig).
  exact (Hlig Hnone).
Defined.

(* ================================================================== *)
(** * The tables of the builder classes read back *)
(* ================================================================== *)

(** The decimal notation of a position starts with a digit. *)
Lemma pretty_N_go_head_digit x s :
  (x ≠ 0%N ∨ ∃ c s', s = String c s' ∧ isDigit c = true) →
  ∃ c s', pretty_N_go x s = String c s' ∧ isDigit c = true.
Proof.
  revert s. induction (N.lt_wf_0 x) as [x _ IH]; intros s H.
  destruct (decide (x = 0%N)) as [->|Hx].
  - rewrite pretty_N_go_0. by destruct H.
  - rewrite pretty_N_go_step by lia. apply IH; [apply N.div_lt; lia|].
    right. eexists _, _. split; [done|]. unfold pretty_N_char. by repeat case_match.
Qed.

Lemma pretty_nat_head (i : nat) c s : pretty i = String c s → isDigit c = true.
Proof.
  unfold pretty, pretty_nat, pretty, pretty_N. case_decide.
  - by intros [= <- <-].
  - destruct (pretty_N_go_head_digit (N.of_nat i) "") as (c' & s' & -> & Hd); [by left|].
    by intros [= <- <-].
Qed.

(** Two names clash: the tactic peels the common prefix off the equation
    [H] and ends on a letter against a letter, on a letter against the
    digit a position starts with, or on two positions. *)
Ltac peel H := repeat first [discriminate H | injection H as H].

Ltac clash H :=
  cbn -[pretty] in H; cbv [String.append] in H; peel H;
  first [ by apply pretty_nat_head in H; vm_compute in H
        | by symmetry in H; apply pretty_nat_head in H; vm_compute in H
        | apply (inj pretty) in H ].

Lemma seededValue_unique k fs fld :
  fld ∈ fs → name fld = k →
  (∀ fld', fld' ∈ fs → name fld' = k → fld' = fld) →
  seededValue k fs = Some (value fld).
Proof.
  intros Hin Hk Huniq. unfold seededValue.
  assert (Hne : filter (λ field, name field = k) fs ≠ []).
  { intros Hnil. assert (fld ∈ filter (λ field, name field = k) fs) as H
      by (by apply list_elem_of_filter).
    rewrite Hnil in H. by apply elem_of_nil in H. }
  apply last_is_Some in Hne as [x Hx]. rewrite Hx. simpl. f_equal. f_equal.
  apply last_Some_elem_of in Hx. apply list_elem_of_filter in Hx as [Hxk Hxin].
  by apply Huniq.
Qed.

Lemma get_new_Table tn fs fld :
  fld ∈ fs → name fld ≠ "tableName" → name fld ≠ "fields" →
  (∀ fld', fld' ∈ fs → name fld' = name fld → fld' = fld) →
  get (new_Table tn fs None) (name fld) = value fld.
Proof.
  intros Hin H1 H2 Huniq. unfold get, new_Table. rewrite own_seeded.
  apply String.eqb_neq in H1, H2. rewrite H1, H2.
  by rewrite (seededValue_unique _ _ fld).
Qed.

Lemma concat_imap_singleton {A B} (h : nat → A → B) (l : list A) :
  concat (imap (λ i r, [h i r]) l) = imap h l.
Proof.
  revert h. induction l as [|x l IH]; intros h; [done|].
  rewrite !imap_cons. simpl. f_equal. apply (IH (h ∘ S)).
Qed.

Lemma rows_from_cons {A} (cols : list (column A)) i0 r recs :
  rows_from cols i0 (r :: recs)
    = ((λ c, cell c r i0) <$> cols) ++ rows_from cols (S i0) recs.
Proof.
  unfold rows_from. rewrite imap_cons. simpl. rewrite Nat.add_0_r. f_equal. f_equal.
  apply imap_ext. intros i x _. simpl.
  by replace (i0 + S i)%nat with (S (i0 + i)) by lia.
Qed.

Lemma elem_of_rows_from {A} (cols : list (column A)) i0 recs fld :
  fld ∈ rows_from cols i0 recs
  ↔ ∃ j r c, recs !! j = Some r ∧ c ∈ cols ∧ fld = cell c r (i0 + j).
Proof.
  revert i0. induction recs as [|r recs IH]; intros i0.
  - split; [by intros H%elem_of_nil|by intros (j & r & c & H & _)].
  - rewrite rows_from_cons, elem_of_app, IH, list_elem_of_fmap. split.
    + intros [(c & -> & Hc)|(j & r' & c & Hj & Hc & ->)].
      * exists 0%nat, r, c. by rewrite Nat.add_0_r.
      * exists (S j), r', c. split_and!; [done|done|]. f_equal. lia.
    + intros ([|j] & r' & c & Hj & Hc & ->).
      * left. exists c. simplify_eq/=. by rewrite Nat.add_0_r.
      * right. exists j, r', c. split_and!; [done|done|]. f_equal. lia.
Qed.

Lemma elem_of_rows {A} (cols : list (column A)) recs fld :
  fld ∈ rows cols recs ↔ ∃ j r c, recs !! j = Some r ∧ c ∈ cols ∧ fld = cell c r j.
Proof. apply elem_of_rows_from. Qed.

(** A callback that returns one field per column makes the rows. *)
Lemma recordList_from_rows {A} (cols : list (column A)) i0 recs :
  recordList_from (λ r i, Normal ((λ c, cell c r i) <$> cols)) i0 recs
    = Normal (rows_from cols i0 recs).
Proof.
  revert i0. induction recs as [|r recs IH]; intros i0; [done|].
  simpl. rewrite IH. simpl. by rewrite rows_from_cons.
Qed.

Lemma ushortList_rows itemName l :
  ushortList itemName l None
    = ushortField (itemName +:+ "Count") (Z.of_nat (length l))
        :: rows [ushortColumn itemName] l.
Proof.
  unfold ushortList, rows, rows_from. simpl. f_equal.
  symmetry. apply (concat_imap_singleton (λ i x, ushortField (itemName +:+ pretty i) x)).
Qed.

(** A tabular field list whose names are apart reads back: each head
    field under its name, each cell under the prefix of its column and
    the position of its record. *)
Lemma tabular_readsBack {A} tn heads (cols : list (column A)) recs :
  NoDup (name <$> heads) →
  (∀ h, h ∈ heads → name h ≠ "tableName" ∧ name h ≠ "fields"
     ∧ ∀ c (j : nat), c ∈ cols → name h ≠ c.1.1 +:+ pretty j) →
  (∀ c (j : nat), c ∈ cols → c.1.1 +:+ pretty j ≠ "tableName"
                             ∧ c.1.1 +:+ pretty j ≠ "fields") →
  (∀ c c' (i j : nat), c ∈ cols → c' ∈ cols →
     c.1.1 +:+ pretty i = c'.1.1 +:+ pretty j → c = c' ∧ i = j) →
  readsBack (new_Table tn (heads ++ rows cols recs) None)
  ∧ (∀ h, h ∈ heads →
       get (new_Table tn (heads ++ rows cols recs) None) (name h) = value h)
  ∧ (∀ i r c, recs !! i = Some r → c ∈ cols →
       get (new_Table tn (heads ++ rows cols recs) None) (c.1.1 +:+ pretty i) = c.2 r).
Proof.
  intros Hdup Hheads Hcols Hapart.
  assert (Hback : ∀ fld, fld ∈ heads ++ rows cols recs →
            get (new_Table tn (heads ++ rows cols recs) None) (name fld) = value fld).
  { intros fld Hin. apply get_new_Table; [done|..].
    - apply elem_of_app in Hin as [Hh|Hr].
      + by apply Hheads.
      + apply elem_of_rows in Hr as (j & r & c & _ & Hc & ->). by apply Hcols.
    - apply elem_of_app in Hin as [Hh|Hr].
      + by apply Hheads.
      + apply elem_of_rows in Hr as (j & r & c & _ & Hc & ->). by apply Hcols.
    - intros fld' Hin' Hname.
      apply elem_of_app in Hin as [Hh|Hr]; apply elem_of_app in Hin' as [Hh'|Hr'].
      + apply list_elem_of_lookup_1 in Hh as [i Hi], Hh' as [i' Hi'].
        assert (i' = i) as ->; [|congruence].
        apply (NoDup_lookup _ _ _ (name fld) Hdup); rewrite list_lookup_fmap.
        * rewrite Hi'. simpl. by rewrite Hname.
        * by rewrite Hi.
      + apply elem_of_rows in Hr' as (j & r & c & _ & Hc & ->).
        destruct (Hheads _ Hh) as (_ & _ & Hne). by destruct (Hne c j Hc).
      + apply elem_of_rows in Hr as (j & r & c & _ & Hc & ->).
        destruct (Hheads _ Hh') as (_ & _ & Hne). by destruct (Hne c j Hc).
      + apply elem_of_rows in Hr as (j & r & c & Hj & Hc & ->).
        apply elem_of_rows in Hr' as (j' & r' & c' & Hj' & Hc' & ->).
        destruct (Hapart c' c j' j Hc' Hc Hname) as [-> ->]. congruence. }
  split_and!.
  - by exists (heads ++ rows cols recs).
  - intros h Hh. apply Hback. apply elem_of_app. by left.
  - intros i r c Hi Hc. apply (Hback (cell c r i)).
    apply elem_of_app. right. apply elem_of_rows. by exists i, r, c.
Qed.

Ltac destruct_elems :=
  repeat match goal with
  | H : _ ∈ _ :: _ |- _ => apply elem_of_cons in H as [->|H]
  | H : _ ∈ [] |- _ => by apply elem_of_nil in H
  | H : ?x ∈ ?l |- _ => let l' := eval hnf in l in progress change (x ∈ l') in H
  end.

(** The side conditions of [tabular_readsBack] on the head fields and the
    columns of a class. *)
Ltac tabular_side :=
  first
  [ solve [by apply (bool_decide_unpack _)]
  | solve [let h := fresh "h" in let Hh := fresh "Hh" in
           intros h Hh; destruct_elems; (split_and!; [done|done|]);
           let c := fresh "c" in let j := fresh "j" in let Hc := fresh "Hc" in
           let H := fresh "H" in
           intros c j Hc; destruct_elems; intros H; clash H]
  | solve [let c := fresh "c" in let j := fresh "j" in let Hc := fresh "Hc" in
           let H := fresh "H" in
           intros c j Hc; destruct_elems; split; intros H; clash H]
  | solve [let c := fresh "c" in let c' := fresh "c'" in
           let i := fresh "i" in let j := fresh "j" in
           let Hc := fresh "Hc" in let Hc' := fresh "Hc'" in let H := fresh "H" in
           intros c c' i j Hc Hc' H; destruct_elems; clash H; by subst] ].

Lemma new_Coverage_format1 c :
  format c = 1 →
  new_Coverage c = Normal (new_Table "coverageTable"
    ([ushortField "coverageFormat" 1;
      ushortField "glyphCount" (Z.of_nat (length (glyphs c)))]
       ++ rows [ushortColumn "glyph"] (glyphs c)) None).
Proof.
  intros Hf. unfold new_Coverage. rewrite Hf. simpl. by rewrite ushortList_rows.
Qed.

Lemma new_Coverage_format2 c :
  format c = 2 →
  new_Coverage c = Normal (new_Table "coverageTable"
    ([ushortField "coverageFormat" 2;
      ushortField "rangeRecordCount" (Z.of_nat (length (ranges c)))]
       ++ rows coverageRangeColumns (ranges c)) None).
Proof.
  intros Hf. unfold new_Coverage, recordList. rewrite Hf. simpl.
  assert (H : recordList_from (λ (RangeRecord : RangeRecord) (i : nat),
      Normal
        [ushortField ("startGlyphID" +:+ pretty i) (range_start RangeRecord);
         ushortField ("endGlyphID" +:+ pretty i) (range_end RangeRecord);
         ushortField ("startCoverageIndex" +:+ pretty i) (range_index RangeRecord)])
      0 (ranges c) = Normal (rows coverageRangeColumns (ranges c)))
    by apply (recordList_from_rows coverageRangeColumns).
  by rewrite H.
Qed.

(** X6.  The table [new Coverage] returns reads back: every field is
    the property of its own name, none shadows another.  So
    [coverageFormat] is the format; for the format 1 [glyphCount] is
    the number of glyphs and [glyph<i>] the glyph at [i]; for the
    format 2 [rangeRecordCount] is the number of ranges, and
    [startGlyphID<i>], [endGlyphID<i>] and [startCoverageIndex<i>] are
    the start, the end and the index of the range at [i]. *)
Theorem Coverage_table_reads_back (c : CoverageTable) (t : Table) :
  new_Coverage c = Normal t →
  readsBack t
  ∧ get t "coverageFormat" = TNum (format c)
  ∧ (format c = 1 →
       get t "glyphCount" = TNum (Z.of_nat (length (glyphs c)))
       ∧ ∀ (i : nat) g, glyphs c !! i = Some g →
           get t ("glyph" +:+ pretty i) = TNum g)
  ∧ (format c = 2 →
       get t "rangeRecordCount" = TNum (Z.of_nat (length (ranges c)))
       ∧ ∀ (i : nat) r, ranges c !! i = Some r →
           get t ("startGlyphID" +:+ pretty i) = TNum (range_start r)
           ∧ get t ("endGlyphID" +:+ pretty i) = TNum (range_end r)
           ∧ get t ("startCoverageIndex" +:+ pretty i) = TNum (range_index r)).
Proof.
  intros Hnew.
  destruct (decide (format c = 1)) as [H1|H1];
    [|destruct (decide (format c = 2)) as [H2|H2]].
  - rewrite (new_Coverage_format1 _ H1) in Hnew. injection Hnew as <-.
    destruct (tabular_readsBack "coverageTable"
      [ushortField "coverageFormat" 1;
       ushortField "glyphCount" (Z.of_nat (length (glyphs c)))]
      [ushortColumn "glyph"] (glyphs c)) as (Hback & Hheads & Hcells);
      [tabular_side..|].
    split_and!; [done| | |intros; congruence].
    + rewrite H1. apply (Hheads (ushortField "coverageFormat" 1)). set_solver.
    + intros _. split.
      * apply (Hheads (ushortField "glyphCount" _)). set_solver.
      * intros i g Hi. apply (Hcells i g (ushortColumn "glyph") Hi). set_solver.
  - rewrite (new_Coverage_format2 _ H2) in Hnew. injection Hnew as <-.
    destruct (tabular_readsBack "coverageTable"
      [ushortField "coverageFormat" 2;
       ushortField "rangeRecordCount" (Z.of_nat (length (ranges c)))]
      coverageRangeColumns (ranges c)) as (Hback & Hheads & Hcells);
      [tabular_side..|].
    split_and!; [done| |intros; congruence|].
    + rewrite H2. apply (Hheads (ushortField "coverageFormat" 2)). set_solver.
    + intros _. split.
      * apply (Hheads (ushortField "rangeRecordCount" _)). set_solver.
      * intros i r Hi. split_and!.
        -- apply (Hcells i r ("startGlyphID", "USHORT", λ r, TNum (range_start r)) Hi).
           unfold coverageRangeColumns. set_solver.
        -- apply (Hcells i r ("endGlyphID", "USHORT", λ r, TNum (range_end r)) Hi).
           unfold coverageRangeColumns. set_solver.
        -- apply (Hcells i r ("startCoverageIndex", "USHORT",
                              λ r, TNum (range_index r)) Hi).
           unfold coverageRangeColumns. set_solver.
  - unfold new_Coverage in Hnew.
    apply Z.eqb_neq in H1, H2. by rewrite H1, H2 in Hnew.
Qed.

Lemma Coverage_table_reads_back_witness :
  ∃ t, new_Coverage rangeCoverage = Normal t
       ∧ readsBack t
       ∧ get t "startGlyphID1" = TNum 7.
Proof.
  eexists. split; [reflexivity|].
  destruct (Coverage_table_reads_back rangeCoverage _ eq_refl)
    as (Hback & _ & _ & Hranges).
  split; [exact Hback|].
  destruct (Hranges eq_refl) as [_ Hrange].
  exact (proj1 (Hrange 1%nat {| range_start := 7; range_end := 8; range_index := 3 |}
                  eq_refl)).
Defined.

Lemma new_ClassDef_format1 c :
  classFormat c = 1 →
  new_ClassDef c = Normal (new_Table "classDefTable"
    ([ushortField "classFormat" 1;
      ushortField "startGlyphID" (startGlyph c);
      ushortField "glyphCount" (Z.of_nat (length (classes c)))]
       ++ rows [ushortColumn "glyph"] (classes c)) None).
Proof.
  intros Hf. unfold new_ClassDef. rewrite Hf. simpl. by rewrite ushortList_rows.
Qed.

Lemma new_ClassDef_format2 c :
  classFormat c = 2 →
  new_ClassDef c = Normal (new_Table "classDefTable"
    ([ushortField "classFormat" 2;
      ushortField "rangeRecordCount" (Z.of_nat (length (classRanges c)))]
       ++ rows classRangeColumns (classRanges c)) None).
Proof.
  intros Hf. unfold new_ClassDef, recordList. rewrite Hf. simpl.
  assert (H : recordList_from (λ (RangeRecord : ClassRangeRecord) (i : nat),
      Normal
        [ushortField ("startGlyphID" +:+ pretty i) (class_start RangeRecord);
         ushortField ("endGlyphID" +:+ pretty i) (class_end RangeRecord);
         ushortField ("class" +:+ pretty i) (classId RangeRecord)])
      0 (classRanges c) = Normal (rows classRangeColumns (classRanges c)))
    by apply (recordList_from_rows classRangeColumns).
  by rewrite H.
Qed.

(** X7.  [new Coverage] and [new ClassDef] return a table for the
    formats 1 and 2, and for no other: on any other format they throw
    the [Error] "Coverage format must be 1 or 2." and "Class format
    must be 1 or 2.", whatever else the argument holds. *)
Theorem Coverage_and_ClassDef_formats (c : CoverageTable) (d : ClassDefTable) :
  ((∃ t, new_Coverage c = Normal t) ↔ format c = 1 ∨ format c = 2)
  ∧ (¬ (format c = 1 ∨ format c = 2) →
       new_Coverage c = Throw "Coverage format must be 1 or 2.")
  ∧ ((∃ t, new_ClassDef d = Normal t) ↔ classFormat d = 1 ∨ classFormat d = 2)
  ∧ (¬ (classFormat d = 1 ∨ classFormat d = 2) →
       new_ClassDef d = Throw "Class format must be 1 or 2.").
Proof.
  assert (Hc : ¬ (format c = 1 ∨ format c = 2) →
               new_Coverage c = Throw "Coverage format must be 1 or 2.").
  { intros Hne. unfold new_Coverage.
    destruct (format c =? 1) eqn:E1; [apply Z.eqb_eq in E1; tauto|].
    destruct (format c =? 2) eqn:E2; [apply Z.eqb_eq in E2; tauto|]. done. }
  assert (Hd : ¬ (classFormat d = 1 ∨ classFormat d = 2) →
               new_ClassDef d = Throw "Class format must be 1 or 2.").
  { intros Hne. unfold new_ClassDef.
    destruct (classFormat d =? 1) eqn:E1; [apply Z.eqb_eq in E1; tauto|].
    destruct (classFormat d =? 2) eqn:E2; [apply Z.eqb_eq in E2; tauto|]. done. }
  split_and!; [|done| |done].
  - split.
    + intros [t Ht]. destruct (decide (format c = 1 ∨ format c = 2)) as [|Hne]; [done|].
      by rewrite (Hc Hne) in Ht.
    + intros [H|H]; eexists; [by apply new_Coverage_format1|by apply new_Coverage_format2].
  - split.
    + intros [t Ht].
      destruct (decide (classFormat d = 1 ∨ classFormat d = 2)) as [|Hne]; [done|].
      by rewrite (Hd Hne) in Ht.
    + intros [H|H]; eexists; [by apply new_ClassDef_format1|by apply new_ClassDef_format2].
Qed.

Lemma Coverage_and_ClassDef_formats_witness :
  new_Coverage {| format := 3; glyphs := [1; 2]; ranges := [] |}
    = Throw "Coverage format must be 1 or 2."
  ∧ ∃ t, new_ClassDef rangeClassDef = Normal t.
Proof.
  destruct (Coverage_and_ClassDef_formats
              {| format := 3; glyphs := [1; 2]; ranges := [] |} rangeClassDef)
    as (_ & Hthrow & Hclass & _).
  split.
  - apply Hthrow. simpl. lia.
  - apply Hclass. by right.
Defined.

(** X8.  The table [new ClassDef] returns reads back: every field is
    the property of its own name.  For the format 1 [startGlyphID] is
    the start glyph, [glyphCount] the number of classes and [glyph<i>]
    the class at [i]; for the format 2 [rangeRecordCount] is the number
    of ranges, and [startGlyphID<i>], [endGlyphID<i>] and [class<i>] are
    the start, the end and the class of the range at [i]. *)
Theorem ClassDef_table_reads_back (d : ClassDefTable) (t : Table) :
  new_ClassDef d = Normal t →
  readsBack t
  ∧ get t "classFormat" = TNum (classFormat d)
  ∧ (classFormat d = 1 →
       get t "startGlyphID" = TNum (startGlyph d)
       ∧ get t "glyphCount" = TNum (Z.of_nat (length (classes d)))
       ∧ ∀ (i : nat) k, classes d !! i = Some k →
           get t ("glyph" +:+ pretty i) = TNum k)
  ∧ (classFormat d = 2 →
       get t "rangeRecordCount" = TNum (Z.of_nat (length (classRanges d)))
       ∧ ∀ (i : nat) r, classRanges d !! i = Some r →
           get t ("startGlyphID" +:+ pretty i) = TNum (class_start r)
           ∧ get t ("endGlyphID" +:+ pretty i) = TNum (class_end r)
           ∧ get t ("class" +:+ pretty i) = TNum (classId r)).
Proof.
  intros Hnew.
  destruct (decide (classFormat d = 1)) as [H1|H1];
    [|destruct (decide (classFormat d = 2)) as [H2|H2]].
  - rewrite (new_ClassDef_format1 _ H1) in Hnew. injection Hnew as <-.
    destruct (tabular_readsBack "classDefTable"
      [ushortField "classFormat" 1;
       ushortField "startGlyphID" (startGlyph d);
       ushortField "glyphCount" (Z.of_nat (length (classes d)))]
      [ushortColumn "glyph"] (classes d)) as (Hback & Hheads & Hcells);
      [tabular_side..|].
    split_and!; [done| | |intros; congruence].
    + rewrite H1. apply (Hheads (ushortField "classFormat" 1)). set_solver.
    + intros _. split_and!.
      * apply (Hheads (ushortField "startGlyphID" _)). set_solver.
      * apply (Hheads (ushortField "glyphCount" _)). set_solver.
      * intros i k Hi. apply (Hcells i k (ushortColumn "glyph") Hi). set_solver.
  - rewrite (new_ClassDef_format2 _ H2) in Hnew. injection Hnew as <-.
    destruct (tabular_readsBack "classDefTable"
      [ushortField "classFormat" 2;
       ushortField "rangeRecordCount" (Z.of_nat (length (classRanges d)))]
      classRangeColumns (classRanges d)) as (Hback & Hheads & Hcells);
      [tabular_side..|].
    split_and!; [done| |intros; congruence|].
    + rewrite H2. apply (Hheads (ushortField "classFormat" 2)). set_solver.
    + intros _. split.
      * apply (Hheads (ushortField "rangeRecordCount" _)). set_solver.
      * intros i r Hi. split_and!.
        -- apply (Hcells i r ("startGlyphID", "USHORT", λ r, TNum (class_start r)) Hi).
           unfold classRangeColumns. set_solver.
        -- apply (Hcells i r ("endGlyphID", "USHORT", λ r, TNum (class_end r)) Hi).
           unfold classRangeColumns. set_solver.
        -- apply (Hcells i r ("class", "USHORT", λ r, TNum (classId r)) Hi).
           unfold classRangeColumns. set_solver.
  - unfold new_ClassDef in Hnew.
    apply Z.eqb_neq in H1, H2. by rewrite H1, H2 in Hnew.
Qed.

Lemma ClassDef_table_reads_back_witness :
  ∃ t, new_ClassDef rangeClassDef = Normal t
       ∧ readsBack t
       ∧ get t "class1" = TNum 2.
Proof.
  eexists. split; [reflexivity|].
  destruct (ClassDef_table_reads_back rangeClassDef _ eq_refl)
    as (Hback & _ & _ & Hranges).
  split; [exact Hback|].
  destruct (Hranges eq_refl) as [_ Hrange].
  exact (proj2 (proj2 (Hrange 1%nat {| class_start := 7; class_end := 8; classId := 2 |}
                         eq_refl))).
Defined.

Lemma FeatureList_rows fl :
  FeatureList fl = Normal (new_Table "featureListTable"
    ([ushortField "featureRecordCount" (Z.of_nat (length fl))]
       ++ rows featureColumns fl) None).
Proof.
  unfold FeatureList, recordList.
  change (recordList_from _ 0 fl)
    with (recordList_from (λ (r : FeatureRecord) (i : nat),
            Normal ((λ c, cell c r i) <$> featureColumns)) 0 fl).
  by rewrite recordList_from_rows.
Qed.

Lemma featureFields_rows ft :
  featureFields ft
    = [ushortField "featureParams" (featureParams ft);
       ushortField "lookupListIndexCount" (Z.of_nat (length (lookupListIndexes ft)))]
      ++ rows [ushortColumn "lookupListIndex"] (Z.of_nat <$> lookupListIndexes ft).
Proof. unfold featureFields. by rewrite ushortList_rows, length_fmap. Qed.

(** X9.  [new FeatureList] never throws, and its table reads back, at
    both levels.  [featureRecordCount] is the number of features; for
    the feature at [i], [featureTag<i>] is its tag and [feature<i>] its
    feature table, in which [featureParams] and [lookupListIndexCount]
    are the parameters and the number of lookup indexes of the feature,
    and [lookupListIndex<j>] is its lookup index at [j]. *)
Theorem FeatureList_table_reads_back (fl : list FeatureRecord) :
  ∃ t, FeatureList fl = Normal t
    ∧ readsBack t
    ∧ get t "featureRecordCount" = TNum (Z.of_nat (length fl))
    ∧ ∀ (i : nat) fr, fl !! i = Some fr →
        get t ("featureTag" +:+ pretty i) = TStr (featureTag fr)
        ∧ ∃ ft, get t ("feature" +:+ pretty i) = TTable ft
            ∧ readsBack ft
            ∧ get ft "featureParams" = TNum (featureParams (feature fr))
            ∧ get ft "lookupListIndexCount"
                = TNum (Z.of_nat (length (lookupListIndexes (feature fr))))
            ∧ ∀ (j : nat) li, lookupListIndexes (feature fr) !! j = Some li →
                get ft ("lookupListIndex" +:+ pretty j) = TNum (Z.of_nat li).
Proof.
  eexists. split; [apply FeatureList_rows|].
  destruct (tabular_readsBack "featureListTable"
    [ushortField "featureRecordCount" (Z.of_nat (length fl))]
    featureColumns fl) as (Hback & Hheads & Hcells); [tabular_side..|].
  split_and!; [done| |].
  - apply (Hheads (ushortField "featureRecordCount" _)). set_solver.
  - intros i fr Hi. split.
    + apply (Hcells i fr ("featureTag", "TAG", λ r, TStr (featureTag r)) Hi).
      unfold featureColumns. set_solver.
    + eexists. split.
      * apply (Hcells i fr ("feature", "TABLE", λ r, TTable
                 (new_Table "featureTable" (featureFields (feature r)) None)) Hi).
        unfold featureColumns. set_solver.
      * simpl. rewrite featureFields_rows.
        destruct (tabular_readsBack "featureTable"
          [ushortField "featureParams" (featureParams (feature fr));
           ushortField "lookupListIndexCount"
             (Z.of_nat (length (lookupListIndexes (feature fr))))]
          [ushortColumn "lookupListIndex"]
          (Z.of_nat <$> lookupListIndexes (feature fr)))
          as (Hback' & Hheads' & Hcells'); [tabular_side..|].
        split_and!; [done| | |].
        -- apply (Hheads' (ushortField "featureParams" _)). set_solver.
        -- apply (Hheads' (ushortField "lookupListIndexCount" _)). set_solver.
        -- intros j li Hj.
           apply (Hcells' j (Z.of_nat li) (ushortColumn "lookupListIndex")); [|set_solver].
           by rewrite list_lookup_fmap, Hj.
Qed.

(* ================================================================== *)
(** * The lookup list and its subtable makers *)
(* ================================================================== *)

Lemma tableList_from_total {A} itemName (cb : A → nat → completion Table) i recs :
  (∀ r j, r ∈ recs → ∃ t, cb r j = Normal t) →
  ∃ fs, tableList_from itemName cb i recs = Normal fs.
Proof.
  revert i. induction recs as [|r recs IH]; intros i Hall; [by eexists|].
  simpl. destruct (Hall r i) as [t ->]; [by left|].
  destruct (IH (S i)) as [fs ->]; [intros; apply Hall; by right|]. by eexists.
Qed.

Lemma tableList_from_throw {A} itemName (cb : A → nat → completion Table)
    i pre r post msg :
  (∀ x j, x ∈ pre → ∃ t, cb x j = Normal t) →
  (∀ j, cb r j = Throw msg) →
  tableList_from itemName cb i (pre ++ r :: post) = Throw msg.
Proof.
  revert i. induction pre as [|x pre IH]; intros i Hpre Hr; simpl.
  - by rewrite Hr.
  - destruct (Hpre x i) as [t ->]; [by left|]. simpl.
    rewrite IH; [done| |done]. intros; apply Hpre; by right.
Qed.

(** What [tableList] returns is a row of TABLE fields, one for each
    record, holding the table the callback made of it. *)
Lemma tableList_from_rows {A} itemName (cb : A → nat → completion Table) i0 recs fs :
  tableList_from itemName cb i0 recs = Normal fs →
  ∃ ts, fs = rows_from [(itemName, "TABLE", TTable)] i0 ts
        ∧ length ts = length recs
        ∧ ∀ j r, recs !! j = Some r →
            ∃ t, ts !! j = Some t ∧ cb r (i0 + j)%nat = Normal t.
Proof.
  revert i0 fs. induction recs as [|r recs IH]; intros i0 fs; simpl.
  - intros [= <-]. exists []. split_and!; [done|done|]. by intros j r H.
  - destruct (cb r i0) as [t| |] eqn:Hcb; simpl; [|done..].
    destruct (tableList_from itemName cb (S i0) recs) as [rest| |] eqn:Hrest;
      simpl; [|done..].
    intros [= <-]. destruct (IH _ _ Hrest) as (ts & -> & Hlen & Hts).
    exists (t :: ts). split_and!.
    + by rewrite rows_from_cons.
    + simpl. by rewrite Hlen.
    + intros [|j] r' Hj; simplify_eq/=.
      * exists t. by rewrite Nat.add_0_r.
      * destruct (Hts j r' Hj) as (t' & Ht' & Hcb'). exists t'.
        split; [done|]. by replace (i0 + S j)%nat with (S i0 + j)%nat by lia.
Qed.

(** X10.  [new LookupList] needs a subtable maker for the type of every
    lookup table.  When every lookup table is writable (its type has a
    maker, it has its subtables, the maker returns for each) the
    constructor returns a table that reads back, [lookupCount] being the
    number of lookup tables and [lookup<i>] a table that reads back and
    holds the type, the flag and the number of subtables of the lookup
    table at [i].  The first lookup table whose type has no maker, the
    ones before it being writable, makes it throw the [Error] that
    names that type. *)
Theorem LookupList_needs_a_maker (lookupListTable : list LookupTable)
    (subtableMakers : gmap Z (Subtable → nat → completion Table)) :
  (Forall (writable subtableMakers) lookupListTable →
     ∃ t, LookupList lookupListTable subtableMakers = Normal t
       ∧ readsBack t
       ∧ get t "lookupCount" = TNum (Z.of_nat (length lookupListTable))
       ∧ ∀ (i : nat) lt, lookupListTable !! i = Some lt →
           ∃ lkt sts, get t ("lookup" +:+ pretty i) = TTable lkt
             ∧ readsBack lkt
             ∧ get lkt "lookupType" = TNum (lookupType lt)
             ∧ get lkt "lookupFlag" = TNum (lookupFlag lt)
             ∧ subtables lt = Some sts
             ∧ get lkt "subtableCount" = TNum (Z.of_nat (length sts)))
  ∧ (∀ pre lt post,
       lookupListTable = pre ++ lt :: post →
       Forall (writable subtableMakers) pre →
       subtableMakers !! lookupType lt = None →
       LookupList lookupListTable subtableMakers
         = Throw (unableToWrite (lookupType lt))).
Proof.
  set (cb := λ (lookupTable : LookupTable) (_ : nat),
    match subtableMakers !! lookupType lookupTable with
    | None =>
        fail ("Unable to write GSUB lookup type " +:+ pretty (lookupType lookupTable)
                +:+ " tables.")
    | Some subtableCallback =>
        match subtables lookupTable with
        | None => Throw TypeError
        | Some sts =>
            fs' ← tableList "subtable" sts subtableCallback;
            Normal (new_Table "lookupTable"
              ([ushortField "lookupType" (lookupType lookupTable);
                ushortField "lookupFlag" (lookupFlag lookupTable)] ++ fs') None)
        end
    end).
  assert (Hcb : ∀ lt j, writable subtableMakers lt →
    ∃ sts ts, subtables lt = Some sts ∧ length ts = length sts
      ∧ cb lt j = Normal (new_Table "lookupTable"
          ([ushortField "lookupType" (lookupType lt);
            ushortField "lookupFlag" (lookupFlag lt);
            ushortField "subtableCount" (Z.of_nat (length sts))]
             ++ rows [("subtable", "TABLE", TTable)] ts) None)).
  { intros lt j (maker & sts & Hmaker & Hsts & Hall). unfold cb.
    rewrite Hmaker, Hsts. unfold tableList.
    destruct (tableList_from_total "subtable" maker 0 sts) as [fs Hfs];
      [by intros; apply Hall|].
    rewrite Hfs. simpl.
    destruct (tableList_from_rows _ _ _ _ _ Hfs) as (ts & -> & Hlen & _).
    by exists sts, ts. }
  split.
  - intros Hall. rewrite Forall_forall in Hall.
    unfold LookupList. fold cb. unfold tableList.
    destruct (tableList_from_total "lookup" cb 0 lookupListTable) as [fs Hfs].
    { intros lt j Hin. destruct (Hcb lt j (Hall _ Hin)) as (? & ? & _ & _ & ->).
      by eexists. }
    rewrite Hfs. simpl.
    destruct (tableList_from_rows _ _ _ _ _ Hfs) as (ts & -> & Hlen & Hts).
    eexists. split; [done|].
    destruct (tabular_readsBack "lookupListTable"
      [ushortField "lookupCount" (Z.of_nat (length lookupListTable))]
      [("lookup", "TABLE", TTable)] ts) as (Hback & Hheads & Hcells);
      [tabular_side..|].
    split_and!; [done| |].
    + apply (Hheads (ushortField "lookupCount" _)). set_solver.
    + intros i lt Hi. destruct (Hts i lt Hi) as (lkt & Hlkt & Hmade).
      assert (Hin : lt ∈ lookupListTable) by (by eapply list_elem_of_lookup_2).
      destruct (Hcb lt (0 + i)%nat (Hall _ Hin)) as (sts & ts' & Hsts & Hlen' & Heq).
      rewrite Heq in Hmade. injection Hmade as <-.
      eexists _, sts. split.
      { apply (Hcells i _ ("lookup", "TABLE", TTable) Hlkt). set_solver. }
      destruct (tabular_readsBack "lookupTable"
        [ushortField "lookupType" (lookupType lt);
         ushortField "lookupFlag" (lookupFlag lt);
         ushortField "subtableCount" (Z.of_nat (length sts))]
        [("subtable", "TABLE", TTable)] ts') as (Hback' & Hheads' & _);
        [tabular_side..|].
      split_and!; [done| | |done|].
      * apply (Hheads' (ushortField "lookupType" _)). set_solver.
      * apply (Hheads' (ushortField "lookupFlag" _)). set_solver.
      * apply (Hheads' (ushortField "subtableCount" _)). set_solver.
  - intros pre lt post -> Hpre Hnone. rewrite Forall_forall in Hpre.
    unfold LookupList. fold cb. unfold tableList.
    rewrite (tableList_from_throw "lookup" cb 0 pre lt post
               (unableToWrite (lookupType lt))); [done| |].
    + intros x j Hin. destruct (Hcb x j (Hpre _ Hin)) as (? & ? & _ & _ & ->).
      by eexists.
    + intros j. unfold cb. by rewrite Hnone.
Qed.

Lemma LookupList_needs_a_maker_witness :
  Forall (writable {[ 1 := formatMaker ]}) [deltaLookup]
  ∧ LookupList [deltaLookup; ligatureLookup] {[ 1 := formatMaker ]}
      = Throw "Unable to write GSUB lookup type 4 tables."
  ∧ ∃ t, LookupList [deltaLookup] {[ 1 := formatMaker ]} = Normal t.
Proof.
  assert (Hw : Forall (writable {[ 1 := formatMaker ]}) [deltaLookup]).
  { apply Forall_singleton. exists formatMaker, [deltaSubtable].
    split_and!; [done|done|]. intros st i _. by eexists. }
  destruct (LookupList_needs_a_maker [deltaLookup; ligatureLookup]
              {[ 1 := formatMaker ]}) as [_ Hthrow].
  destruct (LookupList_needs_a_maker [deltaLookup] {[ 1 := formatMaker ]})
    as [Hreturn _].
  split_and!; [exact Hw| |].
  - exact (Hthrow [deltaLookup] ligatureLookup [] eq_refl Hw eq_refl).
  - destruct (Hreturn Hw) as (t & Ht & _). by exists t.
Defined.

(* ================================================================== *)
(** * The script list reads back *)
(* ================================================================== *)

Lemma langSysFields_rows ls :
  langSysFields ls
    = [ushortField "lookupOrder" 0;
       ushortField "reqFeatureIndex" (reqFeatureIndex ls);
       ushortField "featureIndexCount" (Z.of_nat (length (featureIndexes ls)))]
      ++ rows [ushortColumn "featureIndex"] (Z.of_nat <$> featureIndexes ls).
Proof. unfold langSysFields. by rewrite ushortList_rows, length_fmap. Qed.

Lemma ScriptList_rows_from i sl fs :
  recordList_from (λ (scriptRecord : ScriptRecord) (i : nat),
    match defaultLangSys (script scriptRecord) with
    | None =>
        fail ("Unable to write GSUB: script " +:+ scriptTag scriptRecord
                +:+ " has no default language system.")
    | Some defaultLangSys' =>
        langSysFields' ← recordList "langSys" (langSysRecords (script scriptRecord))
          (λ langSysRecord i,
             Normal
               [{| name := "langSysTag" +:+ pretty i; type := "TAG";
                   value := TStr (langSysTag langSysRecord) |};
                {| name := "langSys" +:+ pretty i; type := "TABLE";
                   value := TTable (new_Table "langSys"
                              (langSysFields (langSys langSysRecord)) None) |}]);
        Normal
          [{| name := "scriptTag" +:+ pretty i; type := "TAG";
              value := TStr (scriptTag scriptRecord) |};
           {| name := "script" +:+ pretty i; type := "TABLE";
              value := TTable (new_Table "scriptTable"
                ({| name := "defaultLangSys"; type := "TABLE";
                    value := TTable (new_Table "defaultLangSys"
                               (langSysFields defaultLangSys') None) |}
                   :: langSysFields') None) |}]
    end) i sl = Normal fs →
  fs = rows_from scriptColumns i sl ∧ Forall hasDefaultLangSys sl.
Proof.
  revert i fs. induction sl as [|r sl IH]; intros i fs; simpl.
  - intros [= <-]. by split.
  - destruct (defaultLangSys (script r)) as [d|] eqn:Hd; [|done].
    unfold recordList.
    change (recordList_from _ 0 (langSysRecords (script r)))
      with (recordList_from (λ (lr : LangSysRecord) (i : nat),
              Normal ((λ c, cell c lr i) <$> langSysColumns)) 0
              (langSysRecords (script r))).
    rewrite recordList_from_rows. simpl.
    match goal with
    | |- context [recordList_from ?cb (S i) sl] =>
        destruct (recordList_from cb (S i) sl) as [rest| |] eqn:Hrest
    end; simpl; [|done..].
    intros [= <-]. destruct (IH _ _ Hrest) as [-> Hall]. split.
    + rewrite rows_from_cons. simpl. unfold cell. simpl. by rewrite Hd.
    + constructor; [by eexists|done].
Qed.

(** X11.  The table [new ScriptList] returns reads back, at each of its
    levels.  [scriptRecordCount] is the number of scripts; for the
    script at [i], [scriptTag<i>] is its tag and [script<i>] its script
    table.  In the script table, [defaultLangSys] is the table of the
    default language system and [langSysCount] the number of language
    system records; for the record at [k], [langSysTag<k>] is its tag
    and [langSys<k>] the table of its language system.  In the table of
    a language system, [reqFeatureIndex] and [featureIndexCount] are its
    required feature index and the number of its feature indexes, and
    [featureIndex<j>] is its feature index at [j]. *)
Theorem ScriptList_table_reads_back (scriptListTable : list ScriptRecord) (t : Table) :
  ScriptList scriptListTable = Normal t →
  readsBack t
  ∧ get t "scriptRecordCount" = TNum (Z.of_nat (length scriptListTable))
  ∧ (∀ (i : nat) r, scriptListTable !! i = Some r →
      get t ("scriptTag" +:+ pretty i) = TStr (scriptTag r)
      ∧ ∃ st, get t ("script" +:+ pretty i) = TTable st
          ∧ readsBack st
          ∧ get st "langSysCount"
              = TNum (Z.of_nat (length (langSysRecords (script r))))
          ∧ (∃ d, defaultLangSys (script r) = Some d
               ∧ get st "defaultLangSys"
                   = TTable (new_Table "defaultLangSys" (langSysFields d) None))
          ∧ (∀ (k : nat) lr, langSysRecords (script r) !! k = Some lr →
               get st ("langSysTag" +:+ pretty k) = TStr (langSysTag lr)
               ∧ get st ("langSys" +:+ pretty k)
                   = TTable (new_Table "langSys" (langSysFields (langSys lr)) None)))
  ∧ ∀ tn ls,
      readsBack (new_Table tn (langSysFields ls) None)
      ∧ get (new_Table tn (langSysFields ls) None) "reqFeatureIndex"
          = TNum (reqFeatureIndex ls)
      ∧ get (new_Table tn (langSysFields ls) None) "featureIndexCount"
          = TNum (Z.of_nat (length (featureIndexes ls)))
      ∧ ∀ (j : nat) fi, featureIndexes ls !! j = Some fi →
          get (new_Table tn (langSysFields ls) None) ("featureIndex" +:+ pretty j)
            = TNum (Z.of_nat fi).
Proof.
  unfold ScriptList, recordList.
  match goal with
  | |- context [recordList_from ?cb 0 scriptListTable] =>
      destruct (recordList_from cb 0 scriptListTable) as [fs| |] eqn:Hfs
  end; simpl; [|done..].
  intros [= <-]. apply ScriptList_rows_from in Hfs as [-> Hall].
  rewrite Forall_forall in Hall.
  destruct (tabular_readsBack "scriptListTable"
    [ushortField "scriptRecordCount" (Z.of_nat (length scriptListTable))]
    scriptColumns scriptListTable) as (Hback & Hheads & Hcells); [tabular_side..|].
  split_and!; [done| | |].
  - apply (Hheads (ushortField "scriptRecordCount" _)). set_solver.
  - intros i r Hi. split.
    + apply (Hcells i r ("scriptTag", "TAG", λ r, TStr (scriptTag r)) Hi).
      unfold scriptColumns. set_solver.
    + destruct (Hall r) as [d Hd]; [by eapply list_elem_of_lookup_2|].
      exists (scriptTableOf (script r) d). split.
      { rewrite <- (f_equal (λ o, match o with
                                  | Some d => TTable (scriptTableOf (script r) d)
                                  | None => TUndef
                                  end) Hd).
        apply (Hcells i r ("script", "TABLE",
                 λ r, match defaultLangSys (script r) with
                      | Some d => TTable (scriptTableOf (script r) d)
                      | None => TUndef
                      end) Hi).
        unfold scriptColumns. set_solver. }
      unfold scriptTableOf.
      destruct (tabular_readsBack "scriptTable"
        [{| name := "defaultLangSys"; type := "TABLE";
            value := TTable (new_Table "defaultLangSys" (langSysFields d) None) |};
         ushortField "langSysCount" (Z.of_nat (length (langSysRecords (script r))))]
        langSysColumns (langSysRecords (script r))) as (Hback' & Hheads' & Hcells');
        [tabular_side..|].
      split_and!; [done| | |].
      * apply (Hheads' (ushortField "langSysCount" _)). set_solver.
      * exists d. split; [done|].
        apply (Hheads' {| name := "defaultLangSys"; type := "TABLE";
                          value := TTable (new_Table "defaultLangSys"
                                             (langSysFields d) None) |}).
        set_solver.
      * intros k lr Hk. split.
        -- apply (Hcells' k lr ("langSysTag", "TAG", λ r, TStr (langSysTag r)) Hk).
           unfold langSysColumns. set_solver.
        -- apply (Hcells' k lr ("langSys", "TABLE", λ r, TTable
                    (new_Table "langSys" (langSysFields (langSys r)) None)) Hk).
           unfold langSysColumns. set_solver.
  - intros tn ls. rewrite langSysFields_rows.
    destruct (tabular_readsBack tn
      [ushortField "lookupOrder" 0;
       ushortField "reqFeatureIndex" (reqFeatureIndex ls);
       ushortField "featureIndexCount" (Z.of_nat (length (featureIndexes ls)))]
      [ushortColumn "featureIndex"] (Z.of_nat <$> featureIndexes ls))
      as (Hback' & Hheads' & Hcells'); [tabular_side..|].
    split_and!; [done| | |].
    + apply (Hheads' (ushortField "reqFeatureIndex" _)). set_solver.
    + apply (Hheads' (ushortField "featureIndexCount" _)). set_solver.
    + intros j fi Hj.
      apply (Hcells' j (Z.of_nat fi) (ushortColumn "featureIndex")); [|set_solver].
      by rewrite list_lookup_fmap, Hj.
Qed.

Lemma ScriptList_table_reads_back_witness :
  ∃ t, ScriptList (scripts createDefaultTable) = Normal t
       ∧ readsBack t
       ∧ get t "scriptTag0" = TStr "DFLT".
Proof.
  eexists. split; [reflexivity|].
  destruct (ScriptList_table_reads_back (scripts createDefaultTable) _ eq_refl)
    as (Hback & _ & Hscripts & _).
  split; [exact Hback|].
  exact (proj1 (Hscripts 0%nat _ eq_refl)).
Defined.

(* ================================================================== *)
(** * The string pool of the `meta` table *)
(* ================================================================== *)

Lemma append_cons (x : ascii) (a b : string) : String x a +:+ b = String x (a +:+ b).
Proof. reflexivity. Qed.

Lemma length_append (a b : string) :
  String.length (a +:+ b) = (String.length a + String.length b)%nat.
Proof. induction a as [|c a IH]; [done|]. rewrite append_cons. simpl. by rewrite IH. Qed.

Lemma append_assoc (a b c : string) : (a +:+ b) +:+ c = a +:+ b +:+ c.
Proof. induction a as [|x a IH]; [done|]. rewrite !append_cons. by rewrite IH. Qed.

Lemma append_empty_r (a : string) : a +:+ "" = a.
Proof. induction a as [|x a IH]; [done|]. rewrite append_cons. by rewrite IH. Qed.

Lemma substring_prefix (a b : string) : String.substring 0 (String.length a) (a +:+ b) = a.
Proof.
  induction a as [|x a IH]; [by destruct b|]. rewrite append_cons. simpl. by rewrite IH.
Qed.

Lemma substring_skip (a s : string) (n m : nat) :
  String.substring (String.length a + n) m (a +:+ s) = String.substring n m s.
Proof. induction a as [|x a IH]; [done|]. rewrite append_cons. simpl. by rewrite IH. Qed.

Lemma poolOf_app t1 t2 : poolOf (t1 ++ t2) = poolOf t1 +:+ poolOf t2.
Proof.
  induction t1 as [|[tag text] t1 IH]; [done|]. simpl. by rewrite IH, append_assoc.
Qed.

(** The loop appends the texts to the pool and three fields for each tag
    to the fields; the fields of the tag at [i] sit at [3 i], [3 i + 1]
    and [3 i + 2] past the fields the loop found, and its offset is the
    length of the pool when the loop reached it. *)
Lemma meta_loop_spec off tags pool fs :
  ∃ entries,
    meta_loop off tags pool fs = (pool +:+ poolOf tags, fs ++ entries)
    ∧ length entries = (length tags * 3)%nat
    ∧ ∀ (i : nat) tag text, tags !! i = Some (tag, text) →
        entries !! (i * 3)%nat
          = Some {| name := "tag " +:+ tag; type := "TAG"; value := TStr tag |}
        ∧ entries !! (i * 3 + 1)%nat
          = Some {| name := "offset " +:+ tag; type := "ULONG";
                    value := TNum (off + Z.of_nat (String.length pool
                               + String.length (poolOf (take i tags)))) |}
        ∧ entries !! (i * 3 + 2)%nat
          = Some {| name := "length " +:+ tag; type := "ULONG";
                    value := TNum (Z.of_nat (String.length text)) |}.
Proof.
  revert pool fs. induction tags as [|[tag text] tags IH]; intros pool fs.
  - exists []. simpl. rewrite append_empty_r, app_nil_r. split_and!; [done|done|].
    by intros i tag text H.
  - simpl. destruct (IH (pool +:+ text) (fs ++ meta_entry off (String.length pool) tag text))
      as (entries & -> & Hlen & Hent).
    exists (meta_entry off (String.length pool) tag text ++ entries).
    rewrite append_assoc, <- app_assoc. split_and!; [done| |].
    + rewrite length_app, Hlen. simpl. lia.
    + intros [|i] tag' text' Hi; simpl in Hi.
      * injection Hi as <- <-. simpl. by rewrite Nat.add_0_r.
      * destruct (Hent i tag' text' Hi) as (H1 & H2 & H3).
        simpl. rewrite H1, H2, H3. split_and!; [done| |done].
        do 4 f_equal. rewrite !length_append. lia.
Qed.

(** X12.  The offsets and lengths [make] writes for the `meta` table
    describe its string pool.  The fields are the four header fields,
    three fields for each tag in the order of the enumeration, and the
    string pool, which is the texts one after the other.  The offset
    header is 16 bytes of header and 12 bytes for each tag; the offset of
    a tag is that offset plus the position [pos] of its text in the
    pool, its length is the length of its text, and the text is the
    substring of the pool these two describe. *)
Theorem meta_make_describes_its_pool (tags : list (string * string)) (i : nat)
    (tag text : string) :
  tags !! i = Some (tag, text) →
  ∃ fs (pos : nat),
    fields (meta_make tags) = TFields fs
    ∧ length fs = (4 + 3 * length tags + 1)%nat
    ∧ get (meta_make tags) "offset" = TNum (16 + Z.of_nat (length tags) * 12)
    ∧ get (meta_make tags) "numTags" = TNum (Z.of_nat (length tags))
    ∧ last fs = Some {| name := "stringPool"; type := "CHARARRAY";
                        value := TStr (poolOf tags) |}
    ∧ fs !! (4 + 3 * i)%nat
        = Some {| name := "tag " +:+ tag; type := "TAG"; value := TStr tag |}
    ∧ fs !! (4 + 3 * i + 1)%nat
        = Some {| name := "offset " +:+ tag; type := "ULONG";
                  value := TNum (16 + Z.of_nat (length tags) * 12 + Z.of_nat pos) |}
    ∧ fs !! (4 + 3 * i + 2)%nat
        = Some {| name := "length " +:+ tag; type := "ULONG";
                  value := TNum (Z.of_nat (String.length text)) |}
    ∧ pos = String.length (poolOf (take i tags))
    ∧ String.substring pos (String.length text) (poolOf tags) = text.
Proof.
  intros Hi. unfold meta_make.
  set (off := 16 + Z.of_nat (length tags) * 12).
  set (header := [{| name := "version"; type := "ULONG"; value := TNum 1 |};
                  {| name := "flags"; type := "ULONG"; value := TNum 0 |};
                  {| name := "offset"; type := "ULONG"; value := TNum off |};
                  {| name := "numTags"; type := "ULONG";
                     value := TNum (Z.of_nat (length tags)) |}]).
  destruct (meta_loop_spec off tags "" header) as (entries & -> & Hlen & Hent).
  destruct (Hent i tag text Hi) as (H1 & H2 & H3).
  eexists _, (String.length (poolOf (take i tags))). split_and!.
  - done.
  - rewrite !length_app, Hlen. simpl. lia.
  - done.
  - done.
  - by rewrite last_snoc.
  - rewrite <- app_assoc. rewrite (lookup_app_r header) by (simpl; lia).
    rewrite lookup_app_l by (apply lookup_lt_Some in H1; simpl; lia).
    replace (4 + 3 * i - length header)%nat with (i * 3)%nat by (simpl; lia).
    by rewrite H1.
  - rewrite <- app_assoc. rewrite (lookup_app_r header) by (simpl; lia).
    rewrite lookup_app_l by (apply lookup_lt_Some in H2; simpl; lia).
    replace (4 + 3 * i + 1 - length header)%nat with (i * 3 + 1)%nat by (simpl; lia).
    by rewrite H2.
  - rewrite <- app_assoc. rewrite (lookup_app_r header) by (simpl; lia).
    rewrite lookup_app_l by (apply lookup_lt_Some in H3; simpl; lia).
    replace (4 + 3 * i + 2 - length header)%nat with (i * 3 + 2)%nat by (simpl; lia).
    by rewrite H3.
  - done.
  - rewrite <- (take_drop_middle _ _ _ Hi) at 2. rewrite poolOf_app. simpl.
    rewrite <- (Nat.add_0_r (String.length (poolOf (take i tags)))).
    rewrite substring_skip. apply substring_prefix.
Qed.

Lemma meta_make_describes_its_pool_witness :
  [("dlng", "en-Latn"); ("slng", "Latn")] !! 1%nat = Some ("slng", "Latn")
  ∧ ∃ fs, fields (meta_make [("dlng", "en-Latn"); ("slng", "Latn")]) = TFields fs
      ∧ fs !! 8%nat
          = Some {| name := "offset slng"; type := "ULONG"; value := TNum 47 |}
      ∧ String.substring 7 4 "en-LatnLatn" = "Latn".
Proof.
  split; [reflexivity|].
  destruct (meta_make_describes_its_pool [("dlng", "en-Latn"); ("slng", "Latn")]
              1 "slng" "Latn" eq_refl)
    as (fs & pos & Hfs & _ & _ & _ & _ & _ & Hoff & _ & -> & Hsub).
  exists fs. split_and!; [exact Hfs|exact Hoff|exact Hsub].
Defined.

(* ================================================================== *)
(** * The names of a font *)
(* ================================================================== *)

Lemma or_else_nonempty o fallback : fallback ≠ "" → font_js.or_else o fallback ≠ "".
Proof.
  intros Hf. unfold font_js.or_else. destruct o as [s|]; [|done].
  destruct (String.eqb s "") eqn:E; [done|]. by apply String.eqb_neq.
Qed.

Lemma or_else_truthy o fallback s :
  o = Some s → s ≠ "" → font_js.or_else o fallback = s.
Proof.
  intros -> Hs. unfold font_js.or_else. apply String.eqb_neq in Hs. by rewrite Hs.
Qed.

Lemma truthy_string_Some o :
  font_js.truthy_string o = true ↔ ∃ s, o = Some s ∧ s ≠ "".
Proof.
  unfold font_js.truthy_string. destruct o as [s|].
  - rewrite negb_true_iff, String.eqb_neq. split; [by exists s|].
    by intros (s' & [= <-] & H).
  - split; [done|]. by intros (s & H & _).
Qed.

Lemma removeWhitespace_noWhitespace s : noWhitespace (font_js.removeWhitespace s).
Proof.
  induction s as [|c s IH]; [done|]. simpl.
  by destruct (font_js.isWhitespace c) eqn:E.
Qed.

Lemma createDefaultNamesInfo_lookup options key :
  font_js.createDefaultNamesInfo options !! key
    = (λ v : string, {[ "en" := v ]})
        <$> (list_to_map (defaultNames options) : gmap string string) !! key.
Proof.
  rewrite <- lookup_fmap. by f_equal.
Qed.

Lemma defaultNames_keys options : (defaultNames options).*1 = defaultNameKeys.
Proof. done. Qed.

(** [getEnglishName] on the names the constructor sets: the English
    entry of the default name of the key. *)
Lemma getEnglishName_default options names key :
  font_js.Font_names options = Normal (Some names) →
  font_js.getEnglishName (Some names) key
    = Normal ((list_to_map (defaultNames options) : gmap string string) !! key).
Proof.
  intros Hnames.
  assert (font_js.unicode names = Some (font_js.createDefaultNamesInfo options))
    as Hunicode.
  { revert Hnames. unfold font_js.Font_names. destruct (negb _); [|done].
    repeat (match goal with
            | |- context [checkArgument ?b ?m] => destruct b; simpl; [|done]
            end).
    by intros [= <-]. }
  unfold font_js.getEnglishName. rewrite Hunicode.
  rewrite createDefaultNamesInfo_lookup.
  destruct ((list_to_map (defaultNames options) : gmap string string) !! key)
    as [v|]; simpl; [|done].
  by rewrite lookup_singleton_eq.
Qed.

(** X13.  The constructor of [Font] leaves no name empty, but one.  For
    options that pass its checks, [getEnglishName] returns the family
    name for "fontFamily" and the style name for "fontSubfamily"; for
    each of the fourteen default keys it returns a string, which is not
    empty unless the key is "postScriptName"; a default postScriptName
    holds no whitespace, and is empty when the family and the style are
    made of whitespace.  For any other key, such as the "weightName"
    that [validate] asks for, it returns [undefined]. *)
Theorem Font_names_are_not_empty (options : font_js.FontOptions)
    (names : font_js.Names) :
  font_js.Font_names options = Normal (Some names) →
  font_js.getEnglishName (Some names) "fontFamily"
    = Normal (font_js.familyName options)
  ∧ font_js.getEnglishName (Some names) "fontSubfamily"
    = Normal (font_js.styleName options)
  ∧ (∀ key, key ∈ defaultNameKeys →
       ∃ s, font_js.getEnglishName (Some names) key = Normal (Some s)
            ∧ (key ≠ "postScriptName" → s ≠ ""))
  ∧ (font_js.postScriptName options = None →
       ∃ s, font_js.getEnglishName (Some names) "postScriptName" = Normal (Some s)
            ∧ noWhitespace s)
  ∧ (∀ key, key ∉ defaultNameKeys →
       font_js.getEnglishName (Some names) key = Normal None)
  ∧ font_js.getEnglishName (Some names) "weightName" = Normal None
  ∧ ∃ names', font_js.Font_names (minimalOptions " " " ") = Normal (Some names')
      ∧ font_js.getEnglishName (Some names') "postScriptName" = Normal (Some "").
Proof.
  intros Hnames.
  assert (Hget := λ key, getEnglishName_default _ _ key Hnames).
  assert (Hchecks : (∃ f, font_js.familyName options = Some f ∧ f ≠ "")
                    ∧ (∃ s, font_js.styleName options = Some s ∧ s ≠ "")).
  { unfold font_js.Font_names in Hnames. destruct (negb _); [|done].
    destruct (font_js.truthy_string (font_js.familyName options)) eqn:E1; [|done].
    destruct (font_js.truthy_string (font_js.styleName options)) eqn:E2; [|done].
    by apply truthy_string_Some in E1, E2. }
  destruct Hchecks as [(f & Hf & Hfne) (st & Hst & Hstne)].
  assert (Hdup : NoDup (defaultNames options).*1).
  { rewrite defaultNames_keys. by apply (bool_decide_unpack _). }
  assert (Hall : Forall (λ e : string * string, e.1 ≠ "postScriptName" → e.2 ≠ "")
                        (defaultNames options)).
  { unfold defaultNames. repeat apply Forall_cons_2; try apply Forall_nil_2; simpl;
      intros Hkey; try done; try (by apply or_else_nonempty).
    apply or_else_nonempty. rewrite Hf. simpl. by destruct f. }
  split_and!.
  - rewrite Hget. f_equal.
    transitivity (Some (font_js.or_else (font_js.familyName options) " ")).
    + apply elem_of_list_to_map_1; [done|]. apply list_elem_of_here.
    + rewrite (or_else_truthy _ _ f Hf Hfne). by rewrite Hf.
  - rewrite Hget. f_equal.
    transitivity (Some (font_js.or_else (font_js.styleName options) " ")).
    + apply elem_of_list_to_map_1; [done|].
      apply list_elem_of_further, list_elem_of_here.
    + rewrite (or_else_truthy _ _ st Hst Hstne). by rewrite Hst.
  - intros key Hkey. rewrite <- (defaultNames_keys options) in Hkey.
    apply list_elem_of_fmap in Hkey as ([k v] & -> & Hin). exists v. split.
    + rewrite Hget. f_equal. by apply elem_of_list_to_map_1.
    + rewrite Forall_forall in Hall. apply (Hall _ Hin).
  - intros Hps.
    exists (font_js.removeWhitespace
              (font_js.to_string (font_js.familyName options)
               +:+ font_js.to_string (font_js.styleName options))).
    split; [|apply removeWhitespace_noWhitespace].
    rewrite Hget. f_equal.
    transitivity (Some (font_js.or_else (font_js.postScriptName options)
      (font_js.removeWhitespace
         (font_js.to_string (font_js.familyName options)
          +:+ font_js.to_string (font_js.styleName options))))).
    + apply elem_of_list_to_map_1; [done|].
      unfold defaultNames. do 3 apply list_elem_of_further. apply list_elem_of_here.
    + by rewrite Hps.
  - intros key Hkey. rewrite Hget. f_equal.
    apply not_elem_of_list_to_map_1. by rewrite defaultNames_keys.
  - by rewrite Hget.
  - eexists. split; [reflexivity|]. by vm_compute.
Qed.

Lemma Font_names_are_not_empty_witness :
  ∃ names, font_js.Font_names (minimalOptions "Demo" "Regular") = Normal (Some names)
    ∧ font_js.getEnglishName (Some names) "fontFamily" = Normal (Some "Demo")
    ∧ font_js.getEnglishName (Some names) "weightName" = Normal None.
Proof.
  eexists. split; [reflexivity|].
  destruct (Font_names_are_not_empty (minimalOptions "Demo" "Regular") _ eq_refl)
    as (Hfamily & _ & _ & _ & _ & Hweight & _).
  split; [exact Hfamily|exact Hweight].
Defined.

(** X14.  The constructor of [Font] asks for a minimum set of options
    unless the font is to be empty: it sets the names exactly when the
    family and the style name are non-empty strings, [unitsPerEm] and
    [ascender] are numbers other than 0 and [descender] is a number that
    is not positive; otherwise it throws the message of the first of
    these, in that order, that fails.  So an ascender of 0 is refused,
    a descender of 0 is accepted, and a descender that is absent is
    refused as not negative. *)
Theorem Font_checks_its_options (options : font_js.FontOptions) :
  font_js.empty options = false →
  ((∃ names, font_js.Font_names options = Normal (Some names))
     ↔ font_js.truthy_string (font_js.familyName options) = true
       ∧ font_js.truthy_string (font_js.styleName options) = true
       ∧ (∃ u, font_js.unitsPerEm options = Some u ∧ u ≠ 0)
       ∧ (∃ a, font_js.ascender options = Some a ∧ a ≠ 0)
       ∧ (∃ d, font_js.descender options = Some d ∧ d <= 0))
  ∧ (font_js.truthy_string (font_js.familyName options) = false →
       font_js.Font_names options
         = Throw "When creating a new Font object, familyName is required.")
  ∧ (font_js.truthy_string (font_js.familyName options) = true →
     font_js.truthy_string (font_js.styleName options) = false →
       font_js.Font_names options
         = Throw "When creating a new Font object, styleName is required.")
  ∧ (font_js.truthy_string (font_js.familyName options) = true →
     font_js.truthy_string (font_js.styleName options) = true →
     font_js.truthy_number (font_js.unitsPerEm options) = false →
       font_js.Font_names options
         = Throw "When creating a new Font object, unitsPerEm is required.")
  ∧ (font_js.truthy_string (font_js.familyName options) = true →
     font_js.truthy_string (font_js.styleName options) = true →
     font_js.truthy_number (font_js.unitsPerEm options) = true →
     font_js.ascender options = Some 0 ∨ font_js.ascender options = None →
       font_js.Font_names options
         = Throw "When creating a new Font object, ascender is required.")
  ∧ (font_js.truthy_string (font_js.familyName options) = true →
     font_js.truthy_string (font_js.styleName options) = true →
     font_js.truthy_number (font_js.unitsPerEm options) = true →
     font_js.truthy_number (font_js.ascender options) = true →
     font_js.descender options = None
       ∨ (∃ d, font_js.descender options = Some d ∧ 0 < d) →
       font_js.Font_names options
         = Throw "When creating a new Font object, negative descender value is required.").
Proof.
  intros Hempty. unfold font_js.Font_names. rewrite Hempty. simpl.
  assert (Hnum : ∀ o, font_js.truthy_number o = true ↔ ∃ n, o = Some n ∧ n ≠ 0).
  { intros [n|]; simpl.
    - rewrite negb_true_iff, Z.eqb_neq. split; [by exists n|].
      by intros (n' & [= <-] & H).
    - split; [done|]. by intros (n & H & _). }
  assert (Hneg : ∀ o, font_js.not_positive o = true ↔ ∃ n, o = Some n ∧ n <= 0).
  { intros [n|]; simpl.
    - rewrite Z.leb_le. split; [by exists n|]. by intros (n' & [= <-] & H).
    - split; [done|]. by intros (n & H & _). }
  split_and!.
  - rewrite <- !Hnum, <- Hneg.
    destruct (font_js.truthy_string (font_js.familyName options));
      destruct (font_js.truthy_string (font_js.styleName options));
      destruct (font_js.truthy_number (font_js.unitsPerEm options));
      destruct (font_js.truthy_number (font_js.ascender options));
      destruct (font_js.not_positive (font_js.descender options)); simpl;
      (split; [intros [names Hn]; (done || by simplify_eq)|intros (? & ? & ? & ? & ?)]);
      (done || by eexists).
  - by intros ->.
  - by intros -> ->.
  - by intros -> -> ->.
  - intros -> -> -> [->| ->]; done.
  - intros -> -> -> -> Hd.
    assert (font_js.not_positive (font_js.descender options) = false) as ->; [|done].
    destruct Hd as [->|(d & -> & Hd)]; [done|]. simpl. by apply Z.leb_gt.
Qed.

Lemma Font_checks_its_options_witness :
  font_js.empty (minimalOptions "Demo" "Regular") = false
  ∧ ∃ names, font_js.Font_names (minimalOptions "Demo" "Regular") = Normal (Some names).
Proof.
  split; [reflexivity|].
  destruct (Font_checks_its_options (minimalOptions "Demo" "Regular") eq_refl)
    as (Hiff & _).
  apply Hiff. split_and!; [done|done|by exists 1000|by exists 800|by exists (-200)].
Defined.

(* ================================================================== *)
(** * The encodings *)
(* ================================================================== *)

Lemma listsCode_elem_of unicodes' code :
  encoding_js.listsCode unicodes' (Some code) = true ↔ code ∈ unicodes'.
Proof.
  induction unicodes' as [|u rest IH]; simpl.
  - split; [done|]. by intros ?%elem_of_nil.
  - destruct (u =? code) eqn:E.
    + apply Z.eqb_eq in E as ->. split; [|done]. intros _. by left.
    + rewrite IH. apply Z.eqb_neq in E. split; [by right|].
      by intros [->|?]%elem_of_cons.
Qed.

Lemma listsCode_undefined unicodes' : encoding_js.listsCode unicodes' None = false.
Proof. by induction unicodes'. Qed.

Lemma scanGlyphs_Some glyphs' i0 code i :
  encoding_js.scanGlyphs glyphs' i0 code = Some i →
  ∃ (k : nat) g, i = Z.of_nat (i0 + k) ∧ glyphs' !! k = Some g
    ∧ encoding_js.listsCode (encoding_js.unicodes g) code = true
    ∧ ∀ (j : nat) g', (j < k)%nat → glyphs' !! j = Some g' →
        encoding_js.listsCode (encoding_js.unicodes g') code = false.
Proof.
  revert i0. induction glyphs' as [|glyph rest IH]; intros i0; simpl; [done|].
  destruct (encoding_js.listsCode (encoding_js.unicodes glyph) code) eqn:E.
  - intros [= <-]. exists 0%nat, glyph. split_and!; [f_equal; lia|done|done|].
    intros j g' Hj. lia.
  - intros (k & g & -> & Hg & Hlists & Hfirst)%IH.
    exists (S k), g. split_and!; [f_equal; lia|done|done|].
    intros [|j] g' Hj Hg'; simpl in Hg'; [by simplify_eq|].
    eapply Hfirst; [|done]. lia.
Qed.

Lemma scanGlyphs_None glyphs' i0 code :
  encoding_js.scanGlyphs glyphs' i0 code = None ↔
  ∀ g, g ∈ glyphs' → encoding_js.listsCode (encoding_js.unicodes g) code = false.
Proof.
  revert i0. induction glyphs' as [|glyph rest IH]; intros i0; simpl.
  - split; [|done]. by intros _ g ?%elem_of_nil.
  - destruct (encoding_js.listsCode (encoding_js.unicodes glyph) code) eqn:E.
    + split; [done|]. intros H. rewrite H in E; [done|]. by left.
    + rewrite IH. split.
      * by intros H g [->|?]%elem_of_cons; [|apply H].
      * intros H g Hg. apply H. by right.
Qed.

(** X15.  The default encoding of a font gives a character the first
    glyph that lists its code point: [charToGlyphIndex] returns [i]
    exactly when the glyph at [i] lists the code point of the start of
    the string and no glyph before it does; it returns [null] exactly
    when no glyph lists it, as for the empty string or a font without
    glyphs, and that is when [hasChar] is false. *)
Theorem DefaultEncoding_finds_the_first_glyph
    (this : encoding_js.DefaultEncoding) (c : list Z) :
  (∀ i, encoding_js.Font_charToGlyphIndex this c = Some i ↔
     ∃ glyphs' code g,
       encoding_js.font_glyphs this = Some glyphs'
       ∧ encoding_js.codePointAt0 c = Some code
       ∧ 0 <= i ∧ glyphs' !! Z.to_nat i = Some g
       ∧ code ∈ encoding_js.unicodes g
       ∧ ∀ (j : nat) g', (j < Z.to_nat i)%nat → glyphs' !! j = Some g' →
           code ∉ encoding_js.unicodes g')
  ∧ (encoding_js.Font_charToGlyphIndex this c = None ↔
     ∀ glyphs' code g,
       encoding_js.font_glyphs this = Some glyphs' →
       encoding_js.codePointAt0 c = Some code →
       g ∈ glyphs' → code ∉ encoding_js.unicodes g)
  ∧ (encoding_js.hasChar this c = false ↔
     encoding_js.Font_charToGlyphIndex this c = None)
  ∧ encoding_js.hasChar this [] = false.
Proof.
  unfold encoding_js.hasChar, encoding_js.Font_charToGlyphIndex.
  unfold encoding_js.charToGlyphIndex, encoding_js.DefaultEncoding_encoding.
  assert (Hnone : encoding_js.font_glyphs this ≫= (λ glyphs',
            encoding_js.scanGlyphs glyphs' 0 (encoding_js.codePointAt0 c)) = None ↔
          ∀ glyphs' code g,
            encoding_js.font_glyphs this = Some glyphs' →
            encoding_js.codePointAt0 c = Some code →
            g ∈ glyphs' → code ∉ encoding_js.unicodes g).
  { destruct (encoding_js.font_glyphs this) as [glyphs'|]; simpl; [|done].
    rewrite scanGlyphs_None. split.
    - intros H ? code g [= <-] Hcode Hg Hin. apply listsCode_elem_of in Hin.
      rewrite <- Hcode, H in Hin; done.
    - intros H g Hg. destruct (encoding_js.codePointAt0 c) as [code|];
        [|apply listsCode_undefined].
      apply not_true_is_false. rewrite listsCode_elem_of. by eapply H. }
  assert (Hbind : ∀ r,
            match encoding_js.font_glyphs this with
            | Some glyphs' =>
                encoding_js.scanGlyphs glyphs' 0 (encoding_js.codePointAt0 c)
            | None => None
            end = r ↔
            encoding_js.font_glyphs this ≫= (λ glyphs',
              encoding_js.scanGlyphs glyphs' 0 (encoding_js.codePointAt0 c)) = r).
  { intros r. by destruct (encoding_js.font_glyphs this). }
  split_and!.
  - intros i. split.
    + destruct (encoding_js.font_glyphs this) as [glyphs'|]; [|done].
      intros (k & g & -> & Hg & Hlists & Hfirst)%scanGlyphs_Some.
      destruct (encoding_js.codePointAt0 c) as [code|];
        [|by rewrite listsCode_undefined in Hlists].
      exists glyphs', code, g. rewrite Nat.add_0_l, Nat2Z.id.
      split_and!; [done|done|lia|done|by apply listsCode_elem_of|].
      intros j g' Hj Hg' Hin. apply listsCode_elem_of in Hin.
      by rewrite (Hfirst j g') in Hin.
    + intros (glyphs' & code & g & Hglyphs & Hcode & Hi & Hg & Hin & Hfirst).
      rewrite Hglyphs, Hcode.
      destruct (encoding_js.scanGlyphs glyphs' 0 (Some code)) as [i'|] eqn:E.
      * apply scanGlyphs_Some in E as (k & g' & -> & Hg' & Hlists & Hfirst').
        rewrite Nat.add_0_l. f_equal. apply listsCode_elem_of in Hlists.
        destruct (Nat.lt_trichotomy k (Z.to_nat i)) as [Hlt|[Heq|Hgt]]; [|lia|].
        -- by destruct (Hfirst k g').
        -- apply listsCode_elem_of in Hin.
           by rewrite (Hfirst' (Z.to_nat i) g Hgt Hg) in Hin.
      * rewrite scanGlyphs_None in E. apply listsCode_elem_of in Hin.
        rewrite E in Hin; [done|]. by eapply list_elem_of_lookup_2.
  - by rewrite Hbind.
  - by destruct (match encoding_js.font_glyphs this with Some _ => _ | None => _ end).
  - simpl. destruct (encoding_js.font_glyphs this) as [glyphs'|]; [|done].
    assert (encoding_js.scanGlyphs glyphs' 0 None = None) as ->; [|done].
    apply scanGlyphs_None. intros g _. apply listsCode_undefined.
Qed.

(** X16.  For a font that was parsed, [hasChar] says nothing: with the
    encoding of a `cmap` table [charToGlyphIndex] returns the glyph index
    the map gives to the code point, and 0 when it gives none; with the
    encoding of a CFF table it returns the position of the name of the
    code in the character set, and -1 when the code has no name or the
    set does not hold it.  Neither is [null], so [hasChar] is true of
    every string, the empty one too. *)
Theorem hasChar_is_true_of_parsed_fonts
    (cmap : encoding_js.CmapEncoding) (cff : encoding_js.CffEncoding)
    (c : list Z) :
  encoding_js.hasChar cmap c = true
  ∧ encoding_js.hasChar cff c = true
  ∧ encoding_js.Font_charToGlyphIndex cmap c
    = Some (default 0 (code ← encoding_js.codePointAt0 c;
                       encoding_js.glyphIndexMap cmap !! code))
  ∧ (∀ name,
       (code ← encoding_js.codePointAt0 c; encoding_js.encoding cff !! code)
         = Some name →
       name ∈ encoding_js.charset cff →
       ∃ i : nat,
         encoding_js.Font_charToGlyphIndex cff c = Some (Z.of_nat i)
         ∧ encoding_js.charset cff !! i = Some name
         ∧ ∀ j : nat, (j < i)%nat → encoding_js.charset cff !! j ≠ Some name)
  ∧ (∀ name,
       (code ← encoding_js.codePointAt0 c; encoding_js.encoding cff !! code)
         = Some name →
       name ∉ encoding_js.charset cff →
       encoding_js.Font_charToGlyphIndex cff c = Some (-1))
  ∧ ((code ← encoding_js.codePointAt0 c; encoding_js.encoding cff !! code) = None →
     encoding_js.Font_charToGlyphIndex cff c = Some (-1)).
Proof.
  unfold encoding_js.hasChar, encoding_js.Font_charToGlyphIndex.
  unfold encoding_js.charToGlyphIndex, encoding_js.CmapEncoding_encoding,
    encoding_js.CffEncoding_encoding.
  split_and!.
  - destruct (_ ≫= _) as [g|]; [|done]. by destruct (g =? 0).
  - done.
  - destruct (_ ≫= _) as [g|]; [|done]. simpl.
    destruct (g =? 0) eqn:E; [|done]. by apply Z.eqb_eq in E as ->.
  - intros name -> Hin. unfold encoding_js.indexOf.
    destruct (find_index (String.eqb name) (encoding_js.charset cff)) as [i|] eqn:E.
    + apply find_index_Some in E as (x & Hx & Hname & Hfirst).
      apply String.eqb_eq in Hname as <-. exists i. split_and!; [done|done|].
      intros j Hj Hjname. specialize (Hfirst j name Hj Hjname).
      by rewrite String.eqb_refl in Hfirst.
    + rewrite find_index_None in E. specialize (E name Hin).
      by rewrite String.eqb_refl in E.
  - intros name -> Hin. unfold encoding_js.indexOf.
    destruct (find_index (String.eqb name) (encoding_js.charset cff)) as [i|] eqn:E;
      [|done].
    apply find_index_Some in E as (x & Hx & Hname & _).
    apply String.eqb_eq in Hname as <-. destruct Hin. by eapply list_elem_of_lookup_2.
  - by intros ->.
Qed.

(* ================================================================== *)
(** * The names of the glyphs *)
(* ================================================================== *)

Lemma at_index_Some {A} (arr : list A) (i : Z) (x : A) :
  encoding_js.at_index arr i = Some x ↔ 0 <= i ∧ arr !! Z.to_nat i = Some x.
Proof.
  unfold encoding_js.at_index. destruct (i <? 0) eqn:E.
  - apply Z.ltb_lt in E. split; [done|]. intros [? _]. lia.
  - apply Z.ltb_ge in E. split; [by intros H|by intros [_ H]].
Qed.

Lemma nameToGlyphIndex_found (names : list (option string)) (name' : string) :
  encoding_js.nameToGlyphIndex names name' ≠ -1 →
  ∃ i : nat,
    encoding_js.nameToGlyphIndex names name' = Z.of_nat i
    ∧ names !! i = Some (Some name')
    ∧ ∀ j : nat, (j < i)%nat → names !! j ≠ Some (Some name').
Proof.
  unfold encoding_js.nameToGlyphIndex.
  destruct (find_index _ names) as [i|] eqn:E; [|done]. intros _.
  apply find_index_Some in E as ([s|] & Hi & Heq & Hfirst); [|done].
  apply String.eqb_eq in Heq as ->. exists i. split_and!; [done|done|].
  intros j Hj Hjname. specialize (Hfirst j _ Hj Hjname). simpl in Hfirst.
  by rewrite String.eqb_refl in Hfirst.
Qed.

Lemma nameToGlyphIndex_not_found (names : list (option string)) (name' : string) :
  encoding_js.nameToGlyphIndex names name' = -1 ↔ Some name' ∉ names.
Proof.
  unfold encoding_js.nameToGlyphIndex.
  destruct (find_index _ names) as [i|] eqn:E.
  - apply find_index_Some in E as ([s|] & Hi & Heq & Hfirst); [|done].
    apply String.eqb_eq in Heq as ->. split; [lia|]. intros [].
    by eapply list_elem_of_lookup_2.
  - split; [|done]. intros _ Hin. rewrite find_index_None in E.
    specialize (E _ Hin). simpl in E. by rewrite String.eqb_refl in E.
Qed.

(** X17.  The two methods of [GlyphNames] are inverse to each other as
    far as the names are distinct: [nameToGlyphIndex] returns -1 exactly
    for a name that no glyph has, and otherwise the first glyph index
    whose name [glyphIndexToName] gives back; the name of a glyph index
    leads back to that index or to a smaller one with the same name.
    The names of a `post` table of version 1 are the standard names; of
    version 2 and 2.5 there are as many as the table has glyphs; of
    version 3, or of a version the class does not know, there are none,
    so no name has an index and no index has a name. *)
Theorem GlyphNames_methods_invert_each_other
    (standardNames : list string) (post : encoding_js.Post)
    (name' : string) (gid : Z) :
  let names := encoding_js.GlyphNames standardNames post in
  (encoding_js.nameToGlyphIndex names name' = -1 ↔ Some name' ∉ names)
  ∧ (encoding_js.nameToGlyphIndex names name' ≠ -1 →
       0 <= encoding_js.nameToGlyphIndex names name'
       ∧ encoding_js.glyphIndexToName names
           (encoding_js.nameToGlyphIndex names name') = Some name'
       ∧ ∀ smaller, 0 <= smaller < encoding_js.nameToGlyphIndex names name' →
           encoding_js.glyphIndexToName names smaller ≠ Some name')
  ∧ (encoding_js.glyphIndexToName names gid = Some name' →
       0 <= encoding_js.nameToGlyphIndex names name' <= gid)
  ∧ (encoding_js.post_version post = encoding_js.post_1 →
       encoding_js.glyphIndexToName names gid
         = encoding_js.at_index standardNames gid)
  ∧ (encoding_js.post_version post = encoding_js.post_2
     ∨ encoding_js.post_version post = encoding_js.post_2_5 →
       length names = encoding_js.numberOfGlyphs post)
  ∧ (encoding_js.post_version post = encoding_js.post_3
     ∨ encoding_js.post_version post = encoding_js.post_other →
       encoding_js.nameToGlyphIndex names name' = -1
       ∧ encoding_js.glyphIndexToName names gid = None).
Proof.
  intros names. split_and!.
  - apply nameToGlyphIndex_not_found.
  - intros (i & -> & Hi & Hfirst)%nameToGlyphIndex_found.
    unfold encoding_js.glyphIndexToName. split_and!; [lia| |].
    + assert (encoding_js.at_index names (Z.of_nat i) = Some (Some name')) as ->;
        [|done].
      apply at_index_Some. rewrite Nat2Z.id. split; [lia|done].
    + intros smaller Hsmaller Hname.
      destruct (encoding_js.at_index names smaller) as [[s|]|] eqn:E; try done.
      simpl in Hname. simplify_eq. apply at_index_Some in E as [_ E].
      apply (Hfirst (Z.to_nat smaller)); [lia|done].
  - unfold encoding_js.glyphIndexToName. intros Hname.
    destruct (encoding_js.at_index names gid) as [[s|]|] eqn:E; try done.
    simpl in Hname. simplify_eq. apply at_index_Some in E as [Hgid E].
    destruct (decide (encoding_js.nameToGlyphIndex names name' = -1)) as [Hno|Hyes].
    + apply nameToGlyphIndex_not_found in Hno. destruct Hno.
      by eapply list_elem_of_lookup_2.
    + apply nameToGlyphIndex_found in Hyes as (i & -> & Hi & Hfirst).
      split; [lia|]. destruct (decide (i ≤ Z.to_nat gid)%nat); [lia|].
      destruct (Hfirst (Z.to_nat gid)); [lia|done].
  - intros Hv. unfold names, encoding_js.GlyphNames, encoding_js.glyphIndexToName.
    rewrite Hv. unfold encoding_js.at_index. destruct (gid <? 0); [done|].
    rewrite list_lookup_fmap. by destruct (standardNames !! _).
  - unfold names, encoding_js.GlyphNames.
    by intros [-> | ->]; rewrite length_fmap, length_seq.
  - unfold names, encoding_js.GlyphNames, encoding_js.glyphIndexToName,
      encoding_js.at_index.
    by intros [-> | ->]; destruct (gid <? 0).
Qed.

Lemma GlyphNames_methods_invert_each_other_witness :
  encoding_js.glyphIndexToName
    (encoding_js.GlyphNames [".notdef"; ".null"; "space"]
       {| encoding_js.post_version := encoding_js.post_2;
          encoding_js.numberOfGlyphs := 3;
          encoding_js.glyphNameIndex := [0; 3; 2];
          encoding_js.post_names := ["alpha"] |}) 1 = Some "alpha"
  ∧ 0 <= encoding_js.nameToGlyphIndex
      (encoding_js.GlyphNames [".notdef"; ".null"; "space"]
         {| encoding_js.post_version := encoding_js.post_2;
            encoding_js.numberOfGlyphs := 3;
            encoding_js.glyphNameIndex := [0; 3; 2];
            encoding_js.post_names := ["alpha"] |}) "alpha" <= 1.
Proof.
  split; [reflexivity|].
  by apply (GlyphNames_methods_invert_each_other [".notdef"; ".null"; "space"]
              {| encoding_js.post_version := encoding_js.post_2;
                 encoding_js.numberOfGlyphs := 3;
                 encoding_js.glyphNameIndex := [0; 3; 2];
                 encoding_js.post_names := ["alpha"] |} "alpha" 1).
Defined.

Lemma addToUnicodeMap_lookup (charCodes : list (Z * Z)) (map : gmap Z (list Z))
    (glyphIndex : Z) :
  encoding_js.addToUnicodeMap charCodes map !! glyphIndex
    = match map !! glyphIndex, codesOf charCodes glyphIndex with
      | None, [] => None
      | None, codes => Some codes
      | Some unicodes', codes => Some (unicodes' ++ codes)
      end.
Proof.
  unfold codesOf. revert map.
  induction charCodes as [|[c gi] rest IH]; intros map; simpl.
  - destruct (map !! glyphIndex); [by rewrite app_nil_r|done].
  - rewrite IH, filter_cons. simpl. destruct (decide (gi = glyphIndex)) as [->|Hne].
    + destruct (map !! glyphIndex) as [us|]; rewrite lookup_insert_eq; simpl;
        [by rewrite <- app_assoc|done].
    + destruct (map !! gi) as [us|]; by rewrite lookup_insert_ne.
Qed.

(** X18.  [addGlyphNamesToUnicodeMap] turns the map of the `cmap` table
    round: a glyph index gets the list of the codes the map gives to it,
    in the order the codes come in, and a glyph index that no code maps
    to gets no entry.  So a code is among the unicodes of a glyph index
    exactly when the map gives the code that glyph index. *)
Theorem addGlyphNamesToUnicodeMap_inverts_the_cmap
    (glyphIndexMap' : list (Z * Z)) (glyphIndex : Z) :
  (encoding_js.addGlyphNamesToUnicodeMap glyphIndexMap' !! glyphIndex = None ↔
     ∀ c, (c, glyphIndex) ∉ glyphIndexMap')
  ∧ (∀ unicodes',
       encoding_js.addGlyphNamesToUnicodeMap glyphIndexMap' !! glyphIndex
         = Some unicodes' →
       unicodes' = codesOf glyphIndexMap' glyphIndex
       ∧ unicodes' ≠ []
       ∧ ∀ c, c ∈ unicodes' ↔ (c, glyphIndex) ∈ glyphIndexMap').
Proof.
  unfold encoding_js.addGlyphNamesToUnicodeMap.
  rewrite addToUnicodeMap_lookup, lookup_empty.
  assert (Hcodes : ∀ c, c ∈ codesOf glyphIndexMap' glyphIndex
                        ↔ (c, glyphIndex) ∈ glyphIndexMap').
  { intros c. unfold codesOf. rewrite list_elem_of_fmap. split.
    - intros ([c' g] & -> & [Hg Hin]%list_elem_of_filter). simpl in *. by subst.
    - intros Hin. exists (c, glyphIndex). split; [done|].
      by apply list_elem_of_filter. }
  split.
  - destruct (codesOf glyphIndexMap' glyphIndex) as [|c0 codes] eqn:E.
    + split; [|done]. intros _ c Hin. apply Hcodes in Hin. by apply elem_of_nil in Hin.
    + split; [done|]. intros H. destruct (H c0). apply Hcodes. by left.
  - intros unicodes'.
    destruct (codesOf glyphIndexMap' glyphIndex) as [|c0 codes] eqn:E; [done|].
    intros [= <-]. split_and!; [done|done|]. intros c. by rewrite <- Hcodes.
Qed.

(* ================================================================== *)
(** * The path data of a path *)
(* ================================================================== *)

Section path_properties.

Context {number : Type}.
Variable of_Z : Z → number.
Variable nonNegative : number → bool.
Variable floatToString : nat → number → string.

Lemma toPathData_loop_from (decimalPlaces : nat)
    (cmds : list (@path_js.Command number)) (d : string) :
  path_js.toPathData_loop nonNegative floatToString decimalPlaces cmds d
    = d +:+ path_js.toPathData_loop nonNegative floatToString decimalPlaces cmds "".
Proof.
  revert d. induction cmds as [|cmd rest IH]; intros d; simpl;
    [by rewrite append_empty_r|].
  destruct cmd;
    first [ by apply IH
          | rewrite (IH (d +:+ _)), (IH ("" +:+ _)); by rewrite append_assoc ].
Qed.

Lemma toPathData_loop_app (decimalPlaces : nat)
    (cmds1 cmds2 : list (@path_js.Command number)) :
  path_js.toPathData_loop nonNegative floatToString decimalPlaces (cmds1 ++ cmds2) ""
    = path_js.toPathData_loop nonNegative floatToString decimalPlaces cmds1 ""
      +:+ path_js.toPathData_loop nonNegative floatToString decimalPlaces cmds2 "".
Proof.
  rewrite <- toPathData_loop_from. generalize "" as d.
  induction cmds1 as [|cmd rest IH]; intros d; simpl; [done|apply IH].
Qed.

(** X19.  The path data of a path that was extended is its path data
    before, followed by the path data of what it was extended by: another
    path, an array of commands, or the five commands that draw a
    bounding box, after which [extend] returns [undefined] and not the
    path.  A command of a type the class does not know adds nothing to
    the path data.  Between two values there is a space unless the second
    is negative, and there is none before the first. *)
Theorem toPathData_of_extend (this other : @path_js.Path number)
    (cmds : list path_js.Command) (box : path_js.BoundingBox)
    (decimalPlaces : option nat) (x y : number) (type' : string) :
  let pathData := path_js.toPathData nonNegative floatToString in
  pathData (path_js.extend this (path_js.a_path other)).1 decimalPlaces
    = pathData this decimalPlaces +:+ pathData other decimalPlaces
  ∧ (path_js.extend this (path_js.a_path other)).2
    = Some (path_js.extend this (path_js.a_path other)).1
  ∧ pathData (path_js.extend this (path_js.an_array cmds)).1 decimalPlaces
    = pathData this decimalPlaces
      +:+ pathData (path_js.extend (path_js.new_Path of_Z) (path_js.an_array cmds)).1
            decimalPlaces
  ∧ (path_js.extend this (path_js.a_box box)).2 = None
  ∧ path_js.commands (path_js.extend this (path_js.a_box box)).1
    = path_js.commands this
      ++ [path_js.cmd_M (path_js.x1 box) (path_js.y1 box);
          path_js.cmd_L (path_js.x2 box) (path_js.y1 box);
          path_js.cmd_L (path_js.x2 box) (path_js.y2 box);
          path_js.cmd_L (path_js.x1 box) (path_js.y2 box);
          path_js.cmd_Z]
  ∧ pathData (path_js.moveTo this x y) decimalPlaces
    = pathData this decimalPlaces
      +:+ "M" +:+ floatToString (default 2%nat decimalPlaces) x
      +:+ (if nonNegative y then " " else "")
      +:+ floatToString (default 2%nat decimalPlaces) y
  ∧ pathData (path_js.close this) decimalPlaces = pathData this decimalPlaces +:+ "Z"
  ∧ pathData (path_js.push this (path_js.cmd_other type')) decimalPlaces
    = pathData this decimalPlaces.
Proof.
  intros pathData. unfold pathData, path_js.toPathData. split_and!.
  - simpl. apply toPathData_loop_app.
  - done.
  - simpl. apply toPathData_loop_app.
  - done.
  - simpl. by rewrite <- !app_assoc.
  - simpl. rewrite toPathData_loop_app. f_equal. simpl.
    unfold path_js.packValues. simpl. rewrite andb_false_r, andb_true_r.
    destruct (nonNegative y); cbv [String.append]; by rewrite ?append_assoc.
  - simpl. by rewrite toPathData_loop_app.
  - simpl. rewrite toPathData_loop_app. simpl. by rewrite append_empty_r.
Qed.

End path_properties.

(* ================================================================== *)
(** * The type guards *)
(* ================================================================== *)

(** X20.  [isObject] never answers true: it is false of what is no
    object and of [null], and for an object or an array it throws a
    [ReferenceError], since its last operand reads a name that nothing
    declares.  So [isFunction] is true of the functions only and throws
    for an object or an array, and [safeCall] applies a function, gives
    back a primitive value, and throws for an object or an array it was
    to give back. *)
Theorem isObject_is_never_true
    (apply' : nat → jsvalue → list jsvalue → completion jsvalue)
    (it thisArg : jsvalue) (args : list jsvalue) :
  isObject it ≠ Normal true
  ∧ (isObject it = Throw ReferenceError ↔
       (∃ items, it = v_array items) ∨ (∃ id, it = v_object id))
  ∧ (isObject it = Normal false ↔
       ¬ ((∃ items, it = v_array items) ∨ (∃ id, it = v_object id)))
  ∧ (isFunction it = Normal true ↔ ∃ id, it = v_function id)
  ∧ safeCall apply' it thisArg args
    = match it with
      | v_function id => apply' id thisArg args
      | v_array _ | v_object _ => Throw ReferenceError
      | _ => Normal it
      end.
Proof.
  split_and!.
  - by destruct it.
  - destruct it; simpl; split; try done; eauto; by intros [[? ?]|[? ?]].
  - destruct it; simpl; split; try done; try (by intros _ [[? ?]|[? ?]]);
      intros H; destruct H; eauto.
  - destruct it; simpl; split; try done; eauto; by intros [? ?].
  - by destruct it.
Qed.

(* ================================================================== *)
(** * The deprecation warnings *)
(* ================================================================== *)

Lemma calls_app apply' cs1 cs2 st :
  calls apply' (cs1 ++ cs2) st = calls apply' cs2 (calls apply' cs1 st).
Proof.
  revert st. induction cs1 as [|[w [this args]] cs1 IH]; intros st; simpl; [done|].
  apply IH.
Qed.

Lemma call_warns apply' w this args st :
  historyOfWarnings st →
  historyOfWarnings (deprecated_js.call apply' w this args st).2
  ∧ deprecated_js.warned (deprecated_js.call apply' w this args st).2
    = if decide (subjectOf w ∈ subject <$> deprecated_js.warned st)
      then deprecated_js.warned st
      else deprecated_js.warned st
             ++ [(deprecated_js.logger w, deprecated_js.func w, deprecated_js.message w)].
Proof.
  unfold historyOfWarnings. intros Hinv. destruct w as [f m l].
  unfold subjectOf. simpl.
  destruct (deprecated_js.HISTORY st !! f) as [S|] eqn:HS.
  - rewrite HS. simpl. destruct (decide (m ∈ S)) as [Hm|Hm]; simpl.
    + split; [done|]. rewrite decide_True; [done|]. apply Hinv. by exists S.
    + split.
      * intros f' m'. simpl. rewrite fmap_app, elem_of_app, Hinv.
        change (subject <$> [(l, f, m)]) with [(f, m)].
        rewrite list_elem_of_singleton.
        destruct (decide (f' = f)) as [->|Hf].
        -- rewrite lookup_insert_eq, HS. split.
           ++ intros [(S' & [= <-] & Hin)|[= ->]]; eexists; (split; [done|]);
                apply elem_of_union; [by right|left; by apply elem_of_singleton].
           ++ intros (S' & [= <-] & [->%elem_of_singleton|Hin]%elem_of_union);
                [by right|left; by exists S].
        -- rewrite lookup_insert_ne by done. split; [|by left].
           by intros [?|[= ? ?]].
      * rewrite decide_False; [done|]. rewrite Hinv, HS. by intros (S' & [= <-] & ?).
  - rewrite lookup_insert_eq. simpl.
    rewrite decide_False by apply not_elem_of_empty. simpl. split.
    + intros f' m'. simpl. rewrite fmap_app, elem_of_app, Hinv.
      change (subject <$> [(l, f, m)]) with [(f, m)].
        rewrite list_elem_of_singleton.
      destruct (decide (f' = f)) as [->|Hf].
      * rewrite lookup_insert_eq, HS. split.
        -- intros [(S' & ? & _)|[= ->]]; [done|]. eexists. split; [done|].
           apply elem_of_union. left. by apply elem_of_singleton.
        -- intros (S' & [= <-] & [->%elem_of_singleton|?%elem_of_empty]%elem_of_union);
             [by right|done].
      * rewrite !lookup_insert_ne by done. split; [|by left].
        by intros [?|[= ? ?]].
    + rewrite decide_False; [done|]. rewrite Hinv, HS. by intros (S' & ? & _).
Qed.

(** X21.  A deprecated function warns once for each message, whatever
    wrapper of it is called: after any run of calls, from the module as
    it is loaded, no function has been warned about twice with the same
    message; a function and a message have a warning exactly when a
    wrapper of that function with that message was called; and the
    warning went to the logger of the first such call, the loggers of
    later wrappers of the same function and message being given nothing.
    Each call passes the function one argument, the object [arguments]
    of the call, and not the arguments themselves. *)
Theorem deprecated_warns_once
    (apply' : nat → jsvalue → list jsvalue → completion jsvalue)
    (cs : list (deprecated_js.Wrapper * (jsvalue * list jsvalue))) :
  let st := calls apply' cs deprecated_js.initial in
  NoDup (subject <$> deprecated_js.warned st)
  ∧ (∀ f m, (∃ l, (l, f, m) ∈ deprecated_js.warned st)
            ↔ ∃ w, w ∈ cs.*1 ∧ deprecated_js.func w = f
                   ∧ deprecated_js.message w = m)
  ∧ (∀ l f m, (l, f, m) ∈ deprecated_js.warned st →
       ∃ before after,
         cs.*1 = before
                 ++ {| deprecated_js.func := f; deprecated_js.message := m;
                       deprecated_js.logger := l |} :: after
         ∧ ∀ w, w ∈ before →
             ¬ (deprecated_js.func w = f ∧ deprecated_js.message w = m))
  ∧ (∀ w this arguments st0,
       (deprecated_js.call apply' w this arguments st0).1
         = apply' (deprecated_js.func w) this [v_array arguments]).
Proof.
  intros st. unfold st. clear st.
  assert (Hsubject : ∀ (ws : list (nat * nat * string)) f m,
            (f, m) ∈ subject <$> ws ↔ ∃ l, (l, f, m) ∈ ws).
  { intros ws f m. rewrite list_elem_of_fmap. split.
    - intros ([[l f'] m'] & [= -> ->] & Hin). by exists l.
    - intros [l Hin]. by exists (l, f, m). }
  assert (Hof : ∀ (ws : list deprecated_js.Wrapper) f m,
            (f, m) ∈ subjectOf <$> ws
            ↔ ∃ w, w ∈ ws ∧ deprecated_js.func w = f ∧ deprecated_js.message w = m).
  { intros ws f m. rewrite list_elem_of_fmap. split.
    - intros (w & [= -> ->] & Hin). by exists w.
    - intros (w & Hin & <- & <-). by exists w. }
  cut (historyOfWarnings (calls apply' cs deprecated_js.initial)
       ∧ NoDup (subject <$> deprecated_js.warned (calls apply' cs deprecated_js.initial))
       ∧ (∀ s, s ∈ subject <$> deprecated_js.warned (calls apply' cs deprecated_js.initial)
               ↔ s ∈ subjectOf <$> cs.*1)
       ∧ (∀ l f m, (l, f, m) ∈ deprecated_js.warned (calls apply' cs deprecated_js.initial) →
            ∃ before after,
              cs.*1 = before
                      ++ {| deprecated_js.func := f; deprecated_js.message := m;
                            deprecated_js.logger := l |} :: after
              ∧ (f, m) ∉ subjectOf <$> before)).
  { intros (_ & Hnodup & Hmem & Hfirst). split_and!; [done| |..].
    - intros f m. by rewrite <- Hsubject, Hmem, Hof.
    - intros l f m (before & after & Hcs & Hbefore)%Hfirst.
      exists before, after. split; [done|]. intros w Hw Heq. apply Hbefore, Hof.
      by exists w.
    - by intros [f m l] this arguments st0. }
  induction cs as [|[w [this args]] cs IH] using rev_ind.
  - simpl. split_and!.
    + intros f m. simpl. split; [by intros ?%elem_of_nil|].
      by intros (S & ? & _).
    + constructor.
    + done.
    + by intros l f m ?%elem_of_nil.
  - destruct IH as (Hinv & Hnodup & Hmem & Hfirst).
    rewrite calls_app. cbn [calls].
    destruct (call_warns apply' w this args _ Hinv) as [Hinv' Hwarned].
    rewrite Hwarned, !fmap_app.
    change (subjectOf <$> [(w, (this, args))].*1) with [subjectOf w].
    change ([(w, (this, args))].*1) with [w].
    split_and!; [done| | |].
    + destruct (decide _) as [Hin|Hin]; [done|].
      rewrite fmap_app. apply NoDup_app. split_and!; [done| |apply NoDup_singleton].
      intros s Hs ->%list_elem_of_singleton. by destruct Hin.
    + intros s. rewrite elem_of_app, list_elem_of_singleton, <- Hmem.
      destruct (decide _) as [Hin|Hin].
      * split; [by left|]. by intros [?| ->].
      * rewrite fmap_app, elem_of_app.
        change (subject <$> [_]) with [subjectOf w].
        by rewrite list_elem_of_singleton.
    + intros l f m Hlfm.
      assert ((l, f, m) ∈ deprecated_js.warned (calls apply' cs deprecated_js.initial)
              ∨ ((subjectOf w ∉ subjectOf <$> cs.*1)
                 ∧ w = {| deprecated_js.func := f; deprecated_js.message := m;
                          deprecated_js.logger := l |})) as [Hold|[Hnew ->]].
      { destruct (decide _) as [Hin|Hin]; [by left|].
        apply elem_of_app in Hlfm as [?|[= -> -> ->]%list_elem_of_singleton];
          [by left|].
        right. split; [by rewrite <- Hmem|by destruct w]. }
      * destruct (Hfirst l f m Hold) as (before & after & -> & Hbefore).
        exists before, (after ++ [w]). split; [|done].
        by rewrite <- app_assoc.
      * by exists cs.*1, [].
Qed.
